(** * Routing wires on a layered circuit board

    A shallow embedding of [a_star.py], [circuit_board.py] and
    [read_board.py]: the grid model, the constrained A* pathfinder, the
    pair router, the board completion optimizer, the writer of the
    solution and the reader of the worksheet, followed by their
    properties. *)

From Stdlib Require Import String Ascii.
From Stdlib Require Import ZArith List Bool Lia Arith.
Import ListNotations.
Local Open Scope Z_scope.

(* ================================================================= *)
(** ** Python run-time values *)

(** Exceptions the routing core can raise. *)
Inductive exn : Type :=
| IndexError
| KeyError
| ValueError
| TypeError.

(** Outcome of running a piece of Python: a value, an uncaught
    exception, or a loop that was still running when the step budget
    of the model ended. *)
Inductive py (A : Type) : Type :=
| Ret (a : A)
| Raise (e : exn)
| OutOfFuel.

Arguments Ret {A} a.
Arguments Raise {A} e.
Arguments OutOfFuel {A}.

Definition bind {A B : Type} (m : py A) (k : A -> py B) : py B :=
  match m with
  | Ret a => k a
  | Raise e => Raise e
  | OutOfFuel => OutOfFuel
  end.

Notation "x <- m ;; k" := (bind m (fun x => k))
  (at level 61, m at next level, right associativity).
Notation "' p <- m ;; k" := (bind m (fun p => k))
  (at level 61, p pattern, m at next level, right associativity).

(** Boolean equality with its specification, for dictionary keys and
    set members. *)
Class Eqb (A : Type) : Type := {
  eqb : A -> A -> bool;
  eqb_eq : forall x y, eqb x y = true <-> x = y
}.

#[export] Instance Eqb_Z : Eqb Z := {| eqb := Z.eqb; eqb_eq := Z.eqb_eq |}.
#[export] Instance Eqb_nat : Eqb nat := {| eqb := Nat.eqb; eqb_eq := Nat.eqb_eq |}.
#[export] Instance Eqb_string : Eqb String.string :=
  {| eqb := String.eqb; eqb_eq := String.eqb_eq |}.

(** A grid coordinate, the tuple [(z, x, y)]. *)
Definition node : Type := (Z * Z * Z)%type.

Definition node_eqb (a b : node) : bool :=
  let '(az, ax, ay) := a in
  let '(bz, bx, by') := b in
  (az =? bz) && (ax =? bx) && (ay =? by').

Lemma node_eqb_eq (a b : node) : node_eqb a b = true <-> a = b.
Proof.
  destruct a as [[az ax] ay], b as [[bz bx] by']; unfold node_eqb.
  rewrite !andb_true_iff, !Z.eqb_eq.
  split; [intros [[-> ->] ->]; reflexivity | intros [= -> -> ->]; auto].
Qed.

#[export] Instance Eqb_node : Eqb node := {| eqb := node_eqb; eqb_eq := node_eqb_eq |}.

(** Keys of the gate dictionaries.  Gate identifiers are whatever the
    net list holds (numbers or text from the spreadsheet); a coordinate
    tuple is hashable as well, and it is what [node in needs_connections]
    looks up. *)
Inductive key : Type :=
| KInt (i : Z)
| KStr (s : String.string)
| KNode (n : node).

Definition key_eqb (a b : key) : bool :=
  match a, b with
  | KInt i, KInt j => i =? j
  | KStr s, KStr t => String.eqb s t
  | KNode n, KNode m => node_eqb n m
  | _, _ => false
  end.

Lemma key_eqb_eq (a b : key) : key_eqb a b = true <-> a = b.
Proof.
  destruct a, b; simpl; try (split; discriminate).
  - rewrite Z.eqb_eq. split; [intros ->; reflexivity | intros [= ->]; reflexivity].
  - rewrite String.eqb_eq. split; [intros ->; reflexivity | intros [= ->]; reflexivity].
  - rewrite node_eqb_eq. split; [intros ->; reflexivity | intros [= ->]; reflexivity].
Qed.

#[export] Instance Eqb_key : Eqb key := {| eqb := key_eqb; eqb_eq := key_eqb_eq |}.

Lemma eqb_refl {A} `{Eqb A} (x : A) : eqb x x = true.
Proof. apply eqb_eq; reflexivity. Qed.

Lemma eqb_neq {A} `{Eqb A} (x y : A) : eqb x y = false <-> x <> y.
Proof.
  split.
  - intros E Heq. apply eqb_eq in Heq. congruence.
  - intros N. destruct (eqb x y) eqn:E; [apply eqb_eq in E; contradiction | reflexivity].
Qed.

(* ----------------------------------------------------------------- *)
(** *** Dictionaries

    A Python [dict] keeps its keys in insertion order, and assigning to
    a key that is present keeps the key where it is. *)

Section Dict.
Context {K V : Type} `{Eqb K}.

Definition dict : Type := list (K * V).

Fixpoint dict_get (d : dict) (k : K) : option V :=
  match d with
  | [] => None
  | (k', v) :: rest => if eqb k' k then Some v else dict_get rest k
  end.

(** [k in d] *)
Definition dict_mem (d : dict) (k : K) : bool :=
  match dict_get d k with Some _ => true | None => false end.

(** [d[k]] *)
Definition dict_getitem (d : dict) (k : K) : py V :=
  match dict_get d k with Some v => Ret v | None => Raise KeyError end.

(** [d.get(k, default)] *)
Definition dict_get_default (d : dict) (k : K) (default : V) : V :=
  match dict_get d k with Some v => v | None => default end.

(** [d[k] = v] *)
Fixpoint dict_set (d : dict) (k : K) (v : V) : dict :=
  match d with
  | [] => [(k, v)]
  | (k', v') :: rest =>
      if eqb k' k then (k', v) :: rest else (k', v') :: dict_set rest k v
  end.

Lemma dict_get_set_eq (d : dict) k v : dict_get (dict_set d k v) k = Some v.
Proof.
  induction d as [|[k' v'] rest IH]; simpl.
  - rewrite eqb_refl. reflexivity.
  - destruct (eqb k' k) eqn:E; simpl; rewrite E; auto.
Qed.

Lemma dict_get_set_neq (d : dict) k k' v :
  k <> k' -> dict_get (dict_set d k v) k' = dict_get d k'.
Proof.
  intros N. induction d as [|[k0 v0] rest IH]; simpl.
  - apply eqb_neq in N. rewrite N. reflexivity.
  - destruct (eqb k0 k) eqn:E; simpl.
    + apply eqb_eq in E. subst k0.
      apply eqb_neq in N. rewrite N. reflexivity.
    + destruct (eqb k0 k'); auto.
Qed.

Lemma dict_get_set (d : dict) k k' v :
  dict_get (dict_set d k v) k' = if eqb k k' then Some v else dict_get d k'.
Proof.
  destruct (eqb k k') eqn:E.
  - apply eqb_eq in E. subst. apply dict_get_set_eq.
  - apply eqb_neq in E. apply dict_get_set_neq; assumption.
Qed.

(** Writing back the value a key already has leaves the dictionary
    as it was. *)
Lemma dict_set_same (d : dict) k v : dict_get d k = Some v -> dict_set d k v = d.
Proof.
  induction d as [|[k' v'] rest IH]; simpl; [discriminate|].
  destruct (eqb k' k) eqn:E.
  - intros [= ->]. reflexivity.
  - intros G. rewrite IH; auto.
Qed.

Lemma dict_set_set (d : dict) k v w :
  dict_mem d k = true -> dict_set (dict_set d k v) k w = dict_set d k w.
Proof.
  unfold dict_mem.
  induction d as [|[k' v'] rest IH]; simpl; [discriminate|].
  destruct (eqb k' k) eqn:E; simpl; rewrite E; [reflexivity|].
  intros M. rewrite IH; auto.
Qed.
End Dict.

Arguments dict K V : clear implicits.

(* ----------------------------------------------------------------- *)
(** *** Sets and lists *)

Section Collections.
Context {A : Type} `{Eqb A}.

(** [x in s] *)
Fixpoint mem (x : A) (s : list A) : bool :=
  match s with
  | [] => false
  | y :: rest => eqb y x || mem x rest
  end.

(** [s.add(x)] on a set *)
Definition set_add (x : A) (s : list A) : list A :=
  if mem x s then s else s ++ [x].

(** [s.remove(x)] on a set whose member [x] is *)
Fixpoint set_remove (x : A) (s : list A) : list A :=
  match s with
  | [] => []
  | y :: rest => if eqb y x then set_remove x rest else y :: set_remove x rest
  end.

(** [l.remove(x)] on a list: the first occurrence goes. *)
Fixpoint list_remove (x : A) (l : list A) : list A :=
  match l with
  | [] => []
  | y :: rest => if eqb y x then rest else y :: list_remove x rest
  end.

Lemma mem_In (x : A) (s : list A) : mem x s = true <-> In x s.
Proof.
  induction s as [|y rest IH]; simpl.
  - split; [discriminate | tauto].
  - rewrite orb_true_iff, eqb_eq, IH. tauto.
Qed.

Lemma mem_false (x : A) (s : list A) : mem x s = false <-> ~ In x s.
Proof.
  rewrite <- mem_In. destruct (mem x s); split; congruence.
Qed.

Lemma In_list_remove (x y : A) (l : list A) : In y (list_remove x l) -> In y l.
Proof.
  induction l as [|z rest IH]; simpl; [tauto|].
  destruct (eqb z x); simpl; tauto.
Qed.

Lemma length_list_remove_le (x : A) (l : list A) :
  (length (list_remove x l) <= length l)%nat.
Proof.
  induction l as [|y l IH]; simpl; [lia|].
  destruct (eqb y x); simpl; lia.
Qed.

Lemma In_set_remove (x y : A) (s : list A) :
  In y (set_remove x s) <-> In y s /\ y <> x.
Proof.
  induction s as [|z rest IH]; simpl; [tauto|].
  destruct (eqb z x) eqn:E.
  - apply eqb_eq in E. subst z. rewrite IH. intuition congruence.
  - apply eqb_neq in E. simpl. rewrite IH. intuition congruence.
Qed.

Lemma In_set_add (x y : A) (s : list A) : In y (set_add x s) <-> y = x \/ In y s.
Proof.
  unfold set_add. destruct (mem x s) eqn:M.
  - apply mem_In in M. intuition congruence.
  - rewrite in_app_iff. simpl. intuition congruence.
Qed.
End Collections.

(** Indexing a sequence of [len] items with a Python integer: negative
    indices count from the end, anything else out of range raises.
    The exception is [IndexError] for an integer of the size of an
    index, 64 bits; for a larger one numpy raises [OverflowError],
    which is not among the exceptions modelled. *)
Definition np_index (len : nat) (i : Z) : py nat :=
  if (0 <=? i) && (i <? Z.of_nat len) then Ret (Z.to_nat i)
  else if (- Z.of_nat len <=? i) && (i <? 0) then Ret (Z.to_nat (i + Z.of_nat len))
  else Raise IndexError.

Definition getitem {A : Type} (l : list A) (i : Z) : py A :=
  n <- np_index (length l) i ;;
  match nth_error l n with
  | Some a => Ret a
  | None => Raise IndexError
  end.

(** Replace the item at position [n] by its image under [f]. *)
Fixpoint upd {A : Type} (n : nat) (f : A -> A) (l : list A) : list A :=
  match l, n with
  | [], _ => []
  | a :: rest, O => f a :: rest
  | a :: rest, S n' => a :: upd n' f rest
  end.

(* ================================================================= *)
(** ** The grid model *)

(** Cell labels are the strings of the numpy array: ["__"] for an empty
    cell, ["GA"] for a gate, and the two digits of a wire. *)
Definition label : Type := String.string.
Definition EMPTY : label := "__"%string.
Definition GATE : label := "GA"%string.

Definition label_eqb (a b : label) : bool := String.eqb a b.

(** The array is made by [np.full(dimensions, '__')], so its items are
    strings of at most two characters: a longer string assigned to a
    cell is cut to its first two.  A [string] is a list of bytes, and
    the cut keeps two of them: these are the first two characters for
    the texts the program writes, which are ASCII ([ascii_text]). *)
Definition np_trunc (s : label) : label := String.substring 0 2 s.

Definition grid : Type := list (list (list label)).

(** [np.full(dimensions, v)] *)
Definition np_full (dims : Z * Z * Z) (v : label) : py grid :=
  let '(bz, bx, by') := dims in
  if (bz <? 0) || (bx <? 0) || (by' <? 0) then Raise ValueError
  else Ret (repeat (repeat (repeat (np_trunc v) (Z.to_nat by')) (Z.to_nat bx))
                   (Z.to_nat bz)).

(** [board[z][x][y]] *)
Definition get_node (b : grid) (n : node) : py label :=
  let '(z, x, y) := n in
  plane <- getitem b z ;;
  row <- getitem plane x ;;
  getitem row y.

(** [board[z][x][y] = val], in place *)
Definition set_cell (b : grid) (n : node) (val : label) : py grid :=
  let '(z, x, y) := n in
  iz <- np_index (length b) z ;;
  plane <- getitem b z ;;
  ix <- np_index (length plane) x ;;
  row <- getitem plane x ;;
  iy <- np_index (length row) y ;;
  Ret (upd iz (upd ix (upd iy (fun _ => np_trunc val))) b).

(** [np.where(board == name, '__', board)]: a new array. *)
Definition np_where_eq (name : label) (b : grid) : grid :=
  map (map (map (fun c => if label_eqb c name then EMPTY else c))) b.

(** An instance of the class [circuit_board].  The array behind
    [self.board] is held by value here; the optimizer, which keeps a
    second reference to it, works on a store of arrays (see
    [opt_state]). *)
Record circuit_board : Type := {
  dimensions : Z * Z * Z;
  gates : dict key node;
  connections : list (key * key);
  board : grid;
  needs_connections : dict key Z;
  neighbor_of : dict node (list key);
  free_connectors : list node
}.

(* ================================================================= *)
(** ** a_star.py *)

(** [manhattan(start, end)] *)
Definition manhattan (start end_ : node) : Z :=
  let '(s0, s1, s2) := start in
  let '(e0, e1, e2) := end_ in
  Z.abs (e0 - s0) + Z.abs (e1 - s1) + Z.abs (e2 - s2).

(** [check_free_connector(c_board, connector_node)] *)
Fixpoint any_gate_done (needs : dict key Z) (gs : list key) : py bool :=
  match gs with
  | [] => Ret false
  | gate :: rest =>
      c <- dict_getitem needs gate ;;
      if c =? 0 then Ret true else any_gate_done needs rest
  end.

Definition check_free_connector (c_board : circuit_board) (connector_node : node)
  : py bool :=
  gs <- dict_getitem (neighbor_of c_board) connector_node ;;
  any_gate_done (needs_connections c_board) gs.

(** One of the six tests of [node_neighbors]: the bound check guards
    the look-up of the cell. *)
Definition probe (b : grid) (guard : bool) (cell : node) (neighbors : list node)
  : py (list node) :=
  if guard then
    c <- get_node b cell ;;
    Ret (if label_eqb c EMPTY then neighbors ++ [cell] else neighbors)
  else Ret neighbors.

(** The six directions, in the order of the source. *)
Definition vacant_six (c_board : circuit_board) (n : node) : py (list node) :=
  let b := board c_board in
  let '(bz, bx, by') := dimensions c_board in
  let '(nz, nx, ny) := n in
  l <- probe b (nz <? bz - 1) (nz + 1, nx, ny) [] ;;
  l <- probe b ((0 <? nz) && (nz <? bz)) (nz - 1, nx, ny) l ;;
  l <- probe b (nx <? bx - 1) (nz, nx + 1, ny) l ;;
  l <- probe b ((0 <? nx) && (nx <? bx)) (nz, nx - 1, ny) l ;;
  l <- probe b (ny <? by' - 1) (nz, nx, ny + 1) l ;;
  probe b ((0 <? ny) && (ny <? by')) (nz, nx, ny - 1) l.

(** The loop [for node in neighbors: ... neighbors.remove(node)]: the
    iterator holds a position [i] in the list it walks, and the list
    shrinks under it when an item is removed. *)
Fixpoint drop_busy_connectors (fuel : nat) (c_board : circuit_board)
  (neighbors : list node) (i : nat) : py (list node) :=
  match fuel with
  | O => OutOfFuel
  | S fuel' =>
      match nth_error neighbors i with
      | None => Ret neighbors
      | Some n =>
          if dict_mem (needs_connections c_board) (KNode n) then
            free <- check_free_connector c_board n ;;
            if free then drop_busy_connectors fuel' c_board neighbors (S i)
            else drop_busy_connectors fuel' c_board (list_remove n neighbors) (S i)
          else drop_busy_connectors fuel' c_board neighbors (S i)
      end
  end.

(** [node_neighbors(c_board, node)] *)
Definition node_neighbors (c_board : circuit_board) (n : node) : py (list node) :=
  neighbors <- vacant_six c_board n ;;
  drop_busy_connectors (S (length neighbors)) c_board neighbors 0.

(** [reconstruct_path(came_from, current)]; [total_path] is built by
    appending, from [current] back to the start. *)
Fixpoint reconstruct_loop (fuel : nat) (came_from : dict node node)
  (current : node) (total_path : list node) : py (list node) :=
  match fuel with
  | O => OutOfFuel
  | S fuel' =>
      match dict_get came_from current with
      | None => Ret total_path
      | Some prev => reconstruct_loop fuel' came_from prev (total_path ++ [prev])
      end
  end.

Definition reconstruct_path (came_from : dict node node) (current : node)
  : py (list node) :=
  reconstruct_loop (S (length came_from)) came_from current [current].

(** The local variables of [search]. *)
Record search_state : Type := {
  closed_set : list node;
  open_set : list node;
  came_from : dict node node;
  g_score : dict node Z;
  f_score : dict node Z
}.

(** [min(fscores, key=fscores.get)]: the first key, in the order of the
    dictionary, whose value no other key undercuts. *)
Fixpoint min_from (best : node) (best_val : Z) (d : dict node Z) : node :=
  match d with
  | [] => best
  | (k, v) :: rest =>
      if v <? best_val then min_from k v rest else min_from best best_val rest
  end.

Definition min_key (fscores : dict node Z) : py node :=
  match fscores with
  | [] => Raise ValueError
  | (k, v) :: rest => Ret (min_from k v rest)
  end.

(** The body of [for neighbor in node_neighbors(c_board, current)]. *)
Definition visit (goal current : node) (st : search_state) (neighbor : node)
  : py search_state :=
  if mem neighbor (closed_set st) then Ret st
  else
    let open' := if mem neighbor (open_set st) then open_set st
                 else set_add neighbor (open_set st) in
    let st1 := {| closed_set := closed_set st; open_set := open';
                  came_from := came_from st; g_score := g_score st;
                  f_score := f_score st |} in
    gc <- dict_getitem (g_score st1) current ;;
    let tent_gscore := gc + manhattan current neighbor in
    if tent_gscore >=? dict_get_default (g_score st1) neighbor 1000 then Ret st1
    else
      let g' := dict_set (g_score st1) neighbor tent_gscore in
      Ret {| closed_set := closed_set st1; open_set := open_set st1;
             came_from := dict_set (came_from st1) neighbor current;
             g_score := g';
             f_score := dict_set (f_score st1) neighbor
                          (tent_gscore + manhattan neighbor goal) |}.

Fixpoint visit_all (goal current : node) (st : search_state) (nbs : list node)
  : py search_state :=
  match nbs with
  | [] => Ret st
  | neighbor :: rest =>
      st' <- visit goal current st neighbor ;;
      visit_all goal current st' rest
  end.

(** What [search] hands back: a list of nodes, or [False]. *)
Inductive found : Type :=
| Path (p : list node)
| NoPath.

(** The [while open_set != set()] loop. *)
Fixpoint search_loop (fuel : nat) (goal : node) (c_board : circuit_board)
  (st : search_state) : py found :=
  match fuel with
  | O => OutOfFuel
  | S fuel' =>
      match open_set st with
      | [] => Ret NoPath
      | _ :: _ =>
          let fscores := filter (fun kv => mem (fst kv) (open_set st)) (f_score st) in
          current <- min_key fscores ;;
          if node_eqb current goal then
            p <- reconstruct_path (came_from st) current ;; Ret (Path p)
          else
            let st1 := {| closed_set := set_add current (closed_set st);
                          open_set := set_remove current (open_set st);
                          came_from := came_from st; g_score := g_score st;
                          f_score := f_score st |} in
            nbs <- node_neighbors c_board current ;;
            st2 <- visit_all goal current st1 nbs ;;
            search_loop fuel' goal c_board st2
      end
  end.

Definition search_init (start goal : node) : search_state :=
  {| closed_set := []; open_set := [start]; came_from := [];
     g_score := [(start, 0)]; f_score := [(start, manhattan start goal)] |}.

(** [search(start, goal, c_board)], run for at most [fuel] turns of its
    loop. *)
Definition search (fuel : nat) (start goal : node) (c_board : circuit_board)
  : py found :=
  search_loop fuel goal c_board (search_init start goal).

(* ================================================================= *)
(** ** circuit_board.py *)

Definition with_board (self : circuit_board) (b : grid) : circuit_board :=
  {| dimensions := dimensions self; gates := gates self;
     connections := connections self; board := b;
     needs_connections := needs_connections self;
     neighbor_of := neighbor_of self; free_connectors := free_connectors self |}.

Definition with_needs (self : circuit_board) (needs : dict key Z) : circuit_board :=
  {| dimensions := dimensions self; gates := gates self;
     connections := connections self; board := board self;
     needs_connections := needs;
     neighbor_of := neighbor_of self; free_connectors := free_connectors self |}.

Definition with_neighbor_of (self : circuit_board) (m : dict node (list key))
  : circuit_board :=
  {| dimensions := dimensions self; gates := gates self;
     connections := connections self; board := board self;
     needs_connections := needs_connections self;
     neighbor_of := m; free_connectors := free_connectors self |}.

Definition with_free_connectors (self : circuit_board) (s : list node)
  : circuit_board :=
  {| dimensions := dimensions self; gates := gates self;
     connections := connections self; board := board self;
     needs_connections := needs_connections self;
     neighbor_of := neighbor_of self; free_connectors := s |}.

(** [set_node(self, loc, val)] *)
Definition set_node (self : circuit_board) (loc : node) (val : label)
  : py circuit_board :=
  b <- set_cell (board self) loc val ;;
  Ret (with_board self b).

(** [d[k] += delta] *)
Definition dict_add (d : dict key Z) (k : key) (delta : Z) : py (dict key Z) :=
  c <- dict_getitem d k ;;
  Ret (dict_set d k (c + delta)).

(** [self.connections[i]] for an index taken from [range(len(...))] *)
Definition connection_at (self : circuit_board) (i : nat) : py (key * key) :=
  match nth_error (connections self) i with
  | Some c => Ret c
  | None => Raise IndexError
  end.

(** [delete_connection(self, i, name)] *)
Definition delete_connection (self : circuit_board) (i : nat) (name : label)
  : py circuit_board :=
  c <- connection_at self i ;;
  needs1 <- dict_add (needs_connections self) (fst c) 1 ;;
  c' <- connection_at self i ;;
  needs2 <- dict_add needs1 (snd c') 1 ;;
  Ret (with_board (with_needs self needs2) (np_where_eq name (board self))).

(** [gate_connectors(self, connections)] *)
Definition count_gate (counts : dict key Z) (n : key) : dict key Z :=
  match dict_get counts n with
  | Some c => dict_set counts n (c + 1)
  | None => dict_set counts n 1
  end.

Definition gate_connectors (conns : list (key * key)) : dict key Z :=
  fold_left (fun counts c => count_gate (count_gate counts (fst c)) (snd c))
            conns [].

(** The loop of [reset_board] that fills [neighbor_of]; [node_neighbors]
    is handed the object with the mapping built so far. *)
Definition register_neighbor (m : dict node (list key)) (gate : key)
  (neighbor : node) : dict node (list key) :=
  match dict_get m neighbor with
  | Some gs => dict_set m neighbor (gs ++ [gate])
  | None => dict_set m neighbor [gate]
  end.

Fixpoint fill_neighbor_of (self : circuit_board) (gs : dict key node)
  : py circuit_board :=
  match gs with
  | [] => Ret self
  | (gate, loc) :: rest =>
      nbs <- node_neighbors self loc ;;
      fill_neighbor_of
        (with_neighbor_of self
           (fold_left (fun m nb => register_neighbor m gate nb) nbs
                      (neighbor_of self)))
        rest
  end.

(** Lines 67-70.  [free_connectors] is a Python set: the list that
    stands for it has no duplicates, and its order, that of insertion,
    is of no account. *)
Fixpoint fill_free_connectors (self : circuit_board) (gs : dict key node)
  : py circuit_board :=
  match gs with
  | [] => Ret self
  | (gate, loc) :: rest =>
      nbs <- node_neighbors self loc ;;
      fill_free_connectors
        (with_free_connectors self
           (fold_left (fun s nb => set_add nb s) nbs (free_connectors self)))
        rest
  end.

Fixpoint place_gates (self : circuit_board) (gs : dict key node)
  : py circuit_board :=
  match gs with
  | [] => Ret self
  | (gate, loc) :: rest =>
      self' <- set_node self loc GATE ;;
      place_gates self' rest
  end.

(** [circuit_board(gates, connections, dimensions)]: [__init__] with
    the call of [reset_board] it makes. *)
Definition new_board (gs : dict key node) (conns : list (key * key))
  (dims : Z * Z * Z) : py circuit_board :=
  b <- np_full dims EMPTY ;;
  let self := {| dimensions := dims; gates := gs; connections := conns;
                 board := b; needs_connections := [];
                 neighbor_of := []; free_connectors := [] |} in
  self <- place_gates self gs ;;
  let self := with_needs self (gate_connectors conns) in
  let self := with_neighbor_of self [] in
  self <- fill_neighbor_of self gs ;;
  let self := with_free_connectors self [] in
  fill_free_connectors self gs.

(** The two tests of [connect_gates] on the result of one search. *)
Definition keep_shorter (best : list node) (path : found) : list node :=
  match path with
  | NoPath => best
  | Path p =>
      match best with
      | [] => p
      | _ :: _ => if (length p <? length best)%nat then p else best
      end
  end.

Fixpoint try_arrivals (fuel : nat) (self : circuit_board) (neighbor_1 : node)
  (n2 : list node) (best : list node) : py (list node) :=
  match n2 with
  | [] => Ret best
  | neighbor_2 :: rest =>
      path <- search fuel neighbor_1 neighbor_2 self ;;
      try_arrivals fuel self neighbor_1 rest (keep_shorter best path)
  end.

Fixpoint try_departures (fuel : nat) (self : circuit_board) (n1 n2 : list node)
  (best : list node) : py (list node) :=
  match n1 with
  | [] => Ret best
  | neighbor_1 :: rest =>
      best' <- try_arrivals fuel self neighbor_1 n2 best ;;
      try_departures fuel self rest n2 best'
  end.

(** [connect_gates(self, gates)]; every search it starts runs for at
    most [fuel] turns. *)
Definition connect_gates (fuel : nat) (self : circuit_board) (pair : key * key)
  : py (list node) :=
  loc1 <- dict_getitem (gates self) (fst pair) ;;
  n1 <- node_neighbors self loc1 ;;
  loc2 <- dict_getitem (gates self) (snd pair) ;;
  n2 <- node_neighbors self loc2 ;;
  try_departures fuel self n1 n2 [].

(* ----------------------------------------------------------------- *)
(** *** The optimizer [complete_board] *)

(** ["%02d" % x] *)
Definition digit (d : nat) : ascii := ascii_of_nat (48 + d).

Fixpoint decimal (fuel x : nat) (acc : string) : string :=
  match fuel with
  | O => acc
  | S fuel' =>
      let acc' := String (digit (x mod 10)) acc in
      if (x / 10 =? 0)%nat then acc' else decimal fuel' (x / 10) acc'
  end.

Definition fmt02 (x : nat) : string :=
  let s := decimal (S x) x EmptyString in
  if (String.length s <? 2)%nat then String "0"%char s else s.

(** [wire_names[i]], the list being [["%02d" % x for x in range(1, n + 1)]] *)
Definition wire_name (n i : nat) : py label :=
  if (i <? n)%nat then Ret (fmt02 (S i)) else Raise IndexError.

(** [sorted(dist_idx, key=itemgetter(1))]: stable, so that of two
    connections at the same distance the one of lower index comes first. *)
Fixpoint insert_by_distance (x : nat * nat) (l : list (nat * nat))
  : list (nat * nat) :=
  match l with
  | [] => [x]
  | y :: rest =>
      if (snd x <? snd y)%nat then x :: y :: rest
      else y :: insert_by_distance x rest
  end.

Definition sorted_by_distance (l : list (nat * nat)) : list (nat * nat) :=
  fold_left (fun acc x => insert_by_distance x acc) l [].

(** [random.sample(population, k)].  The generator is a stream of raw
    draws; each draw picks a position among the items not yet taken. *)
Fixpoint remove_nth {A : Type} (n : nat) (l : list A) : list A :=
  match l, n with
  | [], _ => []
  | _ :: rest, O => rest
  | a :: rest, S n' => a :: remove_nth n' rest
  end.

Fixpoint sample_loop {A : Type} (k : nat) (pool : list A) (rng : list nat)
  : list A * list nat :=
  match k with
  | O => ([], rng)
  | S k' =>
      let j := (hd O rng mod length pool)%nat in
      match nth_error pool j with
      | None => ([], rng)
      | Some x =>
          let '(xs, rng') := sample_loop k' (remove_nth j pool) (tl rng) in
          (x :: xs, rng')
      end
  end.

Definition random_sample {A : Type} (population : list A) (k : nat)
  (rng : list nat) : py (list A * list nat) :=
  if (length population <? k)%nat then Raise ValueError
  else Ret (sample_loop k population rng).

(** What [self.board] and [best_solution] may refer to: a numpy array,
    by its address in the store, or the list [ordering] that
    [best_solution] is initialised with. *)
Inductive pyobj : Type :=
| Array (addr : nat)
| IndexList (l : list nat).

(** The state [complete_board] works on: the store of arrays, the two
    attributes of [self] it assigns, and its local variables.
    [recorded] is not a variable of the program: it keeps the count and
    the cells of the grid as they were when lines 156-157 last ran, so
    that the snapshot can be spoken about. *)
Record opt_state : Type := {
  heap : list grid;
  self_board : pyobj;
  self_needs : dict key Z;
  ordering : list nat;
  iter : nat;
  best_solution : pyobj;
  best_score : nat;
  completed_previously : nat;
  completed_wires : list nat;
  rng : list nat;
  recorded : option (nat * grid)
}.

Definition set_store (st : opt_state) (h : list grid) (b : pyobj)
  (needs : dict key Z) : opt_state :=
  {| heap := h; self_board := b; self_needs := needs;
     ordering := ordering st; iter := iter st;
     best_solution := best_solution st; best_score := best_score st;
     completed_previously := completed_previously st;
     completed_wires := completed_wires st; rng := rng st;
     recorded := recorded st |}.

Definition set_completed_wires (st : opt_state) (l : list nat) : opt_state :=
  {| heap := heap st; self_board := self_board st; self_needs := self_needs st;
     ordering := ordering st; iter := iter st;
     best_solution := best_solution st; best_score := best_score st;
     completed_previously := completed_previously st;
     completed_wires := l; rng := rng st; recorded := recorded st |}.

Definition set_best (st : opt_state) (score : nat) (sol : pyobj)
  (ghost : option (nat * grid)) : opt_state :=
  {| heap := heap st; self_board := self_board st; self_needs := self_needs st;
     ordering := ordering st; iter := iter st;
     best_solution := sol; best_score := score;
     completed_previously := completed_previously st;
     completed_wires := completed_wires st; rng := rng st;
     recorded := ghost |}.

Definition set_completed_previously (st : opt_state) (n : nat) : opt_state :=
  {| heap := heap st; self_board := self_board st; self_needs := self_needs st;
     ordering := ordering st; iter := iter st;
     best_solution := best_solution st; best_score := best_score st;
     completed_previously := n;
     completed_wires := completed_wires st; rng := rng st;
     recorded := recorded st |}.

Definition set_attempt (st : opt_state) (order : list nat) (it : nat)
  (r : list nat) : opt_state :=
  {| heap := heap st; self_board := self_board st; self_needs := self_needs st;
     ordering := order; iter := it;
     best_solution := best_solution st; best_score := best_score st;
     completed_previously := completed_previously st;
     completed_wires := completed_wires st; rng := r;
     recorded := recorded st |}.

(** The array an object refers to. *)
Definition deref (h : list grid) (o : pyobj) : py grid :=
  match o with
  | Array a => Ret (nth a h [])
  | IndexList _ => Raise TypeError
  end.

(** The cells behind an object, when it is an array. *)
Definition cells_of (h : list grid) (o : pyobj) : option grid :=
  match o with
  | Array a => Some (nth a h [])
  | IndexList _ => None
  end.

(** [self] as the pathfinder sees it: the fixed attributes of the
    object together with the current array and counters. *)
Definition self_object (env : circuit_board) (st : opt_state) : py circuit_board :=
  b <- deref (heap st) (self_board st) ;;
  Ret (with_board (with_needs env (self_needs st)) b).

(** [self.set_node(node, name)] writes into the array [self.board]
    refers to; every other reference to that array sees the write. *)
Definition store_set_node (env : circuit_board) (st : opt_state) (loc : node)
  (val : label) : py opt_state :=
  self <- self_object env st ;;
  self' <- set_node self loc val ;;
  match self_board st with
  | Array a =>
      Ret (set_store st (upd a (fun _ => board self') (heap st))
                     (self_board st) (self_needs st))
  | IndexList _ => Raise TypeError
  end.

(** [self.delete_connection(j, name)] binds [self.board] to the new
    array [np.where] returns; the old array stays as it is. *)
Definition store_delete_connection (env : circuit_board) (st : opt_state)
  (j : nat) (name : label) : py opt_state :=
  self <- self_object env st ;;
  self' <- delete_connection self j name ;;
  Ret (set_store st (heap st ++ [board self']) (Array (length (heap st)))
                 (needs_connections self')).

(** [for node in path: self.set_node(node, name)] *)
Fixpoint paint (env : circuit_board) (st : opt_state) (path : list node)
  (name : label) : py opt_state :=
  match path with
  | [] => Ret st
  | nd :: rest =>
      st' <- store_set_node env st nd name ;;
      paint env st' rest name
  end.

(** Lines 148-150: the connection is marked as routed and both its
    gates need one connection less. *)
Definition mark_routed (st : opt_state) (i : nat) (c : key * key)
  : py opt_state :=
  needs1 <- dict_add (self_needs st) (fst c) (-1) ;;
  needs2 <- dict_add needs1 (snd c) (-1) ;;
  Ret (set_store (set_completed_wires st (completed_wires st ++ [i]))
                 (heap st) (self_board st) needs2).

(** Lines 147-153, what is done with the path found for connection [i]. *)
Definition lay_path (env : circuit_board) (st : opt_state) (i : nat)
  (c : key * key) (path : list node) : py opt_state :=
  st1 <- (if (0 <? length path)%nat then mark_routed st i c else Ret st) ;;
  name <- wire_name (length (connections env)) i ;;
  paint env st1 path name.

(** The body of [for i in ordering] (lines 144-153). *)
Definition route_one (fuel : nat) (env : circuit_board) (st : opt_state) (i : nat)
  : py opt_state :=
  if mem i (completed_wires st) then Ret st
  else
    self <- self_object env st ;;
    c <- connection_at self i ;;
    path <- connect_gates fuel self c ;;
    lay_path env st i c path.

Fixpoint routing_pass (fuel : nat) (env : circuit_board) (st : opt_state)
  (order : list nat) : py opt_state :=
  match order with
  | [] => Ret st
  | i :: rest =>
      st' <- route_one fuel env st i ;;
      routing_pass fuel env st' rest
  end.

(** Lines 155-158. *)
Definition save_improvement (st : opt_state) : opt_state :=
  if (best_score st <? length (completed_wires st))%nat then
    set_best st (length (completed_wires st)) (self_board st)
             (option_map (fun b => (length (completed_wires st), b))
                         (cells_of (heap st) (self_board st)))
  else st.

(** [self.delete_connection(j, wire_names[j]); completed_wires.remove(j)] *)
Definition undo_one (env : circuit_board) (st : opt_state) (j : nat)
  : py opt_state :=
  name <- wire_name (length (connections env)) j ;;
  st' <- store_delete_connection env st j name ;;
  Ret (set_completed_wires st' (list_remove j (completed_wires st'))).

Fixpoint undo_all (env : circuit_board) (st : opt_state) (to_delete : list nat)
  : py opt_state :=
  match to_delete with
  | [] => Ret st
  | j :: rest =>
      st' <- undo_one env st j ;;
      undo_all env st' rest
  end.

Definition max_iters : nat := 1000.
Definition v_opt : nat := 2.

(** Lines 166-173. *)
Definition perturb (env : circuit_board) (st : opt_state) : py opt_state :=
  '(to_delete, r1) <- random_sample (completed_wires st) v_opt (rng st) ;;
  st1 <- undo_all env st to_delete ;;
  '(order, r2) <- random_sample (ordering st1) (length (ordering st1)) r1 ;;
  Ret (set_attempt st1 order (S (iter st1)) r2).

(** How one turn of the [while] loop ends. *)
Inductive flow : Type :=
| Continue (st : opt_state)
| Break (st : opt_state).

(** Lines 142-174. *)
Definition loop_body (fuel : nat) (env : circuit_board) (st : opt_state)
  : py flow :=
  st1 <- routing_pass fuel env st (ordering st) ;;
  let st2 := save_improvement st1 in
  if (length (completed_wires st2) =? completed_previously st2)%nat then
    if (iter st2 =? max_iters)%nat then Ret (Break st2)
    else
      st3 <- perturb env st2 ;;
      Ret (Continue (set_completed_previously st3 (length (completed_wires st3))))
  else
    Ret (Continue (set_completed_previously st2 (length (completed_wires st2)))).

(** [required_connections - len(completed_wires) > 0] *)
Definition pending (env : circuit_board) (st : opt_state) : bool :=
  0 <? Z.of_nat (length (connections env)) - Z.of_nat (length (completed_wires st)).

(** The [while] loop. *)
Fixpoint main_loop (turns fuel : nat) (env : circuit_board) (st : opt_state)
  : py opt_state :=
  match turns with
  | O => OutOfFuel
  | S turns' =>
      if pending env st then
        r <- loop_body fuel env st ;;
        match r with
        | Break st' => Ret st'
        | Continue st' => main_loop turns' fuel env st'
        end
      else Ret st
  end.

(** Lines 124-139. *)
Fixpoint distances (fuel : nat) (self : circuit_board) (conns : list (key * key))
  : py (list nat) :=
  match conns with
  | [] => Ret []
  | c :: rest =>
      p <- connect_gates fuel self c ;;
      ds <- distances fuel self rest ;;
      Ret (length p :: ds)
  end.

Definition initial_state (fuel : nat) (self : circuit_board) (r : list nat)
  : py opt_state :=
  let indexes := seq 0 (length (connections self)) in
  ds <- distances fuel self (connections self) ;;
  let order := map fst (sorted_by_distance (combine indexes ds)) in
  Ret {| heap := [board self]; self_board := Array 0;
         self_needs := needs_connections self;
         ordering := order; iter := 0;
         best_solution := IndexList order; best_score := 0;
         completed_previously := 0; completed_wires := [];
         rng := r; recorded := None |}.

(** [complete_board(self)]: the loop runs for at most [turns] turns,
    each search for at most [fuel]; [r] are the draws of the random
    generator. *)
Definition complete_board (turns fuel : nat) (self : circuit_board) (r : list nat)
  : py opt_state :=
  st0 <- initial_state fuel self r ;;
  st <- main_loop turns fuel self st0 ;;
  Ret (set_store st (heap st) (best_solution st) (self_needs st)).

(* ----------------------------------------------------------------- *)
(** *** Writing the solution *)

Definition newline : string := String (ascii_of_nat 10) EmptyString.

(** ['### Layer ' + str(z) + ' ###\n'] *)
Definition layer_line (z : nat) : string :=
  ("### Layer " ++ decimal (S z) z EmptyString ++ " ###" ++ newline)%string.

(** [" ".join(item for item in row) + '\n'] *)
Definition row_line (row : list label) : string :=
  (String.concat " " row ++ newline)%string.

(** The strings handed to [f.write] for the layers of an array, [z]
    being the number of the first of them. *)
Fixpoint layer_writes (z : nat) (layers : grid) : list string :=
  match layers with
  | [] => []
  | layer :: rest =>
      (layer_line z :: map row_line layer) ++ layer_writes (S z) rest
  end.

(** [output_solution(self, new_file)], the file taken to open: the
    strings written, in order, and how the call ends.  When
    [self.board] is a list of numbers the first number is taken for a
    layer: its heading is written, and the loop over its rows raises. *)
Definition output_solution (h : list grid) (b : pyobj)
  : list string * py unit :=
  match b with
  | Array a => (layer_writes 1 (nth a h []), Ret tt)
  | IndexList [] => ([], Ret tt)
  | IndexList (_ :: _) => ([layer_line 1], Raise TypeError)
  end.

(** The text of the file after the writes. *)
Definition file_text (writes : list string) : string :=
  String.concat "" writes.

(* ================================================================= *)
(** ** read_board.py *)

Module read_board.

(** What [cell.value] may be: [None], a text or a whole number. *)
Inductive cell_value : Type :=
| Blank
| Text (s : string)
| Number (n : Z).

Definition value_eqb (a b : cell_value) : bool :=
  match a, b with
  | Blank, Blank => true
  | Text s, Text t => String.eqb s t
  | Number n, Number m => n =? m
  | _, _ => false
  end.

Lemma value_eqb_eq (a b : cell_value) : value_eqb a b = true <-> a = b.
Proof.
  destruct a, b; simpl; try (split; [discriminate|congruence]).
  - tauto.
  - rewrite String.eqb_eq. split; congruence.
  - rewrite Z.eqb_eq. split; congruence.
Qed.

#[global] Instance Eqb_cell_value : Eqb cell_value :=
  {| eqb := value_eqb; eqb_eq := value_eqb_eq |}.

(** A row of the worksheet, by the values of its cells. *)
Definition row : Type := list cell_value.

(** The local variables of [process_file]. *)
Record reader : Type := {
  read_gate : bool;
  read_netlist : bool;
  gate_dict : dict cell_value (Z * cell_value * cell_value);
  netlists : list (list (cell_value * cell_value));
  connections : list (cell_value * cell_value)
}.

(** How the part of the loop body run so far has ended: with
    [continue], or by going on to the next statement. *)
Inductive turn : Type :=
| Skip (st : reader)
| Go (st : reader).

(** Lines 30-36. *)
Definition gate_part (st : reader) (r : row) : py turn :=
  if read_gate st then
    c0 <- getitem r 0 ;;
    if eqb c0 Blank then
      Ret (Skip {| read_gate := false; read_netlist := read_netlist st;
                   gate_dict := gate_dict st; netlists := netlists st;
                   connections := connections st |})
    else
      c1 <- getitem r 1 ;;
      c2 <- getitem r 2 ;;
      k <- getitem r 0 ;;
      Ret (Go {| read_gate := read_gate st; read_netlist := read_netlist st;
                 gate_dict := dict_set (gate_dict st) k (0, c1, c2);
                 netlists := netlists st; connections := connections st |})
  else Ret (Go st).

(** Lines 38-43; [is_last] tells whether the row is
    [list(ws.rows)[ws.max_row - 1]]. *)
Definition netlist_part (st : reader) (r : row) (is_last : bool) : py turn :=
  if read_netlist st then
    c0 <- getitem r 0 ;;
    if eqb c0 Blank || is_last then
      Ret (Skip {| read_gate := read_gate st; read_netlist := false;
                   gate_dict := gate_dict st;
                   netlists := netlists st ++ [connections st];
                   connections := connections st |})
    else
      a <- getitem r 0 ;;
      b <- getitem r 1 ;;
      Ret (Go {| read_gate := read_gate st; read_netlist := read_netlist st;
                 gate_dict := gate_dict st; netlists := netlists st;
                 connections := connections st ++ [(a, b)] |})
  else Ret (Go st).

(** Lines 45-49. *)
Definition heading_part (st : reader) (r : row) : py reader :=
  c0 <- getitem r 0 ;;
  let st1 :=
    if eqb c0 (Text "Gate number") then
      {| read_gate := true; read_netlist := read_netlist st;
         gate_dict := gate_dict st; netlists := netlists st;
         connections := connections st |}
    else st in
  c0 <- getitem r 0 ;;
  Ret (if eqb c0 (Text "First gate number") then
         {| read_gate := read_gate st1; read_netlist := true;
            gate_dict := gate_dict st1; netlists := netlists st1;
            connections := [] |}
       else st1).

(** The body of [for row in ws.rows]. *)
Definition read_row (st : reader) (r : row) (is_last : bool) : py reader :=
  t <- gate_part st r ;;
  match t with
  | Skip st1 => Ret st1
  | Go st1 =>
      t <- netlist_part st1 r is_last ;;
      match t with
      | Skip st2 => Ret st2
      | Go st2 => heading_part st2 r
      end
  end.

Fixpoint read_rows (st : reader) (rows : list row) : py reader :=
  match rows with
  | [] => Ret st
  | r :: rest =>
      st' <- read_row st r (match rest with [] => true | _ :: _ => false end) ;;
      read_rows st' rest
  end.

(** [process_file(filename)], given the rows of the active worksheet
    of the file. *)
Definition process_file (rows : list row)
  : py (dict cell_value (Z * cell_value * cell_value)
        * list (list (cell_value * cell_value))) :=
  st <- read_rows {| read_gate := false; read_netlist := false;
                     gate_dict := []; netlists := []; connections := [] |}
                  rows ;;
  Ret (gate_dict st, netlists st).

End read_board.

(* ================================================================= *)
(** ** The vocabulary of the properties

    Boards and states used as examples, and the predicates the
    theorems below are stated with. *)

(** Two gates on one layer with a single free cell between them, and
    the one net that joins them. *)
Definition facing_gates : circuit_board :=
  {| dimensions := (1, 3, 5);
     gates := [(KInt 1, (0, 1, 1)); (KInt 2, (0, 1, 3))];
     connections := [(KInt 1, KInt 2)];
     board := [[[EMPTY; EMPTY; EMPTY; EMPTY; EMPTY];
                [EMPTY; GATE; EMPTY; GATE; EMPTY];
                [EMPTY; EMPTY; EMPTY; EMPTY; EMPTY]]];
     needs_connections := [(KInt 1, 1); (KInt 2, 1)];
     neighbor_of :=
       [((0, 2, 1), [KInt 1]); ((0, 0, 1), [KInt 1]);
        ((0, 1, 2), [KInt 1; KInt 2]); ((0, 1, 0), [KInt 1]);
        ((0, 2, 3), [KInt 2]); ((0, 0, 3), [KInt 2]); ((0, 1, 4), [KInt 2])];
     free_connectors :=
       [(0, 2, 1); (0, 0, 1); (0, 1, 2); (0, 1, 0);
        (0, 2, 3); (0, 0, 3); (0, 1, 4)] |}.

(** A board without gates: one row of 1002 empty cells. *)
Definition corridor : circuit_board :=
  {| dimensions := (1, 1, 1002); gates := []; connections := [];
     board := [[repeat EMPTY 1002]];
     needs_connections := []; neighbor_of := []; free_connectors := [] |}.

(** Gate identifiers that are numbers or text are never equal to a
    coordinate. *)
Definition plain_key (k : key) : Prop :=
  match k with KNode _ => False | _ => True end.

(** Exactly one axis differs, and it differs by one unit. *)
Definition unit_step (a b : node) : Prop :=
  let '(az, ax, ay) := a in
  let '(bz, bx, by') := b in
  (Z.abs (bz - az) = 1 /\ bx = ax /\ by' = ay)
  \/ (bz = az /\ Z.abs (bx - ax) = 1 /\ by' = ay)
  \/ (bz = az /\ bx = ax /\ Z.abs (by' - ay) = 1).

(** Consecutive coordinates of a sequence are one unit step apart. *)
Definition contiguous (p : list node) : Prop :=
  forall i a b,
    nth_error p i = Some a -> nth_error p (S i) = Some b -> unit_step a b.

(** [n] is among the neighbors enumerated for [c]. *)
Definition edge (c_board : circuit_board) (c n : node) : Prop :=
  exists l, node_neighbors c_board c = Ret l /\ In n l.

(** [b] can be reached from [a] by moving from a cell to one of its
    enumerated neighbors, any number of times. *)
Inductive reaches (c_board : circuit_board) (a : node) : node -> Prop :=
| reaches_here : reaches c_board a a
| reaches_next b c : reaches c_board a b -> edge c_board b c -> reaches c_board a c.

(** The back-pointers followed from a node until one without. *)
Inductive chain (cf : dict node node) : node -> list node -> Prop :=
| chain_end n : dict_get cf n = None -> chain cf n [n]
| chain_link n c rest :
    dict_get cf n = Some c -> chain cf c rest -> chain cf n (n :: rest).

(** What the loop of [search] keeps true from its second turn on. *)
Record search_inv (c_board : circuit_board) (start : node) (st : search_state)
  : Prop := {
  inv_links : forall n c,
    dict_get (came_from st) n = Some c ->
    edge c_board c n /\ (c = start \/ dict_mem (came_from st) c = true);
  inv_start : dict_get (came_from st) start = None;
  inv_start_closed : In start (closed_set st);
  inv_scored : forall n,
    dict_mem (f_score st) n = true ->
    n = start \/ dict_mem (came_from st) n = true
}.

(** A gate between the two ends of a row of three cells. *)
Definition walled_row : circuit_board :=
  {| dimensions := (1, 1, 3); gates := [(KInt 1, (0, 0, 1))]; connections := [];
     board := [[[EMPTY; GATE; EMPTY]]];
     needs_connections := []; neighbor_of := [((0, 0, 2), [KInt 1]); ((0, 0, 0), [KInt 1])];
     free_connectors := [(0, 0, 2); (0, 0, 0)] |}.

(** A coordinate of the grid. *)
Definition in_bounds (dims : Z * Z * Z) (n : node) : Prop :=
  let '(bz, bx, by') := dims in
  let '(nz, nx, ny) := n in
  0 <= nz < bz /\ 0 <= nx < bx /\ 0 <= ny < by'.

(** All the coordinates of a grid of the given dimensions. *)
Definition all_nodes (dims : Z * Z * Z) : list node :=
  let '(bz, bx, by') := dims in
  flat_map (fun z =>
    flat_map (fun x =>
      map (fun y => (Z.of_nat z, Z.of_nat x, Z.of_nat y))
          (seq 0 (Z.to_nat by')))
      (seq 0 (Z.to_nat bx)))
    (seq 0 (Z.to_nat bz)).

(** The sets of the search hold coordinates of the grid, no node is in
    both, and every node with a score can be reached from the start. *)
Record bounded_inv (c_board : circuit_board) (start : node) (st : search_state)
  : Prop := {
  bi_nodup : NoDup (closed_set st);
  bi_closed : forall n, In n (closed_set st) -> in_bounds (dimensions c_board) n;
  bi_open : forall n, In n (open_set st) -> in_bounds (dimensions c_board) n;
  bi_apart : forall n, In n (open_set st) -> ~ In n (closed_set st);
  bi_reached : forall n, dict_mem (f_score st) n = true -> reaches c_board start n
}.

(** The searches of [connect_gates], one combination after the other. *)
Fixpoint try_combinations (fuel : nat) (self : circuit_board)
  (combos : list (node * node)) (best : list node) : py (list node) :=
  match combos with
  | [] => Ret best
  | (a, b) :: rest =>
      path <- search fuel a b self ;;
      try_combinations fuel self rest (keep_shorter best path)
  end.

(** [best] is the shortest of the paths found over the combinations
    [combos], and the first of that length; it is empty when no
    combination gave a path. *)
Definition first_shortest (fuel : nat) (self : circuit_board)
  (combos : list (node * node)) (best : list node) : Prop :=
  (best = []
   /\ forall a b, In (a, b) combos -> search fuel a b self = Ret NoPath)
  \/ (exists k a b,
        nth_error combos k = Some (a, b)
        /\ search fuel a b self = Ret (Path best)
        /\ forall j a' b' q,
             nth_error combos j = Some (a', b') ->
             search fuel a' b' self = Ret (Path q) ->
             (length best <= length q)%nat
             /\ ((j < k)%nat -> (length best < length q)%nat)).

(** [for node in path: set_node(node, name)] on the cells alone. *)
Fixpoint paint_cells (b : grid) (path : list node) (name : label) : py grid :=
  match path with
  | [] => Ret b
  | nd :: rest =>
      b' <- set_cell b nd name ;;
      paint_cells b' rest name
  end.

(** No cell of the grid carries the label. *)
Definition label_free (name : label) (b : grid) : Prop :=
  Forall (Forall (Forall (fun c => c <> name))) b.

(** What [np.where(board == name, '__', board)] makes of one cell. *)
Definition relabel (name : label) (c : label) : label :=
  if label_eqb c name then EMPTY else c.

(** The state [complete_board] starts from on the board [facing_gates]. *)
Definition facing_start : opt_state :=
  {| heap := [board facing_gates]; self_board := Array 0;
     self_needs := [(KInt 1, 1); (KInt 2, 1)];
     ordering := [0%nat]; iter := 0;
     best_solution := IndexList [0%nat]; best_score := 0;
     completed_previously := 0; completed_wires := [];
     rng := []; recorded := None |}.

(** How many ends of the connection [c] are at the gate [g]. *)
Definition incidence (c : key * key) (g : key) : Z :=
  (if key_eqb (fst c) g then 1 else 0) + (if key_eqb (snd c) g then 1 else 0).

(** The required degree of a gate: its total count in the connection
    list. *)
Fixpoint degree (conns : list (key * key)) (g : key) : Z :=
  match conns with
  | [] => 0
  | c :: rest => incidence c g + degree rest g
  end.

(** The ends at [g] of the connections that are routed; [k] is the
    index of the first connection of [conns]. *)
Fixpoint routed_ends (k : nat) (conns : list (key * key)) (completed : list nat)
  (g : key) : Z :=
  match conns with
  | [] => 0
  | c :: rest =>
      (if mem k completed then incidence c g else 0)
      + routed_ends (S k) rest completed g
  end.

(** The number of routed connections that have an end at [g]. *)
Fixpoint routed_nets (k : nat) (conns : list (key * key)) (completed : list nat)
  (g : key) : nat :=
  match conns with
  | [] => O
  | c :: rest =>
      ((if mem k completed && (key_eqb (fst c) g || key_eqb (snd c) g)
        then 1 else 0)
       + routed_nets (S k) rest completed g)%nat
  end.

(** The counters agree with the routed connections. *)
Record counters_ok (env : circuit_board) (st : opt_state) : Prop := {
  ok_counts : forall g v,
    dict_get (self_needs st) g = Some v ->
    v = degree (connections env) g
        - routed_ends 0 (connections env) (completed_wires st) g;
  ok_keys : forall g,
    0 < degree (connections env) g -> dict_mem (self_needs st) g = true;
  ok_nodup : NoDup (completed_wires st);
  ok_range : forall i,
    In i (completed_wires st) -> (i < length (connections env))%nat
}.

(** A count, absent while it is zero, after [d] more occurrences. *)
Definition tally (x : option Z) (d : Z) : option Z :=
  match x with
  | Some v => Some (v + d)
  | None => if d =? 0 then None else Some d
  end.

(** The states in which a turn of the [while] loop starts, in a run
    from [st0]. *)
Inductive pass_head (fuel : nat) (env : circuit_board) (st0 : opt_state)
  : opt_state -> Prop :=
| head_first : pass_head fuel env st0 st0
| head_next s s' :
    pass_head fuel env st0 s ->
    pending env s = true ->
    loop_body fuel env s = Ret (Continue s') ->
    pass_head fuel env st0 s'.

(** The state after the first turn of the loop on [facing_gates]: the
    one net is routed through the cell between the gates. *)
Definition facing_routed : opt_state :=
  {| heap := [[[[EMPTY; EMPTY; EMPTY; EMPTY; EMPTY];
                [EMPTY; GATE; "01"%string; GATE; EMPTY];
                [EMPTY; EMPTY; EMPTY; EMPTY; EMPTY]]]];
     self_board := Array 0;
     self_needs := [(KInt 1, 0); (KInt 2, 0)];
     ordering := [0%nat]; iter := 0;
     best_solution := Array 0; best_score := 1;
     completed_previously := 1; completed_wires := [0%nat];
     rng := [];
     recorded := Some (1%nat, [[[EMPTY; EMPTY; EMPTY; EMPTY; EMPTY];
                                [EMPTY; GATE; "01"%string; GATE; EMPTY];
                                [EMPTY; EMPTY; EMPTY; EMPTY; EMPTY]]]) |}.

(** The variables a routing pass does not assign. *)
Record same_locals (st st' : opt_state) : Prop := {
  sl_board : self_board st' = self_board st;
  sl_ordering : ordering st' = ordering st;
  sl_iter : iter st' = iter st;
  sl_best_solution : best_solution st' = best_solution st;
  sl_best_score : best_score st' = best_score st;
  sl_previously : completed_previously st' = completed_previously st;
  sl_rng : rng st' = rng st;
  sl_recorded : recorded st' = recorded st
}.

(** What a routing pass does to the store: it writes into the array
    [self.board] refers to and into no other, and it writes only when
    it routes a connection. *)
Record pass_store (st st' : opt_state) : Prop := {
  ps_length : length (heap st') = length (heap st);
  ps_others : forall a b,
    self_board st = Array a -> b <> a -> nth b (heap st') [] = nth b (heap st) [];
  ps_grows : (length (completed_wires st) <= length (completed_wires st'))%nat;
  ps_idle :
    length (completed_wires st') = length (completed_wires st) ->
    heap st' = heap st
}.

(** A board on which the two gates take all the cells. *)
Definition boxed_gates : circuit_board :=
  {| dimensions := (1, 1, 2);
     gates := [(KInt 1, (0, 0, 0)); (KInt 2, (0, 0, 1))];
     connections := [(KInt 1, KInt 2)];
     board := [[[GATE; GATE]]];
     needs_connections := [(KInt 1, 1); (KInt 2, 1)];
     neighbor_of := []; free_connectors := [] |}.

(** The state [complete_board] starts from on the board [boxed_gates]. *)
Definition boxed_start : opt_state :=
  {| heap := [board boxed_gates]; self_board := Array 0;
     self_needs := [(KInt 1, 1); (KInt 2, 1)];
     ordering := [0%nat]; iter := 0;
     best_solution := IndexList [0%nat]; best_score := 0;
     completed_previously := 0; completed_wires := [];
     rng := []; recorded := None |}.

(** What holds of the store whenever a turn of the loop starts or ends:
    [self.board] refers to an array; [best_solution] is still the
    initial list as long as nothing was recorded; after that it refers
    to an array whose cells are those recorded, and when it is the very
    array [self.board] refers to, no connection was routed since. *)
Record store_ok (st : opt_state) : Prop := {
  so_board : exists a, self_board st = Array a /\ (a < length (heap st))%nat;
  so_score : (length (completed_wires st) <= best_score st)%nat;
  so_best :
    match best_solution st with
    | IndexList _ => recorded st = None
    | Array b =>
        (b < length (heap st))%nat
        /\ recorded st = Some (best_score st, nth b (heap st) [])
        /\ (self_board st = Array b ->
            best_score st = length (completed_wires st))
    end
}.

(** The [k]-th coordinate of the line that leaves [start] in the
    direction [dir]. *)
Definition point (start dir : node) (k : Z) : node :=
  let '(sz, sx, sy) := start in
  let '(dz, dx, dy) := dir in
  (sz + k * dz, sx + k * dx, sy + k * dy).

(** Scores along the back-pointers of [search]: every recorded cost is
    below the 1000 of line 49, and a node costs more than the node it
    was reached from. *)
Record score_inv (st : search_state) : Prop := {
  sc_range : forall n v, dict_get (g_score st) n = Some v -> 0 <= v < 1000;
  sc_links : forall n c,
    dict_get (came_from st) n = Some c ->
    exists vn vc,
      dict_get (g_score st) n = Some vn
      /\ dict_get (g_score st) c = Some vc
      /\ vc < vn
}.

(** No number of the triple is negative: as a coordinate it does not
    count from the back, and as dimensions [np.full] accepts it. *)
Definition from_front (n : Z * Z * Z) : Prop :=
  let '(nz, nx, ny) := n in 0 <= nz /\ 0 <= nx /\ 0 <= ny.

(** [n] indexes a cell of an array of the given dimensions, from the
    front or, with a negative number, from the back. *)
Definition wraps (dims : Z * Z * Z) (n : node) : Prop :=
  let '(bz, bx, by') := dims in
  let '(nz, nx, ny) := n in
  - bz <= nz < bz /\ - bx <= nx < bx /\ - by' <= ny < by'.

(** The grid has the shape the dimensions give. *)
Definition shaped (dims : Z * Z * Z) (b : grid) : Prop :=
  let '(bz, bx, by') := dims in
  length b = Z.to_nat bz
  /\ Forall (fun plane =>
       length plane = Z.to_nat bx
       /\ Forall (fun row => length row = Z.to_nat by') plane) b.

(** Some gate is at the coordinate [n]. *)
Definition gate_at (gs : dict key node) (n : node) : bool :=
  existsb (fun kv => node_eqb (snd kv) n) gs.

(** The variables that neither a routing pass nor an undo assigns. *)
Record plan_kept (st st' : opt_state) : Prop := {
  pk_ordering : ordering st' = ordering st;
  pk_iter : iter st' = iter st;
  pk_best_solution : best_solution st' = best_solution st;
  pk_best_score : best_score st' = best_score st;
  pk_previously : completed_previously st' = completed_previously st
}.

(** The list holds each index below [n] once, and nothing else. *)
Definition each_once (n : nat) (order : list nat) : Prop :=
  NoDup order /\ forall i, In i order <-> (i < n)%nat.

(** What the turns of the [while] loop keep true of the plan: the
    iteration count stays within its cap, the ordering lists every
    connection once, and as long as [best_solution] is the list it was
    initialised with, nothing was routed and nothing perturbed. *)
Record progress_ok (env : circuit_board) (st : opt_state) : Prop := {
  po_iter : (iter st <= max_iters)%nat;
  po_order : each_once (length (connections env)) (ordering st);
  po_fresh :
    match best_solution st with
    | Array _ => True
    | IndexList _ =>
        best_score st = O /\ iter st = O /\ completed_previously st = O
    end
}.

(** An (index, distance) pair goes before another in the sorted list:
    its distance is the smaller one, or the two distances are the same
    and its index is the smaller one. *)
Definition pair_before (y z : nat * nat) : Prop :=
  (snd y < snd z)%nat \/ (snd y = snd z /\ (fst y < fst z)%nat).

(** The same for two connections, by their indexes, given the list of
    the distances. *)
Definition goes_before (ds : list nat) (a b : nat) : Prop :=
  pair_before (a, nth a ds O) (b, nth b ds O).

(** The sum of the counts of a dictionary. *)
Definition total (d : dict key Z) : Z :=
  fold_right (fun kv s => snd kv + s) 0 d.

(** The labels of two wires are told apart, and fit a cell. *)
Definition wire_labels_apart (i j : nat) : bool :=
  let a := fmt02 (S i) in
  let b := fmt02 (S j) in
  (String.length a =? 2)%nat
  && negb (String.eqb a EMPTY) && negb (String.eqb a GATE)
  && String.eqb (np_trunc a) a
  && (negb (String.eqb a b) || (i =? j)%nat).

(** The label of the wire, cut to a cell, is that of an earlier wire. *)
Definition wire_label_taken (i : nat) : bool :=
  let a := fmt02 (S i) in
  String.eqb (np_trunc a) (fmt02 (S (S i / 10 - 1)))
  && negb (String.eqb (np_trunc a) a).

(** The lines of the file without their line breaks: the heading of
    a layer and the rows of the layers. *)
Definition layer_body (z : nat) : string :=
  ("### Layer " ++ decimal (S z) z EmptyString ++ " ###")%string.

Fixpoint layer_bodies (z : nat) (layers : grid) : list string :=
  match layers with
  | [] => []
  | layer :: rest =>
      (layer_body z :: map (String.concat " ") layer)
      ++ layer_bodies (S z) rest
  end.

(** Reading the file back.  [split_on sep s] is [s.split(sep)] for a
    separator of one character. *)
Fixpoint split_on (sep : ascii) (s : string) : list string :=
  match s with
  | EmptyString => [EmptyString]
  | String c rest =>
      if Ascii.eqb c sep then EmptyString :: split_on sep rest
      else match split_on sep rest with
           | [] => [String c EmptyString]
           | w :: ws => String c w :: ws
           end
  end.

(** The character does not occur in the string. *)
Fixpoint lacks (c : ascii) (s : string) : bool :=
  match s with
  | EmptyString => true
  | String c' rest => negb (Ascii.eqb c' c) && lacks c rest
  end.

(** The lines of a file are sorted into layers: a heading opens a
    layer, and every other line is a row of the layer last opened.
    The first component holds the rows met before any heading. *)
Fixpoint read_layers (lines : list string) : list (list label) * grid :=
  match lines with
  | [] => ([], [])
  | l :: rest =>
      let '(rows, layers) := read_layers rest in
      if String.prefix "### Layer " l then ([], rows :: layers)
      else (split_on " " l :: rows, layers)
  end.

(** The grid a file holds: its text is cut into lines, what follows
    the last line break is dropped, and the lines are sorted into
    layers. *)
Definition read_back (text : string) : grid :=
  snd (read_layers (removelast (split_on (ascii_of_nat 10) text))).

(** What a cell of the array may hold for the file to be readable: at
    most two characters, none of them a space or a line break. *)
Definition cell_text (c : label) : Prop :=
  (String.length c <= 2)%nat
  /\ lacks " " c = true /\ lacks (ascii_of_nat 10) c = true.

(** The two texts [process_file] looks for in the first cell of a
    row. *)
Definition is_heading (c : read_board.cell_value) : bool :=
  eqb c (read_board.Text "Gate number")
  || eqb c (read_board.Text "First gate number").

(** The rows of a worksheet of three columns. *)
Definition gate_row
  (g : read_board.cell_value * (read_board.cell_value * read_board.cell_value))
  : read_board.row :=
  [fst g; fst (snd g); snd (snd g)].

Definition connection_row
  (c : read_board.cell_value * read_board.cell_value) : read_board.row :=
  [fst c; snd c; read_board.Blank].

Definition empty_row : read_board.row :=
  [read_board.Blank; read_board.Blank; read_board.Blank].

Definition gates_heading : read_board.row :=
  [read_board.Text "Gate number"; read_board.Text "x"; read_board.Text "y"].

Definition netlist_heading : read_board.row :=
  [read_board.Text "First gate number"; read_board.Text "Second gate number";
   read_board.Blank].

(** A net list that an empty row closes. *)
Definition netlist_block
  (cs : list (read_board.cell_value * read_board.cell_value))
  : list read_board.row :=
  netlist_heading :: map connection_row cs ++ [empty_row].

(** A worksheet laid out as [process_file] expects: rows of no
    concern, the heading of the gates, a row for each gate, an empty
    row, and then for each net list its heading and a row for each
    connection.  An empty row closes every net list but the last;
    after the last one comes the last row of the sheet. *)
Definition worksheet (title : list read_board.row)
  (gs : list (read_board.cell_value
              * (read_board.cell_value * read_board.cell_value)))
  (nets : list (list (read_board.cell_value * read_board.cell_value)))
  (last_net : list (read_board.cell_value * read_board.cell_value))
  (last_row : read_board.row) : list read_board.row :=
  title ++ gates_heading :: map gate_row gs ++ empty_row
  :: flat_map netlist_block nets
  ++ netlist_heading :: map connection_row last_net ++ [last_row].

(** The first cell of a row of data: not empty, and not one of the two
    headings. *)
Definition data (c : read_board.cell_value) : Prop :=
  c <> read_board.Blank /\ is_heading c = false.

(** The dictionary of the gates read, each on layer 0. *)
Definition gates_read
  (gs : list (read_board.cell_value
              * (read_board.cell_value * read_board.cell_value)))
  : dict read_board.cell_value
         (Z * read_board.cell_value * read_board.cell_value) :=
  fold_left (fun d g => dict_set d (fst g) (0, fst (snd g), snd (snd g))) gs [].

(** The loop of [process_file] over rows none of which is the last. *)
Fixpoint read_inner (st : read_board.reader) (rows : list read_board.row)
  : py read_board.reader :=
  match rows with
  | [] => Ret st
  | r :: rest =>
      st' <- read_board.read_row st r false ;;
      read_inner st' rest
  end.


(** The number has the size of an index of numpy, 64 bits. *)
Definition index_sized (i : Z) : Prop := - 2 ^ 63 <= i < 2 ^ 63.

Definition node_index_sized (n : node) : Prop :=
  let '(nz, nx, ny) := n in
  index_sized nz /\ index_sized nx /\ index_sized ny.

(** Two gates at the ends of a row of 1004 cells, to be connected. *)
Definition far_gates : circuit_board :=
  {| dimensions := (1, 1, 1004);
     gates := [(KInt 1, (0, 0, 0)); (KInt 2, (0, 0, 1003))];
     connections := [(KInt 1, KInt 2)];
     board := [[GATE :: repeat EMPTY 1002 ++ [GATE]]];
     needs_connections := [(KInt 1, 1); (KInt 2, 1)];
     neighbor_of := [((0, 0, 1), [KInt 1]); ((0, 0, 1002), [KInt 2])];
     free_connectors := [(0, 0, 1); (0, 0, 1002)] |}.

(** A row of 1003 cells with a gate on the last cell but one. *)
Definition walled_corridor : circuit_board :=
  {| dimensions := (1, 1, 1003); gates := [(KInt 1, (0, 0, 1001))];
     connections := [];
     board := [[repeat EMPTY 1001 ++ [GATE; EMPTY]]];
     needs_connections := [];
     neighbor_of := [((0, 0, 1002), [KInt 1]); ((0, 0, 1000), [KInt 1])];
     free_connectors := [(0, 0, 1002); (0, 0, 1000)] |}.

(** A hundred connections on a row of six cells with four gates: 98
    times the first two gates, which have no free cell between them,
    then the second gate with the third and the third with the
    fourth. *)
Definition hundred_nets : circuit_board :=
  {| dimensions := (1, 1, 6);
     gates := [(KInt 1, (0, 0, 0)); (KInt 2, (0, 0, 1));
               (KInt 3, (0, 0, 3)); (KInt 4, (0, 0, 5))];
     connections := repeat (KInt 1, KInt 2) 98
                    ++ [(KInt 2, KInt 3); (KInt 3, KInt 4)];
     board := [[[GATE; GATE; EMPTY; GATE; EMPTY; GATE]]];
     needs_connections := [(KInt 1, 98); (KInt 2, 99); (KInt 3, 2); (KInt 4, 1)];
     neighbor_of := [((0, 0, 2), [KInt 2; KInt 3]); ((0, 0, 4), [KInt 3; KInt 4])];
     free_connectors := [(0, 0, 2); (0, 0, 4)] |}.

(* ================================================================= *)
(** ** The example boards are what the constructor builds *)

Lemma facing_gates_built :
  new_board [(KInt 1, (0, 1, 1)); (KInt 2, (0, 1, 3))] [(KInt 1, KInt 2)] (1, 3, 5)
  = Ret facing_gates.
Proof. vm_compute. reflexivity. Qed.

Lemma corridor_built : new_board [] [] (1, 1, 1002) = Ret corridor.
Proof. vm_compute. reflexivity. Qed.

Lemma far_gates_built :
  new_board [(KInt 1, (0, 0, 0)); (KInt 2, (0, 0, 1003))] [(KInt 1, KInt 2)]
            (1, 1, 1004)
  = Ret far_gates.
Proof. vm_compute. reflexivity. Qed.

Lemma walled_corridor_built :
  new_board [(KInt 1, (0, 0, 1001))] [] (1, 1, 1003) = Ret walled_corridor.
Proof. vm_compute. reflexivity. Qed.

Lemma hundred_nets_built :
  new_board [(KInt 1, (0, 0, 0)); (KInt 2, (0, 0, 1));
             (KInt 3, (0, 0, 3)); (KInt 4, (0, 0, 5))]
            (repeat (KInt 1, KInt 2) 98 ++ [(KInt 2, KInt 3); (KInt 3, KInt 4)])
            (1, 1, 6)
  = Ret hundred_nets.
Proof. vm_compute. reflexivity. Qed.

(* ================================================================= *)
(** ** The pathfinder: neighbors *)

(** When no coordinate is a key of [needs_connections], the loop over
    the neighbors removes nothing. *)
Lemma drop_busy_connectors_inert (c_board : circuit_board) :
  (forall n, dict_get (needs_connections c_board) (KNode n) = None) ->
  forall fuel neighbors i,
    (length neighbors - i < fuel)%nat ->
    drop_busy_connectors fuel c_board neighbors i = Ret neighbors.
Proof.
  intros Hno fuel. induction fuel as [|fuel IH]; intros neighbors i Hlen; simpl.
  - lia.
  - destruct (nth_error neighbors i) as [n|] eqn:E; [|reflexivity].
    assert (i < length neighbors)%nat
      by (apply nth_error_Some; congruence).
    unfold dict_mem. rewrite Hno. apply IH. lia.
Qed.

Lemma node_neighbors_inert (c_board : circuit_board) (n : node) :
  (forall m, dict_get (needs_connections c_board) (KNode m) = None) ->
  node_neighbors c_board n = vacant_six c_board n.
Proof.
  intros Hno. unfold node_neighbors.
  destruct (vacant_six c_board n) as [l| |]; cbn [bind]; try reflexivity.
  apply drop_busy_connectors_inert; [assumption | lia].
Qed.

Lemma dict_get_plain_keys {V : Type} (d : dict key V) (n : node) :
  Forall (fun kv => plain_key (fst kv)) d -> dict_get d (KNode n) = None.
Proof.
  induction 1 as [|[k v] rest Hk _ IH]; simpl; [reflexivity|].
  destruct k; simpl in *; try assumption. contradiction.
Qed.

(** C1, at the input where the source departs from it.  On the board
    [facing_gates] the cell [(0, 1, 2)] is registered as a connector of
    gates 1 and 2, both of which still need one connection, and yet it
    is among the neighbors enumerated for [(0, 1, 1)] at construction
    and for [(0, 0, 2)] during a search: the test
    [node in c_board.needs_connections] compares a coordinate with gate
    identifiers and never holds. *)
Theorem busy_connector_is_enumerated :
  dict_get (neighbor_of facing_gates) (0, 1, 2) = Some [KInt 1; KInt 2]
  /\ dict_get (needs_connections facing_gates) (KInt 1) = Some 1
  /\ dict_get (needs_connections facing_gates) (KInt 2) = Some 1
  /\ check_free_connector facing_gates (0, 1, 2) = Ret false
  /\ node_neighbors facing_gates (0, 1, 1)
     = Ret [(0, 2, 1); (0, 0, 1); (0, 1, 2); (0, 1, 0)]
  /\ node_neighbors facing_gates (0, 0, 2)
     = Ret [(0, 1, 2); (0, 0, 3); (0, 0, 1)]
  /\ search 20 (0, 0, 2) (0, 2, 2) facing_gates
     = Ret (Path [(0, 2, 2); (0, 1, 2); (0, 0, 2)]).
Proof. vm_compute. repeat split; reflexivity. Qed.

(* ================================================================= *)
(** ** The pathfinder: expansion *)

(** C8, at the step where the source departs from it: a neighbor
    without a recorded g-score whose tentative g-score has reached 1000
    is skipped; it enters the open set and gets no back-pointer,
    g-score or f-score. *)
Theorem visit_skips_unrecorded_from_1000 (goal current neighbor : node)
  (st : search_state) (gc : Z) :
  mem neighbor (closed_set st) = false ->
  dict_get (g_score st) current = Some gc ->
  dict_get (g_score st) neighbor = None ->
  1000 <= gc + manhattan current neighbor ->
  exists st',
    visit goal current st neighbor = Ret st'
    /\ In neighbor (open_set st')
    /\ came_from st' = came_from st
    /\ g_score st' = g_score st
    /\ f_score st' = f_score st.
Proof.
  intros Hclosed Hgc Hnone Hfar.
  unfold visit. rewrite Hclosed. unfold dict_getitem, dict_get_default. simpl.
  rewrite Hgc, Hnone. simpl.
  rewrite Z.geb_leb.
  destruct (1000 <=? gc + manhattan current neighbor) eqn:E;
    [|apply Z.leb_gt in E; lia].
  eexists. split; [reflexivity|]. simpl. repeat split.
  destruct (mem neighbor (open_set st)) eqn:M.
  - apply mem_In; assumption.
  - apply In_set_add. left; reflexivity.
Qed.

Lemma visit_skips_unrecorded_from_1000_witness :
  exists st',
    visit (0, 0, 1001) (0, 0, 999)
          {| closed_set := [(0, 0, 999)]; open_set := []; came_from := [];
             g_score := [((0, 0, 999), 999)]; f_score := [((0, 0, 999), 1001)] |}
          (0, 0, 1000) = Ret st'
    /\ In (0, 0, 1000) (open_set st')
    /\ came_from st' = []
    /\ g_score st' = [((0, 0, 999), 999)]
    /\ f_score st' = [((0, 0, 999), 1001)].
Proof.
  apply (visit_skips_unrecorded_from_1000 (0, 0, 1001) (0, 0, 999) (0, 0, 1000)
           {| closed_set := [(0, 0, 999)]; open_set := []; came_from := [];
              g_score := [((0, 0, 999), 999)]; f_score := [((0, 0, 999), 1001)] |}
           999).
  - reflexivity.
  - reflexivity.
  - reflexivity.
  - simpl. lia.
Defined.

(** More fuel does not change what a search that ended returns. *)
Lemma search_loop_more_fuel (goal : node) (c_board : circuit_board) :
  forall fuel st r,
    search_loop fuel goal c_board st = r ->
    r <> OutOfFuel ->
    forall extra, search_loop (fuel + extra) goal c_board st = r.
Proof.
  induction fuel as [|fuel IH]; intros st r Hrun Hr extra; simpl in *.
  - congruence.
  - destruct (open_set st); [assumption|].
    destruct (min_key _) as [current| |]; simpl in *; try assumption.
    destruct (node_eqb current goal); [assumption|].
    destruct (node_neighbors c_board current) as [nbs| |]; simpl in *; try assumption.
    destruct (visit_all _ _ _ nbs) as [st2| |]; simpl in *; try assumption.
    apply IH; assumption.
Qed.

(** C5, at the input where the source departs from it.  In a row of
    1002 empty cells the ends are joined by a straight line of 1001
    steps; the search does not return a path: the cell 1000 steps from
    the start is put in the open set without a score, because of the
    default 1000 of line 49, and the next turn takes [min] of an empty
    dictionary.  Lines of fewer than 1000 steps are found
    ([search_straight_line_under_1000]). *)
Theorem search_fails_on_long_straight_line (extra : nat) :
  manhattan (0, 0, 0) (0, 0, 1001) = 1001
  /\ Forall (fun y => get_node (board corridor) (0, 0, Z.of_nat y) = Ret EMPTY)
            (seq 0 1002)
  /\ search (1001 + extra) (0, 0, 0) (0, 0, 1001) corridor = Raise ValueError.
Proof.
  split; [reflexivity|]. split.
  - apply Forall_forall. intros y Hy.
    assert (Hall : forallb (fun y => match get_node (board corridor) (0, 0, Z.of_nat y) with
                                    | Ret c => String.eqb c EMPTY
                                    | _ => false
                                    end) (seq 0 1002) = true)
      by (vm_compute; reflexivity).
    rewrite forallb_forall in Hall. specialize (Hall y Hy).
    destruct (get_node (board corridor) (0, 0, Z.of_nat y)); try discriminate.
    apply String.eqb_eq in Hall. congruence.
  - unfold search. apply search_loop_more_fuel; [|discriminate].
    vm_compute. reflexivity.
Qed.

(* ================================================================= *)
(** ** The pathfinder: what a returned path is made of *)

Lemma probe_In (b : grid) (guard : bool) (cell : node) (acc l : list node) (n : node) :
  probe b guard cell acc = Ret l -> In n l ->
  (n = cell /\ guard = true /\ get_node b cell = Ret EMPTY) \/ In n acc.
Proof.
  unfold probe. destruct guard; [|intros [= <-]; auto].
  destruct (get_node b cell) as [c| |] eqn:G; cbn [bind]; try discriminate.
  destruct (label_eqb c EMPTY) eqn:E; intros [= <-] Hin; [|auto].
  apply in_app_iff in Hin. destruct Hin as [Hin|[<-|[]]]; [auto|].
  left. repeat split. apply String.eqb_eq in E. congruence.
Qed.

Ltac bind_inv H :=
  match type of H with
  | bind ?m _ = Ret _ =>
      let E := fresh "E" in
      destruct m eqn:E; cbn [bind] in H; [|discriminate H|discriminate H]
  end.

Tactic Notation "bind_inv_as" hyp(H) ident(x) ident(E) :=
  match type of H with
  | bind ?m _ = Ret _ =>
      destruct m as [x| |] eqn:E; cbn [bind] in H;
      [|discriminate H|discriminate H]
  end.

Lemma vacant_six_In (c_board : circuit_board) (c n : node) (l : list node) :
  vacant_six c_board c = Ret l -> In n l ->
  unit_step c n /\ get_node (board c_board) n = Ret EMPTY.
Proof.
  unfold vacant_six. destruct (dimensions c_board) as [[bz bx] by'].
  destruct c as [[cz cx] cy]. intros H Hin.
  repeat bind_inv H.
  repeat match goal with
  | P : probe _ _ _ _ = Ret ?l, I : In n ?l |- _ =>
      let I' := fresh "I" in
      let G := fresh "G" in
      destruct (probe_In _ _ _ _ _ _ P I) as [(-> & _ & G)|I']; clear I P;
      [split; [simpl; lia | exact G] | ]
  end.
  contradiction.
Qed.

Lemma drop_busy_connectors_incl (c_board : circuit_board) :
  forall fuel neighbors i l,
    drop_busy_connectors fuel c_board neighbors i = Ret l -> incl l neighbors.
Proof.
  induction fuel as [|fuel IH]; intros neighbors i l; simpl; [discriminate|].
  destruct (nth_error neighbors i) as [n|]; [|intros [= <-]; apply incl_refl].
  destruct (dict_mem _ _); [|apply IH].
  destruct (check_free_connector c_board n) as [[|]| |]; cbn [bind];
    try discriminate; [apply IH|].
  intros H m Hm. apply IH in H. apply (In_list_remove n). apply H. assumption.
Qed.

Lemma edge_unit_step (c_board : circuit_board) (c n : node) :
  edge c_board c n -> unit_step c n /\ get_node (board c_board) n = Ret EMPTY.
Proof.
  intros (l & Hl & Hin). unfold node_neighbors in Hl.
  bind_inv Hl. apply drop_busy_connectors_incl in Hl.
  eapply vacant_six_In; eauto.
Qed.

Lemma unit_step_sym (a b : node) : unit_step a b -> unit_step b a.
Proof.
  destruct a as [[az ax] ay], b as [[bz bx] by']. unfold unit_step. lia.
Qed.

Lemma reconstruct_loop_chain (cf : dict node node) :
  forall fuel current pre p,
    reconstruct_loop fuel cf current (pre ++ [current]) = Ret p ->
    exists q, p = pre ++ q /\ chain cf current q.
Proof.
  induction fuel as [|fuel IH]; intros current pre p; simpl; [discriminate|].
  destruct (dict_get cf current) as [prev|] eqn:G.
  - intros H. apply IH in H. destruct H as (q & -> & Hq).
    exists (current :: q). rewrite <- app_assoc. split; [reflexivity|].
    econstructor; eauto.
  - intros [= <-]. exists [current]. split; [reflexivity|]. constructor; assumption.
Qed.

Lemma reconstruct_path_chain (cf : dict node node) (current : node) (p : list node) :
  reconstruct_path cf current = Ret p -> chain cf current p.
Proof.
  unfold reconstruct_path. intros H.
  apply (reconstruct_loop_chain cf _ current []) in H.
  destruct H as (q & -> & Hq). exact Hq.
Qed.

Lemma dict_mem_set {K V : Type} `{Eqb K} (d : dict K V) (k k' : K) (v : V) :
  dict_mem (dict_set d k v) k' = eqb k k' || dict_mem d k'.
Proof.
  unfold dict_mem. rewrite dict_get_set. destruct (eqb k k'); reflexivity.
Qed.

Lemma visit_inv (c_board : circuit_board) (start goal current neighbor : node)
  (st st' : search_state) :
  search_inv c_board start st ->
  edge c_board current neighbor ->
  current = start \/ dict_mem (came_from st) current = true ->
  visit goal current st neighbor = Ret st' ->
  search_inv c_board start st'
  /\ closed_set st' = closed_set st
  /\ (forall n, dict_mem (came_from st) n = true -> dict_mem (came_from st') n = true).
Proof.
  intros [Hl Hs Hc Hf] Hedge Hcur. unfold visit.
  destruct (mem neighbor (closed_set st)) eqn:Hclosed.
  { intros [= <-]. split; [constructor; assumption | auto]. }
  cbv zeta. cbn [g_score closed_set open_set came_from f_score].
  destruct (dict_getitem (g_score st) current) as [gc| |]; cbn [bind];
    try discriminate.
  destruct (_ >=? _).
  { intros [= <-]. split; [constructor; assumption | auto]. }
  intros [= <-]. simpl.
  assert (Hne : neighbor <> start).
  { intros ->. apply mem_false in Hclosed. contradiction. }
  split; [|split; [reflexivity|]].
  - constructor; simpl.
    + intros n c. rewrite dict_get_set. destruct (eqb neighbor n) eqn:E.
      * apply eqb_eq in E. subst n. intros [= <-]. split; [assumption|].
        rewrite dict_mem_set. destruct Hcur as [->| ->]; auto using orb_true_r.
      * intros G. destruct (Hl _ _ G) as [He Hm]. split; [assumption|].
        rewrite dict_mem_set. destruct Hm as [->| ->]; auto using orb_true_r.
    + rewrite dict_get_set_neq; assumption.
    + assumption.
    + intros n. rewrite !dict_mem_set. destruct (eqb neighbor n); simpl; auto.
  - intros n Hn. rewrite dict_mem_set, Hn. apply orb_true_r.
Qed.

Lemma visit_all_inv (c_board : circuit_board) (start goal current : node) :
  forall nbs st st',
    search_inv c_board start st ->
    (forall n, In n nbs -> edge c_board current n) ->
    current = start \/ dict_mem (came_from st) current = true ->
    visit_all goal current st nbs = Ret st' ->
    search_inv c_board start st'.
Proof.
  induction nbs as [|nb rest IH]; intros st st' Hinv Hedges Hcur; simpl.
  - intros [= <-]. assumption.
  - intros H. bind_inv H.
    destruct (visit_inv _ _ _ _ _ _ _ Hinv (Hedges nb (or_introl eq_refl)) Hcur E)
      as (Hinv' & _ & Hmono).
    eapply IH; eauto.
    + intros n Hn. apply Hedges. right; assumption.
    + destruct Hcur as [->|Hm]; auto.
Qed.

Lemma min_from_In (d : dict node Z) :
  forall best v, min_from best v d = best \/ dict_mem d (min_from best v d) = true.
Proof.
  induction d as [|[k w] rest IH]; intros best v; simpl; [auto|].
  unfold dict_mem in *. simpl.
  destruct (w <? v).
  - destruct (IH k w) as [->|H]; right.
    + change (node_eqb k k) with (eqb k k). rewrite eqb_refl. reflexivity.
    + destruct (node_eqb k _); [reflexivity | exact H].
  - destruct (IH best v) as [->|H]; [auto|right].
    destruct (node_eqb k _); [reflexivity | exact H].
Qed.

Lemma dict_mem_filter {V : Type} (P : node * V -> bool) (d : dict node V) (n : node) :
  dict_mem (filter P d) n = true -> dict_mem d n = true.
Proof.
  unfold dict_mem. induction d as [|[k v] rest IH]; simpl; [auto|].
  destruct (P (k, v)); simpl; destruct (node_eqb k n); auto.
Qed.

Lemma min_key_scored (d : dict node Z) (current : node) :
  min_key d = Ret current -> dict_mem d current = true.
Proof.
  destruct d as [|[k v] rest]; simpl; [discriminate|]. intros [= <-].
  unfold dict_mem. simpl.
  destruct (min_from_In rest k v) as [->|H].
  - change (node_eqb k k) with (eqb k k). rewrite eqb_refl. reflexivity.
  - destruct (node_eqb k _); [reflexivity|exact H].
Qed.

Lemma last_default {A : Type} (l : list A) :
  forall (x d d' : A), last (x :: l) d = last (x :: l) d'.
Proof.
  induction l as [|y l IH]; intros x d d'; [reflexivity|].
  change (last (y :: l) d = last (y :: l) d'). apply IH.
Qed.

Lemma last_nonempty {A : Type} (x : A) (l : list A) (d d' : A) :
  last (d :: x :: l) d' = last (x :: l) x.
Proof.
  change (last (x :: l) d' = last (x :: l) x). apply last_default.
Qed.

(** A chain of back-pointers in a state of the loop is a walk from the
    start. *)
Lemma chain_walk (c_board : circuit_board) (start : node) (st : search_state) :
  search_inv c_board start st ->
  forall current p,
    chain (came_from st) current p ->
    current = start \/ dict_mem (came_from st) current = true ->
    (exists rest, p = current :: rest)
    /\ last p current = start
    /\ reaches c_board start current
    /\ contiguous p.
Proof.
  intros [Hl Hs Hc Hf]. induction 1 as [n Hn|n c rest Hn Hch IH]; intros Hcur.
  - assert (n = start) as ->.
    { destruct Hcur as [->|Hm]; [reflexivity|].
      unfold dict_mem in Hm. rewrite Hn in Hm. discriminate. }
    repeat split; eauto using reaches_here.
    intros [|i] a b; simpl; [discriminate|]. destruct i; discriminate.
  - destruct (Hl _ _ Hn) as [Hedge Hc'].
    destruct (IH Hc') as ((rest' & ->) & Hlast & Hreach & Hcont).
    repeat split; eauto using reaches_next.
    + rewrite <- Hlast. apply last_nonempty.
    + intros [|i] a b; simpl.
      * intros [= <-] [= <-]. apply unit_step_sym.
        apply (edge_unit_step c_board). assumption.
      * apply Hcont.
Qed.

Lemma search_loop_path (c_board : circuit_board) (start goal : node) :
  forall fuel st p,
    search_inv c_board start st ->
    search_loop fuel goal c_board st = Ret (Path p) ->
    (exists rest, p = goal :: rest)
    /\ last p goal = start
    /\ reaches c_board start goal
    /\ contiguous p.
Proof.
  induction fuel as [|fuel IH]; intros st p Hinv; simpl; [discriminate|].
  destruct (open_set st) eqn:Hopen; [discriminate|]. rewrite <- Hopen.
  intros H. bind_inv H.
  assert (Hcur : a = start \/ dict_mem (came_from st) a = true).
  { apply (inv_scored _ _ _ Hinv). eapply dict_mem_filter, min_key_scored, E. }
  destruct (node_eqb a goal) eqn:Hgoal.
  - apply node_eqb_eq in Hgoal. subst a. bind_inv H. injection H as <-.
    eapply chain_walk; eauto using reconstruct_path_chain.
  - bind_inv H. bind_inv H.
    eapply IH; [|exact H].
    match type of E1 with
    | visit_all _ _ ?s _ = _ =>
        refine (visit_all_inv c_board start goal a a0 s a1 _ _ Hcur E1)
    end.
    + destruct Hinv as [Hl Hs Hc Hf]. constructor; simpl; auto.
      apply In_set_add. auto.
    + intros m Hm. exists a0. auto.
Qed.

(** A path returned by [search] lists the goal first and the start
    last, and walks enumerated neighbors all the way. *)
Lemma search_path (fuel : nat) (start goal : node) (c_board : circuit_board)
  (p : list node) :
  search fuel start goal c_board = Ret (Path p) ->
  (exists rest, p = goal :: rest)
  /\ last p goal = start
  /\ reaches c_board start goal
  /\ contiguous p.
Proof.
  unfold search. destruct fuel as [|fuel]; simpl; [discriminate|].
  change (node_eqb start start) with (eqb start start). rewrite eqb_refl. simpl.
  destruct (node_eqb start goal) eqn:Hgoal.
  - apply node_eqb_eq in Hgoal. subst goal. cbn. intros [= <-].
    repeat split; eauto using reaches_here.
    intros [|i] a b; simpl; [discriminate|]. destruct i; discriminate.
  - intros H. bind_inv H. bind_inv H.
    eapply search_loop_path; [|exact H].
    match type of E0 with
    | visit_all _ _ ?s _ = _ =>
        refine (visit_all_inv c_board start goal start a s a0 _ _
                  (or_introl eq_refl) E0)
    end.
    + constructor; simpl; auto; try discriminate.
      intros n. unfold dict_mem. simpl.
      destruct (node_eqb start n) eqn:En; [|discriminate].
      apply node_eqb_eq in En. auto.
    + intros n Hn. exists a. auto.
Qed.

(** The coordinates of a returned path, the start apart, are empty
    cells. *)
Lemma chain_cells (c_board : circuit_board) (start : node) (st : search_state) :
  search_inv c_board start st ->
  forall current p,
    chain (came_from st) current p ->
    current = start \/ dict_mem (came_from st) current = true ->
    Forall (fun n => n = start \/ get_node (board c_board) n = Ret EMPTY) p.
Proof.
  intros [Hl Hs Hc Hf]. induction 1 as [n Hn|n c rest Hn Hch IH]; intros Hcur.
  - constructor; [|constructor]. destruct Hcur as [->|Hm]; [auto|].
    unfold dict_mem in Hm. rewrite Hn in Hm. discriminate.
  - destruct (Hl _ _ Hn) as [Hedge Hc'].
    constructor; [|auto]. right. apply (edge_unit_step c_board c). assumption.
Qed.

Lemma search_loop_cells (c_board : circuit_board) (start goal : node) :
  forall fuel st p,
    search_inv c_board start st ->
    search_loop fuel goal c_board st = Ret (Path p) ->
    Forall (fun n => n = start \/ get_node (board c_board) n = Ret EMPTY) p.
Proof.
  induction fuel as [|fuel IH]; intros st p Hinv; simpl; [discriminate|].
  destruct (open_set st) as [|o os] eqn:Hopen; [discriminate|]. rewrite <- Hopen.
  clear o os Hopen.
  intros H. bind_inv_as H current Hmin.
  assert (Hcur : current = start \/ dict_mem (came_from st) current = true).
  { apply (inv_scored _ _ _ Hinv). eapply dict_mem_filter, min_key_scored, Hmin. }
  destruct (node_eqb current goal) eqn:Hgoal.
  - bind_inv_as H q Hq. injection H as <-.
    eapply chain_cells; eauto using reconstruct_path_chain.
  - bind_inv_as H nbs Hnbs. bind_inv_as H st2 Hvisit.
    eapply IH; [|exact H].
    match type of Hvisit with
    | visit_all _ _ ?s _ = _ =>
        refine (visit_all_inv c_board start goal current nbs s st2 _ _ Hcur Hvisit)
    end.
    + destruct Hinv as [Hl Hs Hc Hf]. constructor; simpl; auto.
      apply In_set_add. auto.
    + intros m Hm. exists nbs. auto.
Qed.

Lemma search_cells (fuel : nat) (start goal : node) (c_board : circuit_board)
  (p : list node) :
  search fuel start goal c_board = Ret (Path p) ->
  Forall (fun n => n = start \/ get_node (board c_board) n = Ret EMPTY) p.
Proof.
  unfold search. destruct fuel as [|fuel]; simpl; [discriminate|].
  change (node_eqb start start) with (eqb start start). rewrite eqb_refl. simpl.
  destruct (node_eqb start goal) eqn:Hgoal.
  - cbn. intros [= <-]. repeat constructor.
  - intros H. bind_inv_as H nbs Hnbs. bind_inv_as H st1 Hvisit.
    eapply search_loop_cells; [|exact H].
    match type of Hvisit with
    | visit_all _ _ ?s _ = _ =>
        refine (visit_all_inv c_board start goal start nbs s st1 _ _
                  (or_introl eq_refl) Hvisit)
    end.
    + constructor; simpl; auto; try discriminate.
      intros n. unfold dict_mem. simpl.
      destruct (node_eqb start n) eqn:En; [|discriminate].
      apply node_eqb_eq in En. auto.
    + intros n Hn. exists nbs. auto.
Qed.

(** C7.  Every path [search] returns is Manhattan-contiguous: two
    consecutive coordinates differ along exactly one axis, by exactly
    one unit. *)
Theorem search_path_contiguous (fuel : nat) (start goal : node)
  (c_board : circuit_board) (p : list node) :
  search fuel start goal c_board = Ret (Path p) -> contiguous p.
Proof.
  intros H. apply search_path in H. tauto.
Qed.

Lemma search_path_contiguous_witness :
  contiguous [(0, 2, 2); (0, 1, 2); (0, 0, 2)].
Proof.
  apply (search_path_contiguous 20 (0, 0, 2) (0, 2, 2) facing_gates).
  vm_compute. reflexivity.
Defined.

Lemma walled_row_built : new_board [(KInt 1, (0, 0, 1))] [] (1, 1, 3) = Ret walled_row.
Proof. vm_compute. reflexivity. Qed.

Example search_walled_row : search 5 (0, 0, 0) (0, 0, 2) walled_row = Ret NoPath.
Proof. vm_compute. reflexivity. Qed.

(* ----------------------------------------------------------------- *)
(** *** The loop of the search ends *)

Lemma in_bounds_all_nodes (dims : Z * Z * Z) (n : node) :
  in_bounds dims n -> In n (all_nodes dims).
Proof.
  destruct dims as [[bz bx] by'], n as [[nz nx] ny]. simpl.
  intros (Hz & Hx & Hy).
  apply in_flat_map. exists (Z.to_nat nz). split; [apply in_seq; lia|].
  apply in_flat_map. exists (Z.to_nat nx). split; [apply in_seq; lia|].
  apply in_map_iff. exists (Z.to_nat ny). split; [|apply in_seq; lia].
  rewrite !Z2Nat.id by lia. reflexivity.
Qed.

Lemma vacant_six_in_bounds (c_board : circuit_board) (c n : node) (l : list node) :
  vacant_six c_board c = Ret l -> In n l ->
  in_bounds (dimensions c_board) c -> in_bounds (dimensions c_board) n.
Proof.
  unfold vacant_six, in_bounds. destruct (dimensions c_board) as [[bz bx] by'].
  destruct c as [[cz cx] cy]. intros H Hin Hc.
  repeat bind_inv H.
  repeat match goal with
  | P : probe _ _ _ _ = Ret ?l, I : In n ?l |- _ =>
      let I' := fresh "I" in
      let G := fresh "G" in
      destruct (probe_In _ _ _ _ _ _ P I) as [(-> & G & _)|I']; clear I P;
      [lia | ]
  end.
  contradiction.
Qed.

Lemma edge_in_bounds (c_board : circuit_board) (c n : node) :
  edge c_board c n ->
  in_bounds (dimensions c_board) c -> in_bounds (dimensions c_board) n.
Proof.
  intros (l & Hl & Hin). unfold node_neighbors in Hl.
  bind_inv_as Hl six Hsix. apply drop_busy_connectors_incl in Hl.
  eapply vacant_six_in_bounds; eauto.
Qed.

(** Only the loops of [search] and [reconstruct_path] can be cut short
    by the fuel of the model: the rest always comes to a result or an
    exception. *)
Lemma getitem_total {A : Type} (l : list A) (i : Z) : getitem l i <> OutOfFuel.
Proof.
  unfold getitem, np_index.
  destruct (_ && _); cbn [bind]; [destruct (nth_error _ _); discriminate|].
  destruct (_ && _); cbn [bind]; [destruct (nth_error _ _); discriminate|].
  discriminate.
Qed.

Lemma get_node_total (b : grid) (n : node) : get_node b n <> OutOfFuel.
Proof.
  destruct n as [[z x] y]. unfold get_node.
  destruct (getitem b z) as [plane| |] eqn:Ez; cbn [bind]; try discriminate.
  - destruct (getitem plane x) as [row| |] eqn:Ex; cbn [bind]; try discriminate.
    + apply getitem_total.
    + exfalso. exact (getitem_total _ _ Ex).
  - exfalso. exact (getitem_total _ _ Ez).
Qed.

Lemma probe_total (b : grid) (guard : bool) (cell : node) (acc : list node) :
  probe b guard cell acc <> OutOfFuel.
Proof.
  unfold probe. destruct guard; [|discriminate].
  destruct (get_node b cell) eqn:E; cbn [bind]; try discriminate.
  exfalso. exact (get_node_total _ _ E).
Qed.

Lemma vacant_six_total (c_board : circuit_board) (n : node) :
  vacant_six c_board n <> OutOfFuel.
Proof.
  unfold vacant_six. destruct (dimensions c_board) as [[bz bx] by'].
  destruct n as [[nz nx] ny].
  repeat match goal with
  | |- bind ?m _ <> OutOfFuel =>
      let E := fresh "E" in
      destruct m eqn:E; cbn [bind];
      [|discriminate|exfalso; exact (probe_total _ _ _ _ E)]
  end.
  apply probe_total.
Qed.

Lemma check_free_connector_total (c_board : circuit_board) (n : node) :
  check_free_connector c_board n <> OutOfFuel.
Proof.
  unfold check_free_connector, dict_getitem.
  destruct (dict_get (neighbor_of c_board) n) as [gs|]; cbn [bind]; [|discriminate].
  induction gs as [|g gs IH]; cbn [any_gate_done]; [discriminate|].
  unfold dict_getitem at 1.
  destruct (dict_get (needs_connections c_board) g) as [c|]; cbn [bind];
    [|discriminate].
  destruct (c =? 0); [discriminate|exact IH].
Qed.

Lemma drop_busy_connectors_total (c_board : circuit_board) :
  forall fuel neighbors i,
    (length neighbors - i < fuel)%nat ->
    drop_busy_connectors fuel c_board neighbors i <> OutOfFuel.
Proof.
  induction fuel as [|fuel IH]; intros neighbors i Hlen; simpl; [lia|].
  destruct (nth_error neighbors i) as [n|] eqn:E; [|discriminate].
  assert (i < length neighbors)%nat by (apply nth_error_Some; congruence).
  destruct (dict_mem _ _); [|apply IH; lia].
  destruct (check_free_connector c_board n) as [[|]| |] eqn:F; cbn [bind];
    try discriminate.
  - apply IH. lia.
  - apply IH. pose proof (length_list_remove_le n neighbors). lia.
  - exfalso. exact (check_free_connector_total _ _ F).
Qed.

Lemma node_neighbors_total (c_board : circuit_board) (n : node) :
  node_neighbors c_board n <> OutOfFuel.
Proof.
  unfold node_neighbors.
  destruct (vacant_six c_board n) as [l| |] eqn:E; cbn [bind]; try discriminate.
  - apply drop_busy_connectors_total. lia.
  - exfalso. exact (vacant_six_total _ _ E).
Qed.

Lemma visit_total (goal current : node) (st : search_state) (neighbor : node) :
  visit goal current st neighbor <> OutOfFuel.
Proof.
  unfold visit. destruct (mem neighbor (closed_set st)); [discriminate|].
  cbv zeta. unfold dict_getitem. cbn [g_score].
  destruct (dict_get (g_score st) current); cbn [bind]; [|discriminate].
  destruct (_ >=? _); discriminate.
Qed.

Lemma visit_all_total (goal current : node) :
  forall nbs st, visit_all goal current st nbs <> OutOfFuel.
Proof.
  induction nbs as [|nb rest IH]; intros st; simpl; [discriminate|].
  destruct (visit goal current st nb) eqn:E; cbn [bind]; try discriminate.
  - apply IH.
  - exfalso. exact (visit_total _ _ _ _ E).
Qed.

Lemma min_key_total (d : dict node Z) : min_key d <> OutOfFuel.
Proof. destruct d as [|[k v] rest]; discriminate. Qed.

Lemma visit_bounded (c_board : circuit_board) (start goal current neighbor : node)
  (st st' : search_state) :
  bounded_inv c_board start st ->
  edge c_board current neighbor ->
  in_bounds (dimensions c_board) current ->
  reaches c_board start current ->
  visit goal current st neighbor = Ret st' ->
  bounded_inv c_board start st' /\ closed_set st' = closed_set st.
Proof.
  intros [Hnd Hc Ho Ha Hr] Hedge Hcur Hreach. unfold visit.
  destruct (mem neighbor (closed_set st)) eqn:Hclosed.
  { intros [= <-]. split; [constructor; assumption|reflexivity]. }
  cbv zeta. cbn [g_score closed_set open_set came_from f_score].
  assert (Hopen : forall n,
             In n (if mem neighbor (open_set st) then open_set st
                   else set_add neighbor (open_set st)) ->
             n = neighbor \/ In n (open_set st)).
  { intros n. destruct (mem neighbor (open_set st)); [auto|].
    rewrite In_set_add. auto. }
  assert (Hnb : in_bounds (dimensions c_board) neighbor)
    by (eapply edge_in_bounds; eauto).
  apply mem_false in Hclosed.
  destruct (dict_getitem (g_score st) current) as [gc| |]; cbn [bind];
    try discriminate.
  destruct (_ >=? _); intros [= <-]; (split; [|reflexivity]);
    constructor; cbn [closed_set open_set f_score]; auto;
    try (intros n Hn; destruct (Hopen n Hn) as [->|Hin]; auto).
  intros n. rewrite dict_mem_set. destruct (eqb neighbor n) eqn:E; simpl; auto.
  apply eqb_eq in E. subst n. intros _. eapply reaches_next; eauto.
Qed.

Lemma visit_all_bounded (c_board : circuit_board) (start goal current : node) :
  forall nbs st st',
    bounded_inv c_board start st ->
    (forall n, In n nbs -> edge c_board current n) ->
    in_bounds (dimensions c_board) current ->
    reaches c_board start current ->
    visit_all goal current st nbs = Ret st' ->
    bounded_inv c_board start st' /\ closed_set st' = closed_set st.
Proof.
  induction nbs as [|nb rest IH]; intros st st' Hinv Hedges Hcur Hreach; simpl.
  - intros [= <-]. auto.
  - intros H. bind_inv_as H st1 Hone.
    destruct (visit_bounded _ _ _ _ _ _ _ Hinv (Hedges nb (or_introl eq_refl))
                Hcur Hreach Hone) as [Hinv1 Hclosed1].
    destruct (IH _ _ Hinv1 (fun n Hn => Hedges n (or_intror Hn)) Hcur Hreach H)
      as [Hinv' Hclosed']. split; [assumption|congruence].
Qed.

Lemma min_from_In_pair (d : dict node Z) :
  forall best v,
    min_from best v d = best \/ exists w, In (min_from best v d, w) d.
Proof.
  induction d as [|[k w] rest IH]; intros best v; simpl; [auto|].
  destruct (w <? v).
  - destruct (IH k w) as [->|(w' & Hin)]; eauto.
  - destruct (IH best v) as [->|(w' & Hin)]; eauto.
Qed.

Lemma min_key_In (d : dict node Z) (current : node) :
  min_key d = Ret current -> exists w, In (current, w) d.
Proof.
  destruct d as [|[k v] rest]; simpl; [discriminate|]. intros [= <-].
  destruct (min_from_In_pair rest k v) as [->|(w & Hin)]; eauto.
Qed.

(** The node the loop selects is in the open set and has a score. *)
Lemma selected_open (st : search_state) (current : node) :
  min_key (filter (fun kv => mem (fst kv) (open_set st)) (f_score st)) = Ret current ->
  In current (open_set st) /\ dict_mem (f_score st) current = true.
Proof.
  intros H. split.
  - apply min_key_In in H. destruct H as (w & Hin).
    apply filter_In in Hin. destruct Hin as [_ Hmem]. apply mem_In. exact Hmem.
  - eapply dict_mem_filter, min_key_scored, H.
Qed.

Lemma search_loop_ends_unreachable (c_board : circuit_board) (start goal : node) :
  ~ reaches c_board start goal ->
  forall fuel st,
    bounded_inv c_board start st ->
    (length (all_nodes (dimensions c_board)) < fuel + length (closed_set st))%nat ->
    search_loop fuel goal c_board st = Ret NoPath
    \/ exists e, search_loop fuel goal c_board st = Raise e.
Proof.
  intros Hno. induction fuel as [|fuel IH]; intros st Hinv Hfuel.
  - exfalso. destruct Hinv as [Hnd Hc _ _ _].
    assert (length (closed_set st) <= length (all_nodes (dimensions c_board)))%nat.
    { apply NoDup_incl_length; [assumption|].
      intros n Hn. apply in_bounds_all_nodes. auto. }
    lia.
  - simpl. destruct (open_set st) as [|o os] eqn:Hopen; [auto|]. rewrite <- Hopen.
    clear o os Hopen.
    destruct (min_key _) as [current| |] eqn:Hmin; cbn [bind]; eauto.
    + destruct (selected_open _ _ Hmin) as [Hin Hscored].
      pose proof (bi_reached _ _ _ Hinv _ Hscored) as Hreach.
      destruct (node_eqb current goal) eqn:Hgoal.
      { apply node_eqb_eq in Hgoal. subst current. contradiction. }
      destruct (node_neighbors c_board current) as [nbs| |] eqn:Hnbs; cbn [bind];
        eauto.
      * match goal with
        | |- context [visit_all goal current ?s nbs] =>
            destruct (visit_all goal current s nbs) as [st2| |] eqn:Hvisit;
            cbn [bind]; eauto;
            [assert (Hinv1 : bounded_inv c_board start s)|]
        end.
        -- destruct Hinv as [Hnd Hc Ho Ha Hr].
           pose proof (Ha _ Hin) as Hfresh.
           constructor; cbn [closed_set open_set f_score]; auto.
           ++ unfold set_add. rewrite (proj2 (mem_false _ _) Hfresh).
              apply NoDup_app; [assumption|repeat constructor; simpl; tauto|].
              intros x Hx [<-|[]]. contradiction.
           ++ intros n Hn. apply In_set_add in Hn. destruct Hn as [->|Hn]; auto.
           ++ intros n Hn. apply In_set_remove in Hn. apply Ho. tauto.
           ++ intros n Hn. apply In_set_remove in Hn. destruct Hn as [Hn Hne].
              rewrite In_set_add. intros [->|Hcl]; [congruence|]. eapply Ha; eauto.
        -- destruct (visit_all_bounded _ _ _ _ _ _ _ Hinv1
                       (fun n Hn => ex_intro _ nbs (conj Hnbs Hn))
                       (bi_open _ _ _ Hinv _ Hin) Hreach Hvisit)
             as [Hinv2 Hclosed2].
           apply IH; [assumption|]. rewrite Hclosed2. cbn [closed_set].
           unfold set_add.
           rewrite (proj2 (mem_false _ _) (bi_apart _ _ _ Hinv _ Hin)).
           rewrite length_app. simpl. lia.
        -- exfalso. exact (visit_all_total _ _ _ _ Hvisit).
      * exfalso. exact (node_neighbors_total _ _ Hnbs).
    + exfalso. exact (min_key_total _ Hmin).
Qed.

(** With the goal out of reach and more fuel than the grid has cells,
    a search from a coordinate of the grid comes to its end: it
    returns [False], unless an exception ends it. *)
Lemma search_ends_unreachable (fuel : nat) (start goal : node)
  (c_board : circuit_board) :
  in_bounds (dimensions c_board) start ->
  ~ reaches c_board start goal ->
  (length (all_nodes (dimensions c_board)) < fuel)%nat ->
  search fuel start goal c_board = Ret NoPath
  \/ exists e, search fuel start goal c_board = Raise e.
Proof.
  intros Hstart Hno Hfuel. unfold search.
  apply (search_loop_ends_unreachable c_board start); [assumption| |simpl; lia].
  constructor; simpl.
  - constructor.
  - intros n [].
  - intros n [<-|[]]. assumption.
  - intros n _ [].
  - intros n. unfold dict_mem. simpl.
    destruct (node_eqb start n) eqn:E; [|discriminate].
    apply node_eqb_eq in E. subst n. intros _. apply reaches_here.
Qed.

(** What holds of every search.  A path [search] returns is never
    partial: it lists the goal first and the start last, every step of
    it going to an enumerated neighbor, so that none is returned when
    the goal cannot be reached from the start.  When the open set is
    empty the loop ends with the no-path result; and a search for a
    goal out of reach, started on the grid with more fuel than the grid
    has cells, comes to its end with that result or with an
    exception. *)
Theorem search_whole_path_or_none (fuel : nat) (start goal : node)
  (c_board : circuit_board) :
  (forall p, search fuel start goal c_board = Ret (Path p) ->
     (exists rest, p = goal :: rest)
     /\ last p goal = start
     /\ reaches c_board start goal)
  /\ (~ reaches c_board start goal ->
      forall p, search fuel start goal c_board <> Ret (Path p))
  /\ (forall st, open_set st = [] ->
      search_loop (S fuel) goal c_board st = Ret NoPath)
  /\ (in_bounds (dimensions c_board) start ->
      ~ reaches c_board start goal ->
      (length (all_nodes (dimensions c_board)) < fuel)%nat ->
      search fuel start goal c_board = Ret NoPath
      \/ exists e, search fuel start goal c_board = Raise e).
Proof.
  split; [|split; [|split]].
  - intros p H. apply search_path in H. tauto.
  - intros Hno p H. apply search_path in H. tauto.
  - intros st Hopen. simpl. rewrite Hopen. reflexivity.
  - apply search_ends_unreachable.
Qed.

Lemma walled_corridor_reach (n : node) :
  reaches walled_corridor (0, 0, 0) n ->
  exists y, n = (0, 0, y) /\ 0 <= y <= 1000.
Proof.
  induction 1 as [|b c Hab IH Hedge].
  - exists 0. split; [reflexivity|lia].
  - destruct IH as (y & -> & Hy).
    pose proof (edge_unit_step _ _ _ Hedge) as [Hstep Hcell].
    assert (Hin : in_bounds (dimensions walled_corridor) c).
    { apply (edge_in_bounds _ _ _ Hedge). simpl. lia. }
    destruct c as [[cz cx] cy]. simpl in Hstep, Hin.
    assert (cz = 0) by lia. assert (cx = 0) by lia. subst cz cx.
    exists cy. split; [reflexivity|].
    assert (Hcy : cy <= 1000 \/ cy = 1001) by lia.
    destruct Hcy as [Hcy | ->]; [lia|].
    exfalso. revert Hcell. vm_compute. discriminate.
Qed.

(** C6, at an input where the source departs from it.  On the board the
    constructor builds for a row of 1003 cells with a gate on the last
    cell but one, the last cell cannot be reached from the first: the
    gate walls it off.  The search for it does not return the no-path
    result, however many turns it is given: the cell 1000 steps from
    the start enters the open set without a score, because of the
    default 1000 of line 49, and on the next turn [min] is taken of an
    empty dictionary, which raises [ValueError] with the open set not
    empty. *)
Theorem search_raises_on_walled_goal (extra : nat) :
  new_board [(KInt 1, (0, 0, 1001))] [] (1, 1, 1003) = Ret walled_corridor
  /\ ~ reaches walled_corridor (0, 0, 0) (0, 0, 1002)
  /\ search (1001 + extra) (0, 0, 0) (0, 0, 1002) walled_corridor
     = Raise ValueError.
Proof.
  split; [exact walled_corridor_built|]. split.
  - intros H. apply walled_corridor_reach in H.
    destruct H as (y & Heq & Hy). injection Heq as <-. lia.
  - unfold search. apply search_loop_more_fuel; [|discriminate].
    vm_compute. reflexivity.
Qed.

(* ================================================================= *)
(** ** The pair router *)

Lemma try_combinations_app (fuel : nat) (self : circuit_board) :
  forall c1 c2 best,
    try_combinations fuel self (c1 ++ c2) best
    = (best' <- try_combinations fuel self c1 best ;;
       try_combinations fuel self c2 best').
Proof.
  induction c1 as [|[a b] c1 IH]; intros c2 best; simpl; [reflexivity|].
  destruct (search fuel a b self); cbn [bind]; auto.
Qed.

Lemma try_arrivals_combinations (fuel : nat) (self : circuit_board) (a : node) :
  forall n2 best,
    try_arrivals fuel self a n2 best
    = try_combinations fuel self (map (fun b => (a, b)) n2) best.
Proof.
  induction n2 as [|b n2 IH]; intros best; simpl; [reflexivity|].
  destruct (search fuel a b self); cbn [bind]; auto.
Qed.

(** The nested loops visit the combinations start-neighbor-major. *)
Lemma try_departures_combinations (fuel : nat) (self : circuit_board)
  (n2 : list node) :
  forall n1 best,
    try_departures fuel self n1 n2 best
    = try_combinations fuel self (list_prod n1 n2) best.
Proof.
  induction n1 as [|a n1 IH]; intros best; simpl; [reflexivity|].
  rewrite try_combinations_app, try_arrivals_combinations.
  destruct (try_combinations fuel self _ best); cbn [bind]; auto.
Qed.

Lemma search_path_nonempty (fuel : nat) (start goal : node)
  (c_board : circuit_board) :
  search fuel start goal c_board <> Ret (Path []).
Proof.
  intros H. apply search_path in H. destruct H as ((rest & Hp) & _). discriminate.
Qed.

Lemma nth_error_snoc {A : Type} (l : list A) (x y : A) (j : nat) :
  nth_error (l ++ [x]) j = Some y ->
  ((j < length l)%nat /\ nth_error l j = Some y) \/ (j = length l /\ y = x).
Proof.
  intros H. destruct (Nat.lt_ge_cases j (length l)) as [Hlt|Hge].
  - left. rewrite nth_error_app1 in H; auto.
  - right. rewrite nth_error_app2 in H; [|assumption].
    destruct (j - length l)%nat as [|d] eqn:D; simpl in H.
    + injection H as <-. split; [lia|reflexivity].
    + destruct d; discriminate.
Qed.

Lemma first_shortest_step (fuel : nat) (self : circuit_board)
  (pre : list (node * node)) (a b : node) (best : list node) (r : found) :
  first_shortest fuel self pre best ->
  search fuel a b self = Ret r ->
  first_shortest fuel self (pre ++ [(a, b)]) (keep_shorter best r).
Proof.
  intros Hbest Hr. destruct r as [p|]; simpl.
  - assert (Hhere : nth_error (pre ++ [(a, b)]) (length pre) = Some (a, b)).
    { rewrite nth_error_app2, Nat.sub_diag; [reflexivity|lia]. }
    destruct Hbest as [[-> Hnone]|(k & a0 & b0 & Hk & Hs & Hmin)].
    + right. exists (length pre), a, b. repeat split; try assumption.
      * destruct (nth_error_snoc _ _ _ _ H) as [[Hj Hn]|[-> [= -> ->]]].
        -- apply nth_error_In, Hnone in Hn. congruence.
        -- rewrite Hr in H0. injection H0 as <-. lia.
      * destruct (nth_error_snoc _ _ _ _ H) as [[Hj Hn]|[-> [= -> ->]]].
        -- apply nth_error_In, Hnone in Hn. congruence.
        -- lia.
    + assert (Hk' : (k < length pre)%nat) by (apply nth_error_Some; congruence).
      destruct best as [|x best]; [exfalso; eapply search_path_nonempty; eauto|].
      destruct (length p <? length (x :: best))%nat eqn:Hlt.
      * apply Nat.ltb_lt in Hlt.
        right. exists (length pre), a, b. repeat split; try assumption;
          destruct (nth_error_snoc _ _ _ _ H) as [[Hj Hn]|[-> [= -> ->]]];
          try (specialize (Hmin _ _ _ _ Hn H0); lia);
          try (rewrite Hr in H0; injection H0 as <-; lia); lia.
      * apply Nat.ltb_ge in Hlt.
        right. exists k, a0, b0. repeat split;
          try (rewrite nth_error_app1; assumption); try assumption;
          destruct (nth_error_snoc _ _ _ _ H) as [[Hj Hn]|[-> [= -> ->]]];
          try (specialize (Hmin _ _ _ _ Hn H0); lia);
          try (rewrite Hr in H0; injection H0 as <-; lia); lia.
  - destruct Hbest as [[-> Hnone]|(k & a0 & b0 & Hk & Hs & Hmin)].
    + left. split; [reflexivity|]. intros a' b' Hin.
      apply in_app_iff in Hin. destruct Hin as [Hin|[[= <- <-]|[]]]; auto.
    + assert (Hk' : (k < length pre)%nat) by (apply nth_error_Some; congruence).
      right. exists k, a0, b0. repeat split;
        try (rewrite nth_error_app1; assumption); try assumption;
        destruct (nth_error_snoc _ _ _ _ H) as [[Hj Hn]|[-> [= -> ->]]];
        try (specialize (Hmin _ _ _ _ Hn H0); lia); congruence.
Qed.

Lemma try_combinations_first_shortest (fuel : nat) (self : circuit_board) :
  forall combos pre best,
    first_shortest fuel self pre best ->
    (forall a b, In (a, b) combos -> exists r, search fuel a b self = Ret r) ->
    exists best',
      try_combinations fuel self combos best = Ret best'
      /\ first_shortest fuel self (pre ++ combos) best'.
Proof.
  induction combos as [|[a b] combos IH]; intros pre best Hbest Hret; simpl.
  - exists best. rewrite app_nil_r. auto.
  - destruct (Hret a b (or_introl eq_refl)) as [r Hr]. rewrite Hr. cbn [bind].
    destruct (IH (pre ++ [(a, b)]) (keep_shorter best r)) as (best' & Hrun & Hfs).
    + apply first_shortest_step; assumption.
    + intros a' b' Hin. apply Hret. right; assumption.
    + exists best'. rewrite <- app_assoc in Hfs. auto.
Qed.

(** Where every search comes back.  For a pair of gates whose vacant
    neighbor cells are [n1] and [n2], [connect_gates] then returns the
    shortest path found over the combinations taken
    start-neighbor-major, the first one found among those of equal
    length, and the empty list when no combination gives a path. *)
Theorem connect_gates_first_shortest (fuel : nat) (self : circuit_board)
  (pair : key * key) (loc1 loc2 : node) (n1 n2 : list node) :
  dict_get (gates self) (fst pair) = Some loc1 ->
  dict_get (gates self) (snd pair) = Some loc2 ->
  node_neighbors self loc1 = Ret n1 ->
  node_neighbors self loc2 = Ret n2 ->
  (forall a b, In (a, b) (list_prod n1 n2) ->
     exists r, search fuel a b self = Ret r) ->
  exists best,
    connect_gates fuel self pair = Ret best
    /\ first_shortest fuel self (list_prod n1 n2) best.
Proof.
  intros H1 H2 Hn1 Hn2 Hret. unfold connect_gates, dict_getitem.
  rewrite H1. cbn [bind]. rewrite Hn1. cbn [bind].
  rewrite H2. cbn [bind]. rewrite Hn2. cbn [bind].
  rewrite try_departures_combinations.
  apply (try_combinations_first_shortest fuel self (list_prod n1 n2) [] []);
    [|assumption].
  left. split; [reflexivity|]. intros a b [].
Qed.

Lemma try_combinations_all_return (fuel : nat) (self : circuit_board)
  (combos : list (node * node)) :
  forallb (fun ab => match search fuel (fst ab) (snd ab) self with
                     | Ret _ => true
                     | _ => false
                     end) combos = true ->
  forall a b, In (a, b) combos -> exists r, search fuel a b self = Ret r.
Proof.
  intros Hall a b Hin. rewrite forallb_forall in Hall.
  specialize (Hall _ Hin). simpl in Hall.
  destruct (search fuel a b self) as [r| |]; try discriminate. eauto.
Qed.

Lemma connect_gates_first_shortest_witness :
  exists best,
    connect_gates 20 facing_gates (KInt 1, KInt 2) = Ret best
    /\ first_shortest 20 facing_gates
         (list_prod [(0, 2, 1); (0, 0, 1); (0, 1, 2); (0, 1, 0)]
                    [(0, 2, 3); (0, 0, 3); (0, 1, 4); (0, 1, 2)])
         best.
Proof.
  apply (connect_gates_first_shortest 20 facing_gates (KInt 1, KInt 2)
           (0, 1, 1) (0, 1, 3)).
  - reflexivity.
  - reflexivity.
  - vm_compute. reflexivity.
  - vm_compute. reflexivity.
  - apply try_combinations_all_return. vm_compute. reflexivity.
Defined.

Example connect_facing_gates :
  connect_gates 20 facing_gates (KInt 1, KInt 2) = Ret [(0, 1, 2)].
Proof. vm_compute. reflexivity. Qed.

(** More fuel does not change what [connect_gates] ends with. *)
Lemma try_combinations_more_fuel (fuel : nat) (self : circuit_board) :
  forall combos best r,
    try_combinations fuel self combos best = r ->
    r <> OutOfFuel ->
    forall extra, try_combinations (fuel + extra) self combos best = r.
Proof.
  induction combos as [|[a b] combos IH]; intros best r Hrun Hr extra; simpl in *.
  - assumption.
  - destruct (search fuel a b self) as [p|e|] eqn:Hs; cbn [bind] in Hrun.
    + unfold search in *.
      rewrite (search_loop_more_fuel _ _ _ _ _ Hs) by discriminate.
      cbn [bind]. apply IH; assumption.
    + unfold search in *.
      rewrite (search_loop_more_fuel _ _ _ _ _ Hs) by discriminate.
      exact Hrun.
    + congruence.
Qed.

Lemma connect_gates_more_fuel (fuel : nat) (self : circuit_board)
  (pair : key * key) (r : py (list node)) :
  connect_gates fuel self pair = r ->
  r <> OutOfFuel ->
  forall extra, connect_gates (fuel + extra) self pair = r.
Proof.
  unfold connect_gates. intros Hrun Hr extra.
  destruct (dict_getitem (gates self) (fst pair)); cbn [bind] in *; try assumption.
  destruct (node_neighbors self _) as [n1| |]; cbn [bind] in *; try assumption.
  destruct (dict_getitem (gates self) (snd pair)); cbn [bind] in *; try assumption.
  destruct (node_neighbors self _) as [n2| |]; cbn [bind] in *; try assumption.
  rewrite try_departures_combinations in *.
  apply try_combinations_more_fuel; assumption.
Qed.

(** C4, at an input where the source departs from it.  On the board the
    constructor builds for two gates at the ends of a row of 1004
    cells, each gate has one vacant neighbor cell and the 1002 cells
    between the gates are empty, so that the one combination has a
    path, of 1002 cells.  [connect_gates] returns neither that path nor
    the empty list: the search it starts raises [ValueError], however
    many turns it is given, because the path is longer than the default
    1000 of line 49 of [a_star.py], and [connect_gates] lets the
    exception through. *)
Theorem connect_gates_raises_on_far_gates (extra : nat) :
  new_board [(KInt 1, (0, 0, 0)); (KInt 2, (0, 0, 1003))] [(KInt 1, KInt 2)]
            (1, 1, 1004)
  = Ret far_gates
  /\ node_neighbors far_gates (0, 0, 0) = Ret [(0, 0, 1)]
  /\ node_neighbors far_gates (0, 0, 1003) = Ret [(0, 0, 1002)]
  /\ Forall (fun y => get_node (board far_gates) (0, 0, Z.of_nat y) = Ret EMPTY)
            (seq 1 1002)
  /\ connect_gates (1001 + extra) far_gates (KInt 1, KInt 2) = Raise ValueError.
Proof.
  split; [exact far_gates_built|].
  split; [vm_compute; reflexivity|].
  split; [vm_compute; reflexivity|].
  split.
  - apply Forall_forall. intros y Hy.
    assert (Hall : forallb (fun y => match get_node (board far_gates)
                                                   (0, 0, Z.of_nat y) with
                                    | Ret c => String.eqb c EMPTY
                                    | _ => false
                                    end) (seq 1 1002) = true)
      by (vm_compute; reflexivity).
    rewrite forallb_forall in Hall. specialize (Hall y Hy).
    destruct (get_node (board far_gates) (0, 0, Z.of_nat y)); try discriminate.
    apply String.eqb_eq in Hall. congruence.
  - apply connect_gates_more_fuel; [|discriminate].
    vm_compute. reflexivity.
Qed.

(* ================================================================= *)
(** ** Painting a path and clearing it *)

Lemma upd_length {A : Type} (f : A -> A) :
  forall n (l : list A), length (upd n f l) = length l.
Proof.
  induction n as [|n IH]; intros [|a l]; simpl; auto.
Qed.

Lemma nth_upd_same {A : Type} (f : A -> A) (d : A) :
  forall n (l : list A), (n < length l)%nat -> nth n (upd n f l) d = f (nth n l d).
Proof.
  induction n as [|n IH]; intros [|a l] Hn; simpl in *; try lia; auto.
  apply IH. lia.
Qed.

Lemma nth_upd_other {A : Type} (f : A -> A) (d : A) :
  forall n m (l : list A), n <> m -> nth m (upd n f l) d = nth m l d.
Proof.
  induction n as [|n IH]; intros [|m] [|a l] Hn; simpl; auto; try congruence.
Qed.

Lemma upd_upd {A : Type} (f g : A -> A) :
  forall n (l : list A), upd n g (upd n f l) = upd n (fun a => g (f a)) l.
Proof.
  induction n as [|n IH]; intros [|a l]; simpl; auto. rewrite IH. reflexivity.
Qed.

Lemma upd_fix {A : Type} (f : A -> A) :
  forall n (l : list A),
    (forall a, nth_error l n = Some a -> f a = a) -> upd n f l = l.
Proof.
  induction n as [|n IH]; intros [|a l] Hf; simpl in *; auto.
  - rewrite Hf; auto.
  - rewrite IH; auto.
Qed.

(** Rewriting an item into one with the same image leaves the image of
    the list as it was. *)
Lemma map_upd_fix {A B : Type} (F : A -> B) (G : A -> A) :
  forall n (l : list A) (a : A),
    nth_error l n = Some a -> F (G a) = F a -> map F (upd n G l) = map F l.
Proof.
  induction n as [|n IH]; intros [|x l] a; simpl; try discriminate.
  - intros [= ->] ->. reflexivity.
  - intros Hn HF. erewrite IH; eauto.
Qed.

Lemma getitem_inv {A : Type} (l : list A) (i : Z) (a : A) :
  getitem l i = Ret a ->
  exists n, np_index (length l) i = Ret n /\ nth_error l n = Some a.
Proof.
  unfold getitem. destruct (np_index (length l) i) as [n| |]; cbn [bind];
    try discriminate.
  destruct (nth_error l n) as [x|] eqn:E; [|discriminate].
  intros [= <-]. eauto.
Qed.

Lemma getitem_intro {A : Type} (l : list A) (i : Z) (n : nat) (a : A) :
  np_index (length l) i = Ret n -> nth_error l n = Some a -> getitem l i = Ret a.
Proof.
  unfold getitem. intros -> H. cbn [bind]. rewrite H. reflexivity.
Qed.

Lemma getitem_map {A B : Type} (F : A -> B) (l : list A) (i : Z) (b : B) :
  getitem (map F l) i = Ret b ->
  exists n a, np_index (length l) i = Ret n /\ nth_error l n = Some a /\ b = F a.
Proof.
  intros H. apply getitem_inv in H. destruct H as (n & Hi & Hn).
  rewrite length_map in Hi. rewrite nth_error_map in Hn.
  destruct (nth_error l n) as [a|] eqn:E; [|discriminate].
  injection Hn as <-. eauto.
Qed.

Lemma np_where_eq_relabel (name : label) (b : grid) :
  np_where_eq name b = map (map (map (relabel name))) b.
Proof. reflexivity. Qed.

Lemma relabel_name (name : label) : relabel name name = EMPTY.
Proof. unfold relabel, label_eqb. rewrite String.eqb_refl. reflexivity. Qed.

(** Writing the label on a cell that is empty once the label is
    cleared changes nothing of the cleared grid. *)
Lemma set_cell_cleared (name : label) (b : grid) (nd : node) :
  np_trunc name = name ->
  get_node (np_where_eq name b) nd = Ret EMPTY ->
  exists b',
    set_cell b nd name = Ret b' /\ np_where_eq name b' = np_where_eq name b.
Proof.
  intros Hfit. destruct nd as [[z x] y]. rewrite !np_where_eq_relabel.
  unfold get_node. intros H.
  bind_inv H. apply getitem_map in E. destruct E as (iz & plane & Hz & Hplane & ->).
  bind_inv H. apply getitem_map in E. destruct E as (ix & row & Hx & Hrow & ->).
  apply getitem_map in H. destruct H as (iy & c & Hy & Hc & Hempty).
  unfold set_cell. rewrite Hz. cbn [bind].
  rewrite (getitem_intro _ _ _ _ Hz Hplane). cbn [bind]. rewrite Hx. cbn [bind].
  rewrite (getitem_intro _ _ _ _ Hx Hrow). cbn [bind]. rewrite Hy. cbn [bind].
  eexists. split; [reflexivity|]. rewrite np_where_eq_relabel.
  apply (map_upd_fix _ _ _ _ plane Hplane).
  apply (map_upd_fix _ _ _ _ row Hrow).
  apply (map_upd_fix _ _ _ _ c Hc).
  rewrite Hfit, relabel_name. assumption.
Qed.

Lemma paint_cells_cleared (name : label) :
  np_trunc name = name ->
  forall path b,
    Forall (fun nd => get_node (np_where_eq name b) nd = Ret EMPTY) path ->
    exists b',
      paint_cells b path name = Ret b'
      /\ np_where_eq name b' = np_where_eq name b.
Proof.
  intros Hfit. induction path as [|nd path IH]; intros b Hpath; simpl.
  - eauto.
  - inversion Hpath as [|? ? Hnd Hrest]; subst.
    destruct (set_cell_cleared name b nd Hfit Hnd) as (b1 & -> & Hb1). cbn [bind].
    rewrite <- Hb1 in Hrest. destruct (IH b1 Hrest) as (b' & -> & Hb').
    exists b'. split; [reflexivity|]. congruence.
Qed.

Lemma np_where_eq_free (name : label) (b : grid) :
  label_free name b -> np_where_eq name b = b.
Proof.
  unfold label_free. rewrite np_where_eq_relabel. intros H.
  rewrite <- (map_id b) at 2. apply map_ext_in. intros plane Hplane.
  rewrite Forall_forall in H. specialize (H _ Hplane).
  rewrite <- (map_id plane) at 2. apply map_ext_in. intros row Hrow.
  rewrite Forall_forall in H. specialize (H _ Hrow).
  rewrite <- (map_id row) at 2. apply map_ext_in. intros c Hc.
  rewrite Forall_forall in H. specialize (H _ Hc).
  unfold relabel, label_eqb. destruct (String.eqb c name) eqn:E; [|reflexivity].
  apply String.eqb_eq in E. contradiction.
Qed.

(** Painting a path of empty cells with a label the grid does not
    carry, and clearing the label, gives the grid back. *)
Lemma paint_then_clear (name : label) (b : grid) (path : list node) :
  np_trunc name = name ->
  label_free name b ->
  Forall (fun nd => get_node b nd = Ret EMPTY) path ->
  exists b', paint_cells b path name = Ret b' /\ np_where_eq name b' = b.
Proof.
  intros Hfit Hfree Hpath.
  destruct (paint_cells_cleared name Hfit path b) as (b' & Hb' & Heq).
  - rewrite np_where_eq_free; assumption.
  - exists b'. split; [assumption|]. rewrite Heq. apply np_where_eq_free; assumption.
Qed.

(* ================================================================= *)
(** ** The optimizer: one net laid and undone *)

Lemma dict_set_comm {K V : Type} `{Eqb K} (d : dict K V) (k k' : K) (v v' : V) :
  k <> k' -> dict_mem d k = true -> dict_mem d k' = true ->
  dict_set (dict_set d k v) k' v' = dict_set (dict_set d k' v') k v.
Proof.
  intros N. unfold dict_mem.
  induction d as [|[k0 v0] rest IH]; simpl; [discriminate|].
  destruct (eqb k0 k) eqn:E, (eqb k0 k') eqn:E'; simpl; rewrite ?E, ?E'; auto.
  - apply eqb_eq in E, E'. congruence.
  - intros M M'. rewrite IH; auto.
Qed.

Lemma dict_add_get (d d' : dict key Z) (k : key) (delta : Z) :
  dict_add d k delta = Ret d' ->
  exists c, dict_get d k = Some c /\ d' = dict_set d k (c + delta).
Proof.
  unfold dict_add, dict_getitem. destruct (dict_get d k) as [c|]; cbn [bind];
    [|discriminate].
  intros [= <-]. eauto.
Qed.

Lemma dict_add_intro (d : dict key Z) (k : key) (delta c : Z) :
  dict_get d k = Some c -> dict_add d k delta = Ret (dict_set d k (c + delta)).
Proof.
  unfold dict_add, dict_getitem. intros ->. reflexivity.
Qed.

(** Two decrements followed by the two increments of [delete_connection]
    give the dictionary back, item for item. *)
Lemma dict_add_undo (d d1 d2 : dict key Z) (k k' : key) :
  dict_add d k (-1) = Ret d1 ->
  dict_add d1 k' (-1) = Ret d2 ->
  exists d3, dict_add d2 k 1 = Ret d3 /\ dict_add d3 k' 1 = Ret d.
Proof.
  intros H1 H2.
  apply dict_add_get in H1. destruct H1 as (c & Hc & ->).
  apply dict_add_get in H2. destruct H2 as (c' & Hc' & ->).
  assert (Mk : dict_mem d k = true) by (unfold dict_mem; rewrite Hc; reflexivity).
  destruct (eqb k k') eqn:E.
  - apply eqb_eq in E. subst k'.
    rewrite dict_get_set_eq in Hc'. injection Hc' as <-.
    rewrite dict_set_set by assumption.
    eexists. split.
    + apply dict_add_intro. apply dict_get_set_eq.
    + rewrite dict_set_set by assumption.
      erewrite dict_add_intro by apply dict_get_set_eq.
      rewrite dict_set_set by assumption.
      f_equal. apply dict_set_same. rewrite Hc. f_equal. lia.
  - apply eqb_neq in E.
    rewrite dict_get_set_neq in Hc' by assumption.
    assert (Mk' : dict_mem d k' = true) by (unfold dict_mem; rewrite Hc'; reflexivity).
    eexists. split.
    + apply dict_add_intro.
      rewrite dict_get_set_neq by congruence. apply dict_get_set_eq.
    + rewrite (dict_set_comm _ k' k)
        by (rewrite ?dict_mem_set, ?Mk, ?Mk', ?orb_true_r; congruence).
      rewrite dict_set_set by assumption.
      replace (c + -1 + 1) with c by lia.
      rewrite (dict_set_same d k c) by assumption.
      erewrite dict_add_intro by apply dict_get_set_eq.
      rewrite dict_set_set by assumption.
      f_equal. apply dict_set_same. rewrite Hc'. f_equal. lia.
Qed.

Lemma set_store_same (st : opt_state) :
  set_store st (heap st) (self_board st) (self_needs st) = st.
Proof. destruct st; reflexivity. Qed.

Lemma upd_nth_same {A : Type} (d : A) :
  forall n (l : list A), upd n (fun _ => nth n l d) l = l.
Proof.
  induction n as [|n IH]; intros [|a l]; simpl; auto. rewrite IH. reflexivity.
Qed.

(** Painting writes into the array at the address [self.board] holds
    and touches nothing else. *)
Lemma paint_store (env : circuit_board) (name : label) (a : nat) :
  forall path st,
    self_board st = Array a ->
    (a < length (heap st))%nat ->
    paint env st path name
    = (b' <- paint_cells (nth a (heap st) []) path name ;;
       Ret (set_store st (upd a (fun _ => b') (heap st)) (Array a) (self_needs st))).
Proof.
  induction path as [|nd path IH]; intros st Hb Ha; simpl.
  - rewrite upd_nth_same, <- Hb, set_store_same. reflexivity.
  - unfold store_set_node, self_object, deref, set_node. rewrite Hb. cbn [bind board with_board].
    destruct (set_cell (nth a (heap st) []) nd name) as [b1| |]; cbn [bind];
      try reflexivity.
    rewrite IH; simpl; [|reflexivity|rewrite upd_length; assumption].
    rewrite nth_upd_same by assumption.
    destruct (paint_cells b1 path name) as [b2| |]; cbn [bind]; try reflexivity.
    rewrite upd_upd. reflexivity.
Qed.

Lemma list_remove_snoc (i : nat) (l : list nat) :
  ~ In i l -> list_remove i (l ++ [i]) = l.
Proof.
  induction l as [|x l IH]; simpl; intros Hi.
  - rewrite Nat.eqb_refl. reflexivity.
  - destruct (Nat.eqb x i) eqn:E.
    + apply Nat.eqb_eq in E. tauto.
    + rewrite IH; tauto.
Qed.

(** Laying a path and undoing it at once, for a label that fits a
    cell: for use below as well. *)
Lemma lay_then_undo (env : circuit_board) (st : opt_state)
  (a i : nat) (c : key * key) (path : list node) (name : label) :
  self_board st = Array a ->
  (a < length (heap st))%nat ->
  nth_error (connections env) i = Some c ->
  wire_name (length (connections env)) i = Ret name ->
  np_trunc name = name ->
  dict_mem (self_needs st) (fst c) = true ->
  dict_mem (self_needs st) (snd c) = true ->
  ~ In i (completed_wires st) ->
  path <> [] ->
  Forall (fun nd => get_node (nth a (heap st) []) nd = Ret EMPTY) path ->
  label_free name (nth a (heap st) []) ->
  exists st1 st2 painted needs1 needs3,
    lay_path env st i c path = Ret st1
    /\ cells_of (heap st1) (self_board st1) = Some painted
    /\ dict_add (self_needs st) (fst c) (-1) = Ret needs1
    /\ dict_add needs1 (snd c) (-1) = Ret (self_needs st1)
    /\ undo_one env st1 i = Ret st2
    /\ cells_of (heap st2) (self_board st2) = Some (np_where_eq name painted)
    /\ dict_add (self_needs st1) (fst c) 1 = Ret needs3
    /\ dict_add needs3 (snd c) 1 = Ret (self_needs st2)
    /\ cells_of (heap st2) (self_board st2) = cells_of (heap st) (self_board st)
    /\ self_needs st2 = self_needs st
    /\ completed_wires st2 = completed_wires st.
Proof.
  intros Hb Ha Hc Hname Hfit M1 M2 Hi Hpath Hempty Hfree.
  destruct (paint_then_clear name _ path Hfit Hfree Hempty) as (b1 & Hpaint & Hclear).
  unfold dict_mem in M1.
  destruct (dict_get (self_needs st) (fst c)) as [v1|] eqn:G1; [|discriminate].
  pose proof (dict_add_intro _ _ (-1) _ G1) as A1.
  set (needs1 := dict_set (self_needs st) (fst c) (v1 + -1)) in *.
  assert (M2' : dict_mem needs1 (snd c) = true).
  { unfold needs1. rewrite dict_mem_set, M2. apply orb_true_r. }
  unfold dict_mem in M2'.
  destruct (dict_get needs1 (snd c)) as [v2|] eqn:G2; [|discriminate].
  pose proof (dict_add_intro _ _ (-1) _ G2) as A2.
  set (needs2 := dict_set needs1 (snd c) (v2 + -1)) in *.
  destruct (dict_add_undo _ _ _ _ _ A1 A2) as (needs3 & A3 & A4).
  set (st1 := set_store (set_completed_wires st (completed_wires st ++ [i]))
                        (upd a (fun _ => b1) (heap st)) (Array a) needs2).
  assert (Hlay : lay_path env st i c path = Ret st1).
  { unfold lay_path, mark_routed.
    destruct path as [|nd path]; [congruence|].
    change (0 <? length (nd :: path))%nat with true. cbv iota.
    rewrite A1. cbn [bind]. rewrite A2. cbn [bind]. rewrite Hname. cbn [bind].
    rewrite (paint_store env name a); [|exact Hb|exact Ha].
    cbn [heap set_store set_completed_wires]. rewrite Hpaint. reflexivity. }
  assert (Hcells1 : nth a (heap st1) [] = b1).
  { unfold st1. cbn [heap set_store]. apply nth_upd_same. assumption. }
  exists st1.
  eexists. exists b1, needs1, needs3.
  split; [exact Hlay|].
  split; [unfold st1; cbn [cells_of heap self_board set_store]; f_equal;
          apply nth_upd_same; assumption|].
  split; [exact A1|]. split; [exact A2|].
  split.
  { unfold undo_one. rewrite Hname. cbn [bind].
    unfold store_delete_connection, self_object, deref.
    unfold st1 at 1 2. cbn [self_board set_store bind].
    unfold delete_connection, connection_at.
    cbn [connections with_board with_needs needs_connections board bind].
    rewrite Hc. cbn [bind fst snd].
    unfold st1 at 1. cbn [self_needs set_store]. rewrite A3. cbn [bind].
    rewrite A4. cbn [bind]. reflexivity. }
  cbn [cells_of heap self_board set_store set_completed_wires self_needs
       completed_wires needs_connections board with_board with_needs].
  rewrite Hb. cbn [cells_of].
  rewrite app_nth2, Nat.sub_diag by lia. cbn [nth].
  rewrite nth_upd_same by assumption.
  repeat split.
  - exact A3.
  - exact A4.
  - rewrite Hclear. reflexivity.
  - unfold st1. cbn [completed_wires set_store set_completed_wires].
    apply list_remove_snoc. assumption.
Qed.

(** For a label of two characters.  A net whose path is laid on the
    grid (lines 147-153: the connection is marked as routed, both its
    gates need one connection less, and the cells of the path, empty
    until then, take its wire label, which the grid did not carry and
    which fits a cell) and is undone at once (lines 169-170): the undo
    gives exactly the cells carrying the label back to [EMPTY] and adds
    one to both counters, and grid, counters and routed connections are
    as they were before the path was laid. *)
Theorem lay_then_undo_restores (env : circuit_board) (st : opt_state)
  (a i : nat) (c : key * key) (path : list node) (name : label) :
  self_board st = Array a ->
  (a < length (heap st))%nat ->
  nth_error (connections env) i = Some c ->
  wire_name (length (connections env)) i = Ret name ->
  np_trunc name = name ->
  dict_mem (self_needs st) (fst c) = true ->
  dict_mem (self_needs st) (snd c) = true ->
  ~ In i (completed_wires st) ->
  path <> [] ->
  Forall (fun nd => get_node (nth a (heap st) []) nd = Ret EMPTY) path ->
  label_free name (nth a (heap st) []) ->
  exists st1 st2 painted needs1 needs3,
    lay_path env st i c path = Ret st1
    /\ cells_of (heap st1) (self_board st1) = Some painted
    /\ dict_add (self_needs st) (fst c) (-1) = Ret needs1
    /\ dict_add needs1 (snd c) (-1) = Ret (self_needs st1)
    /\ undo_one env st1 i = Ret st2
    /\ cells_of (heap st2) (self_board st2) = Some (np_where_eq name painted)
    /\ dict_add (self_needs st1) (fst c) 1 = Ret needs3
    /\ dict_add needs3 (snd c) 1 = Ret (self_needs st2)
    /\ cells_of (heap st2) (self_board st2) = cells_of (heap st) (self_board st)
    /\ self_needs st2 = self_needs st
    /\ completed_wires st2 = completed_wires st.
Proof.
  apply lay_then_undo.
Qed.

(** The path [connect_gates] returns is made of empty cells. *)
Lemma try_combinations_cells (fuel : nat) (self : circuit_board) :
  forall combos best best',
    (forall a b, In (a, b) combos -> get_node (board self) a = Ret EMPTY) ->
    Forall (fun n => get_node (board self) n = Ret EMPTY) best ->
    try_combinations fuel self combos best = Ret best' ->
    Forall (fun n => get_node (board self) n = Ret EMPTY) best'.
Proof.
  induction combos as [|[a b] combos IH]; intros best best' Hstarts Hbest; simpl.
  - intros [= <-]. assumption.
  - intros H. bind_inv_as H r Hr. eapply IH; [| |exact H].
    + intros a' b' Hin. apply (Hstarts a' b'). right; assumption.
    + destruct r as [p|]; simpl; [|assumption].
      assert (Hp : Forall (fun n => get_node (board self) n = Ret EMPTY) p).
      { apply search_cells in Hr. eapply Forall_impl; [|exact Hr].
        intros n [->|Hn]; [|assumption]. apply (Hstarts a b). left; reflexivity. }
      destruct best; [assumption|]. destruct (_ <? _)%nat; assumption.
Qed.

Lemma connect_gates_cells (fuel : nat) (self : circuit_board) (pair : key * key)
  (best : list node) :
  connect_gates fuel self pair = Ret best ->
  Forall (fun n => get_node (board self) n = Ret EMPTY) best.
Proof.
  unfold connect_gates. intros H.
  bind_inv_as H loc1 Hloc1. bind_inv_as H n1 Hn1.
  bind_inv_as H loc2 Hloc2. bind_inv_as H n2 Hn2.
  rewrite try_departures_combinations in H.
  eapply try_combinations_cells; [|constructor|exact H].
  intros a b Hin. apply in_prod_iff in Hin. destruct Hin as [Ha _].
  apply (edge_unit_step self loc1). exists n1. auto.
Qed.

(** The labels of the first 99 connections have two characters, which
    is what a cell of the array holds. *)
Lemma wire_name_fits (n i : nat) (name : label) :
  (i < 99)%nat -> wire_name n i = Ret name -> np_trunc name = name.
Proof.
  intros Hi. unfold wire_name. destruct (i <? n)%nat; [|discriminate].
  intros [= <-].
  assert (Hall : forallb (fun j => String.eqb (np_trunc (fmt02 (S j))) (fmt02 (S j)))
                         (seq 0 99) = true) by (vm_compute; reflexivity).
  rewrite forallb_forall in Hall. apply String.eqb_eq, Hall, in_seq. lia.
Qed.

(** In the optimizer itself: a connection among the first 99 that a
    turn of the routing loop routes, on a grid that did not carry its
    label, is undone without a trace. *)
Corollary route_then_undo (fuel : nat) (env : circuit_board)
  (st st1 : opt_state) (a i : nat) :
  self_board st = Array a ->
  (a < length (heap st))%nat ->
  (i < 99)%nat ->
  label_free (fmt02 (S i)) (nth a (heap st) []) ->
  route_one fuel env st i = Ret st1 ->
  completed_wires st1 <> completed_wires st ->
  exists st2,
    undo_one env st1 i = Ret st2
    /\ cells_of (heap st2) (self_board st2) = cells_of (heap st) (self_board st)
    /\ self_needs st2 = self_needs st
    /\ completed_wires st2 = completed_wires st.
Proof.
  intros Hb Ha Hi Hfree Hroute Hrouted. unfold route_one in Hroute.
  destruct (mem i (completed_wires st)) eqn:Hmem; [congruence|].
  bind_inv_as Hroute self Hself. bind_inv_as Hroute c Hc.
  bind_inv_as Hroute path Hpath.
  unfold self_object, deref in Hself. rewrite Hb in Hself. cbn [bind] in Hself.
  injection Hself as <-.
  unfold connection_at in Hc. cbn [connections with_board with_needs] in Hc.
  destruct (nth_error (connections env) i) as [c'|] eqn:Hnth; [|discriminate].
  injection Hc as ->.
  apply connect_gates_cells in Hpath. cbn [board with_board] in Hpath.
  pose proof Hroute as Hlay. unfold lay_path in Hroute.
  destruct path as [|nd path].
  { cbn in Hroute. bind_inv_as Hroute name Hname. congruence. }
  change (0 <? length (nd :: path))%nat with true in Hroute. cbv iota in Hroute.
  bind_inv_as Hroute stm Hmark. bind_inv_as Hroute name Hname.
  unfold mark_routed in Hmark.
  bind_inv_as Hmark needs1 A1. bind_inv_as Hmark needs2 A2.
  pose proof (dict_add_get _ _ _ _ A1) as (v1 & G1 & E1).
  pose proof (dict_add_get _ _ _ _ A2) as (v2 & G2 & E2).
  assert (M1 : dict_mem (self_needs st) (fst c) = true)
    by (unfold dict_mem; rewrite G1; reflexivity).
  assert (M2 : dict_mem (self_needs st) (snd c) = true).
  { assert (M : dict_mem needs1 (snd c) = true)
      by (unfold dict_mem; rewrite G2; reflexivity).
    rewrite E1, dict_mem_set in M.
    destruct (eqb (fst c) (snd c)) eqn:E; [|exact M].
    apply eqb_eq in E. rewrite <- E. exact M1. }
  assert (Hname' : name = fmt02 (S i)).
  { unfold wire_name in Hname. destruct (i <? _)%nat; congruence. }
  destruct (lay_then_undo env st a i c (nd :: path) name Hb Ha Hnth Hname
              (wire_name_fits _ _ _ Hi Hname) M1 M2)
    as (st1' & st2 & painted & n1' & n3' & Hlay' & _ & _ & _ & Hundo & _ & _ & _
        & Hcells & Hneeds & Hdone).
  - apply mem_false. exact Hmem.
  - discriminate.
  - exact Hpath.
  - rewrite Hname'. exact Hfree.
  - assert (st1' = st1) by congruence. subst st1'. eauto.
Qed.

Lemma facing_start_initial : initial_state 20 facing_gates [] = Ret facing_start.
Proof. vm_compute. reflexivity. Qed.

Lemma lay_then_undo_restores_witness :
  exists st1 st2 painted needs1 needs3,
    lay_path facing_gates facing_start 0 (KInt 1, KInt 2) [(0, 1, 2)] = Ret st1
    /\ cells_of (heap st1) (self_board st1) = Some painted
    /\ dict_add (self_needs facing_start) (KInt 1) (-1) = Ret needs1
    /\ dict_add needs1 (KInt 2) (-1) = Ret (self_needs st1)
    /\ undo_one facing_gates st1 0 = Ret st2
    /\ cells_of (heap st2) (self_board st2) = Some (np_where_eq "01"%string painted)
    /\ dict_add (self_needs st1) (KInt 1) 1 = Ret needs3
    /\ dict_add needs3 (KInt 2) 1 = Ret (self_needs st2)
    /\ cells_of (heap st2) (self_board st2)
       = cells_of (heap facing_start) (self_board facing_start)
    /\ self_needs st2 = self_needs facing_start
    /\ completed_wires st2 = completed_wires facing_start.
Proof.
  apply (lay_then_undo_restores facing_gates facing_start 0 0 (KInt 1, KInt 2)
           [(0, 1, 2)] "01"%string).
  - reflexivity.
  - simpl. lia.
  - reflexivity.
  - reflexivity.
  - reflexivity.
  - reflexivity.
  - reflexivity.
  - simpl. tauto.
  - discriminate.
  - repeat constructor.
  - repeat constructor; discriminate.
Defined.

(** C3, at an input where the source departs from it.  On the board of
    a hundred connections the last one has the label ["100"] (line
    138); a cell of the array holds two characters (line 49), so that
    routing it writes ["10"] on the cell of its path (lines 76, 153).
    Undoing it at once looks for the cells equal to ["100"] (line 82)
    and finds none: the counters and the list of routed connections
    are as before the path was laid, and the grid is not, the cell
    keeps ["10"].  It is the undo of the tenth connection, whose label
    is ["10"], that would empty it. *)
Theorem undo_leaves_the_hundredth_net :
  exists st0 st1 st2 before painted after,
    wire_name (length (connections hundred_nets)) 99 = Ret "100"%string
    /\ initial_state 10 hundred_nets [] = Ret st0
    /\ cells_of (heap st0) (self_board st0) = Some before
    /\ route_one 10 hundred_nets st0 99 = Ret st1
    /\ completed_wires st1 = [99%nat]
    /\ cells_of (heap st1) (self_board st1) = Some painted
    /\ undo_one hundred_nets st1 99 = Ret st2
    /\ cells_of (heap st2) (self_board st2) = Some after
    /\ before = [[[GATE; GATE; EMPTY; GATE; EMPTY; GATE]]]
    /\ painted = [[[GATE; GATE; EMPTY; GATE; "10"%string; GATE]]]
    /\ after = painted
    /\ self_needs st2 = self_needs st0
    /\ completed_wires st2 = completed_wires st0
    /\ wire_name (length (connections hundred_nets)) 9 = Ret "10"%string
    /\ np_where_eq "10"%string painted = before.
Proof.
  do 6 eexists.
  split; [vm_compute; reflexivity|].
  split; [vm_compute; reflexivity|].
  split; [vm_compute; reflexivity|].
  split; [vm_compute; reflexivity|].
  split; [vm_compute; reflexivity|].
  split; [vm_compute; reflexivity|].
  split; [vm_compute; reflexivity|].
  split; [vm_compute; reflexivity|].
  split; [reflexivity|].
  split; [reflexivity|].
  split; [reflexivity|].
  split; [vm_compute; reflexivity|].
  split; [vm_compute; reflexivity|].
  split; vm_compute; reflexivity.
Qed.

(* ================================================================= *)
(** ** The optimizer: the counters of the gates *)

Lemma incidence_nonneg (c : key * key) (g : key) : 0 <= incidence c g <= 2.
Proof.
  unfold incidence. destruct (key_eqb (fst c) g), (key_eqb (snd c) g); lia.
Qed.

Lemma routed_ends_bounds (conns : list (key * key)) (completed : list nat) (g : key) :
  forall k, 0 <= routed_ends k conns completed g <= degree conns g.
Proof.
  induction conns as [|c rest IH]; intros k; simpl; [lia|].
  specialize (IH (S k)). pose proof (incidence_nonneg c g).
  destruct (mem k completed); lia.
Qed.

(** With two different gates at the ends of every connection, the
    routed ends at a gate count the routed connections incident to it. *)
Lemma routed_ends_nets (conns : list (key * key)) (completed : list nat) (g : key) :
  Forall (fun c => fst c <> snd c) conns ->
  forall k, routed_ends k conns completed g
            = Z.of_nat (routed_nets k conns completed g).
Proof.
  induction 1 as [|c rest Hc _ IH]; intros k; simpl; [reflexivity|].
  rewrite Nat2Z.inj_add, <- IH. f_equal. unfold incidence.
  destruct (mem k completed); simpl; [|reflexivity].
  destruct (key_eqb (fst c) g) eqn:E1, (key_eqb (snd c) g) eqn:E2; simpl;
    try reflexivity.
  apply key_eqb_eq in E1, E2. congruence.
Qed.

Lemma count_gate_get (counts : dict key Z) (n g : key) :
  dict_get (count_gate counts n) g
  = if key_eqb n g
    then Some (match dict_get counts g with Some v => v + 1 | None => 1 end)
    else dict_get counts g.
Proof.
  unfold count_gate. destruct (key_eqb n g) eqn:E.
  - apply key_eqb_eq in E. subst g.
    destruct (dict_get counts n); apply dict_get_set_eq.
  - assert (n <> g) by (intros ->; rewrite (proj2 (key_eqb_eq g g) eq_refl) in E;
                         discriminate).
    destruct (dict_get counts n); apply dict_get_set_neq; assumption.
Qed.

Lemma tally_tally (x : option Z) (d1 d2 : Z) :
  0 <= d1 -> 0 <= d2 -> tally (tally x d1) d2 = tally x (d1 + d2).
Proof.
  intros H1 H2. destruct x as [v|]; simpl.
  - f_equal. lia.
  - destruct (Z.eqb_spec d1 0) as [->|N1]; simpl.
    + reflexivity.
    + destruct (Z.eqb_spec (d1 + d2) 0); [lia|reflexivity].
Qed.

Lemma count_gate_tally (counts : dict key Z) (n g : key) :
  dict_get (count_gate counts n) g
  = tally (dict_get counts g) (if key_eqb n g then 1 else 0).
Proof.
  rewrite count_gate_get. destruct (key_eqb n g), (dict_get counts g); simpl;
    try reflexivity.
  rewrite Z.add_0_r. reflexivity.
Qed.

Lemma gate_connectors_from (conns : list (key * key)) (g : key) :
  forall counts,
    dict_get (fold_left (fun counts c => count_gate (count_gate counts (fst c)) (snd c))
                        conns counts) g
    = tally (dict_get counts g) (degree conns g).
Proof.
  induction conns as [|c rest IH]; intros counts; simpl.
  - destruct (dict_get counts g); simpl; [f_equal; lia|reflexivity].
  - rewrite IH, !count_gate_tally.
    pose proof (routed_ends_bounds rest [] g 0) as Hd.
    assert (H1 : 0 <= (if key_eqb (fst c) g then 1 else 0))
      by (destruct (key_eqb (fst c) g); lia).
    assert (H2 : 0 <= (if key_eqb (snd c) g then 1 else 0))
      by (destruct (key_eqb (snd c) g); lia).
    rewrite !tally_tally by lia. unfold incidence. f_equal. lia.
Qed.

(** [gate_connectors] gives every gate of the connection list its
    total count. *)
Lemma gate_connectors_degree (conns : list (key * key)) (g : key) :
  dict_get (gate_connectors conns) g
  = if degree conns g =? 0 then None else Some (degree conns g).
Proof.
  unfold gate_connectors. rewrite gate_connectors_from. reflexivity.
Qed.

Lemma dict_add_twice_get (d d1 d2 : dict key Z) (a b : key) (delta : Z) :
  dict_add d a delta = Ret d1 ->
  dict_add d1 b delta = Ret d2 ->
  forall g,
    dict_get d2 g
    = option_map (fun v => v + delta * incidence (a, b) g) (dict_get d g).
Proof.
  intros H1 H2 g.
  apply dict_add_get in H1. destruct H1 as (va & Ha & ->).
  apply dict_add_get in H2. destruct H2 as (vb & Hb & ->).
  rewrite dict_get_set in Hb. rewrite !dict_get_set. unfold incidence.
  cbn [fst snd eqb Eqb_key] in *.
  destruct (key_eqb b g) eqn:Eb.
  - apply key_eqb_eq in Eb. subst g.
    destruct (key_eqb a b) eqn:Eab.
    + apply key_eqb_eq in Eab. subst b. injection Hb as <-.
      rewrite Ha. simpl. f_equal. lia.
    + rewrite Hb. simpl. f_equal. lia.
  - destruct (key_eqb a g) eqn:Ea.
    + apply key_eqb_eq in Ea. subst g. rewrite Ha. simpl. f_equal. lia.
    + destruct (dict_get d g); simpl; [f_equal; lia|reflexivity].
Qed.

Lemma routed_ends_ext (conns : list (key * key)) (l1 l2 : list nat) (g : key) :
  forall k,
    (forall j, (k <= j)%nat -> mem j l1 = mem j l2) ->
    routed_ends k conns l1 g = routed_ends k conns l2 g.
Proof.
  induction conns as [|c rest IH]; intros k Hext; simpl; [reflexivity|].
  rewrite (Hext k) by lia. rewrite (IH (S k)); [reflexivity|].
  intros j Hj. apply Hext. lia.
Qed.

(** One more connection routed: its ends are added. *)
Lemma routed_ends_flip (conns : list (key * key)) (l1 l2 : list nat)
  (i : nat) (c : key * key) (g : key) :
  (forall j, j <> i -> mem j l2 = mem j l1) ->
  mem i l1 = false ->
  mem i l2 = true ->
  forall k,
    (k <= i)%nat ->
    nth_error conns (i - k) = Some c ->
    routed_ends k conns l2 g = routed_ends k conns l1 g + incidence c g.
Proof.
  intros Hother H1 H2.
  induction conns as [|c0 rest IH]; intros k Hk Hc; simpl.
  - destruct (i - k)%nat; discriminate.
  - destruct (Nat.eq_dec k i) as [->|Hne].
    + rewrite Nat.sub_diag in Hc. injection Hc as ->.
      rewrite H1, H2.
      rewrite (routed_ends_ext rest l2 l1); [lia|].
      intros j Hj. apply Hother. lia.
    + rewrite (Hother k) by assumption.
      rewrite (IH (S k)); [lia|lia|].
      replace (i - k)%nat with (S (i - S k)) in Hc by lia. exact Hc.
Qed.

Lemma mem_snoc (l : list nat) (i j : nat) :
  mem j (l ++ [i]) = mem j l || Nat.eqb i j.
Proof.
  induction l as [|x l IH]; simpl.
  - apply orb_false_r.
  - rewrite IH. apply orb_assoc.
Qed.

Lemma mem_list_remove (l : list nat) (j x : nat) :
  NoDup l ->
  mem x (list_remove j l) = if Nat.eqb j x then false else mem x l.
Proof.
  induction 1 as [|y l Hy Hnd IH]; simpl.
  - destruct (Nat.eqb j x); reflexivity.
  - destruct (Nat.eqb y j) eqn:E; simpl.
    + apply Nat.eqb_eq in E. subst y.
      destruct (Nat.eqb j x) eqn:E'; [|reflexivity].
      apply Nat.eqb_eq in E'. subst x. apply mem_false. assumption.
    + rewrite IH. destruct (Nat.eqb j x) eqn:E'; [|reflexivity].
      apply Nat.eqb_eq in E'. subst x. rewrite E. reflexivity.
Qed.

Lemma NoDup_list_remove (l : list nat) (j : nat) :
  NoDup l -> NoDup (list_remove j l).
Proof.
  induction 1 as [|y l Hy Hnd IH]; simpl; [constructor|].
  destruct (Nat.eqb y j); [assumption|].
  constructor; [|assumption]. intros Hin. apply In_list_remove in Hin. contradiction.
Qed.

(** The decrements of a routing pass keep the counters right. *)
Lemma mark_routed_counters (env : circuit_board) (st st' : opt_state)
  (i : nat) (c : key * key) :
  counters_ok env st ->
  nth_error (connections env) i = Some c ->
  mem i (completed_wires st) = false ->
  mark_routed st i c = Ret st' ->
  counters_ok env st'.
Proof.
  intros [Hcount Hkeys Hnd Hrange] Hc Hi. unfold mark_routed. intros H.
  bind_inv H. bind_inv H. injection H as <-.
  pose proof (dict_add_twice_get _ _ _ _ _ _ E E0) as Hget.
  assert (Hflip : forall g,
    routed_ends 0 (connections env) (completed_wires st ++ [i]) g
    = routed_ends 0 (connections env) (completed_wires st) g + incidence c g).
  { intros g. apply (routed_ends_flip _ _ _ i); try lia.
    - intros j Hj. rewrite mem_snoc.
      destruct (Nat.eqb_spec i j); [congruence|apply orb_false_r].
    - assumption.
    - rewrite mem_snoc, Nat.eqb_refl. apply orb_true_r.
    - rewrite Nat.sub_0_r. assumption. }
  constructor; cbn [self_needs completed_wires set_store set_completed_wires].
  - intros g v. rewrite Hget, Hflip.
    destruct (dict_get (self_needs st) g) as [v0|] eqn:G; cbn [option_map];
      [|discriminate].
    intros Hv.
    assert (Hv' : v = v0 + -1 * incidence (fst c, snd c) g) by congruence.
    rewrite Hv', (Hcount g v0 G).
    destruct c as [c1 c2]. cbn [fst snd]. lia.
  - intros g Hg. specialize (Hkeys g Hg). unfold dict_mem in *. rewrite Hget.
    destruct (dict_get (self_needs st) g); [reflexivity|discriminate].
  - apply NoDup_app; [assumption|repeat constructor; simpl; tauto|].
    intros x Hx [<-|[]]. apply mem_false in Hi. contradiction.
  - intros j Hj. apply in_app_iff in Hj. destruct Hj as [Hj|[<-|[]]]; auto.
    apply nth_error_Some. congruence.
Qed.

Lemma paint_frame (env : circuit_board) (name : label) :
  forall path st st',
    paint env st path name = Ret st' ->
    exists h, st' = set_store st h (self_board st) (self_needs st).
Proof.
  induction path as [|nd path IH]; intros st st'; simpl.
  - intros [= <-]. exists (heap st). symmetry. apply set_store_same.
  - intros H. bind_inv H. apply IH in H. destruct H as (h & ->).
    unfold store_set_node in E. bind_inv E. bind_inv E.
    destruct (self_board st); [|discriminate]. injection E as <-.
    exists h. reflexivity.
Qed.

(** What one turn of the routing loop does to the state: nothing, or
    connection [i] joins the routed ones, both its gates need one
    connection less, and the store is written. *)
Lemma route_one_cases (fuel : nat) (env : circuit_board) (st st' : opt_state)
  (i : nat) :
  route_one fuel env st i = Ret st' ->
  st' = st
  \/ exists c st1 h,
       mem i (completed_wires st) = false
       /\ nth_error (connections env) i = Some c
       /\ mark_routed st i c = Ret st1
       /\ st' = set_store st1 h (self_board st) (self_needs st1).
Proof.
  unfold route_one. destruct (mem i (completed_wires st)) eqn:Hi.
  { intros [= <-]. auto. }
  intros H. bind_inv H. bind_inv H. bind_inv H.
  assert (Hc : nth_error (connections env) i = Some a0).
  { unfold self_object in E. bind_inv E. injection E as <-.
    unfold connection_at in E0. simpl in E0.
    destruct (nth_error (connections env) i); [congruence|discriminate]. }
  unfold lay_path in H.
  destruct (0 <? length a1)%nat eqn:Hlen.
  - bind_inv H. bind_inv H. apply paint_frame in H. destruct H as (h & ->).
    right. exists a0, a2, h. repeat split; try assumption.
    unfold mark_routed in E2. bind_inv E2. bind_inv E2. injection E2 as <-.
    reflexivity.
  - cbn [bind] in H. bind_inv H.
    apply Nat.ltb_ge in Hlen. destruct a1; [|simpl in Hlen; lia].
    simpl in H. left. congruence.
Qed.

Lemma set_store_counters (env : circuit_board) (st : opt_state) (h : list grid)
  (b : pyobj) :
  counters_ok env st -> counters_ok env (set_store st h b (self_needs st)).
Proof. intros [H1 H2 H3 H4]. constructor; assumption. Qed.

Lemma route_one_counters (fuel : nat) (env : circuit_board) (st st' : opt_state)
  (i : nat) :
  counters_ok env st -> route_one fuel env st i = Ret st' -> counters_ok env st'.
Proof.
  intros Hok H. apply route_one_cases in H.
  destruct H as [->|(c & st1 & h & Hi & Hc & Hmark & ->)]; [assumption|].
  apply set_store_counters. eapply mark_routed_counters; eauto.
Qed.

Lemma routing_pass_counters (fuel : nat) (env : circuit_board) :
  forall order st st',
    counters_ok env st ->
    routing_pass fuel env st order = Ret st' ->
    counters_ok env st'.
Proof.
  induction order as [|i order IH]; intros st st' Hok; simpl.
  - intros [= <-]. assumption.
  - intros H. bind_inv H. eapply IH; [|exact H].
    eapply route_one_counters; eauto.
Qed.

(** What undoing connection [j] does to the state. *)
Lemma undo_one_cases (env : circuit_board) (st st' : opt_state) (j : nat) :
  undo_one env st j = Ret st' ->
  exists a c name needs1 needs2,
    self_board st = Array a
    /\ nth_error (connections env) j = Some c
    /\ wire_name (length (connections env)) j = Ret name
    /\ dict_add (self_needs st) (fst c) 1 = Ret needs1
    /\ dict_add needs1 (snd c) 1 = Ret needs2
    /\ st' = set_completed_wires
               (set_store st (heap st ++ [np_where_eq name (nth a (heap st) [])])
                          (Array (length (heap st))) needs2)
               (list_remove j (completed_wires st)).
Proof.
  unfold undo_one. intros H.
  bind_inv_as H name Hname. bind_inv_as H st1 Hdel. injection H as <-.
  unfold store_delete_connection in Hdel.
  bind_inv_as Hdel self Hself. bind_inv_as Hdel self' Hself'.
  injection Hdel as <-.
  unfold self_object, deref in Hself.
  destruct (self_board st) as [addr|l] eqn:Hb; cbn [bind] in Hself; [|discriminate].
  injection Hself as <-.
  unfold delete_connection, connection_at in Hself'.
  cbn [connections with_board with_needs needs_connections board] in Hself'.
  destruct (nth_error (connections env) j) as [c|] eqn:Hc; cbn [bind] in Hself';
    [|discriminate].
  bind_inv_as Hself' needs1 A1. bind_inv_as Hself' needs2 A2.
  injection Hself' as <-.
  exists addr, c, name, needs1, needs2. repeat split; assumption.
Qed.

(** The increments of an undo keep the counters right. *)
Lemma undo_one_counters (env : circuit_board) (st st' : opt_state) (j : nat) :
  counters_ok env st ->
  In j (completed_wires st) ->
  undo_one env st j = Ret st' ->
  counters_ok env st'.
Proof.
  intros [Hcount Hkeys Hnd Hrange] Hj H. apply undo_one_cases in H.
  destruct H as (a & c & name & needs1 & needs2 & Hb & Hc & Hname & A1 & A2 & ->).
  pose proof (dict_add_twice_get _ _ _ _ _ _ A1 A2) as Hget.
  assert (Hflip : forall g,
    routed_ends 0 (connections env) (completed_wires st) g
    = routed_ends 0 (connections env) (list_remove j (completed_wires st)) g
      + incidence c g).
  { intros g. apply (routed_ends_flip _ _ _ j); try lia.
    - intros x Hx. rewrite mem_list_remove by assumption.
      destruct (Nat.eqb_spec j x); [congruence|reflexivity].
    - rewrite mem_list_remove, Nat.eqb_refl by assumption. reflexivity.
    - apply mem_In. assumption.
    - rewrite Nat.sub_0_r. assumption. }
  constructor; cbn [self_needs completed_wires set_store set_completed_wires].
  - intros g v. rewrite Hget.
    destruct (dict_get (self_needs st) g) as [v0|] eqn:G; cbn [option_map];
      [|discriminate].
    intros Hv.
    assert (Hv' : v = v0 + 1 * incidence (fst c, snd c) g) by congruence.
    rewrite Hv', (Hcount g v0 G), (Hflip g).
    destruct c as [c1 c2]. cbn [fst snd]. lia.
  - intros g Hg. specialize (Hkeys g Hg). unfold dict_mem in *. rewrite Hget.
    destruct (dict_get (self_needs st) g); [reflexivity|discriminate].
  - apply NoDup_list_remove. assumption.
  - intros x Hx. apply Hrange. eapply In_list_remove. exact Hx.
Qed.

Lemma In_list_remove_other (l : list nat) (j x : nat) :
  In x l -> x <> j -> In x (list_remove j l).
Proof.
  induction l as [|y l IH]; simpl; [tauto|].
  intros [->|Hin] Hne.
  - destruct (Nat.eqb_spec x j); [contradiction|left; reflexivity].
  - destruct (Nat.eqb y j); [assumption|right; auto].
Qed.

Lemma undo_all_counters (env : circuit_board) :
  forall to_delete st st',
    counters_ok env st ->
    NoDup to_delete ->
    incl to_delete (completed_wires st) ->
    undo_all env st to_delete = Ret st' ->
    counters_ok env st'.
Proof.
  induction to_delete as [|j rest IH]; intros st st' Hok Hnd Hincl; simpl.
  - intros [= <-]. assumption.
  - intros H. bind_inv H. inversion Hnd as [|? ? Hj Hrest]; subst.
    eapply IH; [| |  |exact H].
    + eapply undo_one_counters; eauto. apply Hincl. left; reflexivity.
    + assumption.
    + intros x Hx. apply undo_one_cases in E.
      destruct E as (? & ? & ? & ? & ? & _ & _ & _ & _ & _ & ->).
      cbn [completed_wires set_completed_wires].
      apply In_list_remove_other.
      * apply Hincl. right; assumption.
      * intros ->. contradiction.
Qed.

Lemma remove_nth_In {A : Type} (l : list A) :
  forall j x, In x (remove_nth j l) -> In x l.
Proof.
  induction l as [|a l IH]; intros [|j] x; simpl; auto.
  intros [->|H]; eauto.
Qed.

Lemma remove_nth_NoDup {A : Type} (l : list A) :
  forall j x,
    NoDup l -> nth_error l j = Some x ->
    NoDup (remove_nth j l) /\ ~ In x (remove_nth j l).
Proof.
  induction l as [|a l IH]; intros [|j] x Hnd; simpl; try discriminate.
  - intros [= <-]. inversion Hnd; auto.
  - intros Hx. inversion Hnd as [|? ? Ha Hl]; subst.
    destruct (IH j x Hl Hx) as [Hnd' Hnot]. split.
    + constructor; [|assumption]. intros Hin. apply remove_nth_In in Hin. contradiction.
    + intros [->|Hin]; [|contradiction].
      apply nth_error_In in Hx. contradiction.
Qed.

(** A sample holds members of the population, no position twice. *)
Lemma sample_loop_distinct {A : Type} :
  forall k (pool : list A) (r : list nat) xs r',
    sample_loop k pool r = (xs, r') ->
    NoDup pool ->
    NoDup xs /\ incl xs pool.
Proof.
  induction k as [|k IH]; intros pool r xs r'; simpl.
  - intros [= <- <-] _. split; [constructor|intros x []].
  - destruct (nth_error pool (hd 0%nat r mod length pool)) as [x|] eqn:Hx.
    + destruct (sample_loop k _ (tl r)) as [ys r2] eqn:Hrec.
      intros [= <- <-] Hnd.
      destruct (remove_nth_NoDup _ _ _ Hnd Hx) as [Hnd' Hnot].
      destruct (IH _ _ _ _ Hrec Hnd') as [Hys Hincl]. split.
      * constructor; [|assumption]. intros Hin. apply Hnot, Hincl, Hin.
      * intros y [<-|Hy]; [eapply nth_error_In; eauto|].
        eapply remove_nth_In, Hincl, Hy.
    + intros [= <- <-] _. split; [constructor|intros x []].
Qed.

Lemma perturb_counters (env : circuit_board) (st st' : opt_state) :
  counters_ok env st -> perturb env st = Ret st' -> counters_ok env st'.
Proof.
  intros Hok. unfold perturb. intros H.
  bind_inv H. destruct a as [to_delete r1]. bind_inv H. bind_inv H.
  destruct a0 as [order r2]. injection H as <-.
  unfold random_sample in E. destruct (_ <? _)%nat; [discriminate|].
  assert (E' : sample_loop v_opt (completed_wires st) (rng st) = (to_delete, r1))
    by congruence.
  destruct (sample_loop_distinct _ _ _ _ _ E' (ok_nodup _ _ Hok)) as [Hnd Hincl].
  pose proof (undo_all_counters env _ _ _ Hok Hnd Hincl E0) as [H1 H2 H3 H4].
  constructor; assumption.
Qed.

Lemma save_improvement_counters (env : circuit_board) (st : opt_state) :
  counters_ok env st -> counters_ok env (save_improvement st).
Proof.
  intros [H1 H2 H3 H4]. unfold save_improvement.
  destruct (_ <? _)%nat; constructor; assumption.
Qed.

Lemma set_completed_previously_counters (env : circuit_board) (st : opt_state)
  (n : nat) :
  counters_ok env st -> counters_ok env (set_completed_previously st n).
Proof. intros [H1 H2 H3 H4]. constructor; assumption. Qed.

Lemma loop_body_counters (fuel : nat) (env : circuit_board) (st st' : opt_state) :
  counters_ok env st ->
  (loop_body fuel env st = Ret (Continue st')
   \/ loop_body fuel env st = Ret (Break st')) ->
  counters_ok env st'.
Proof.
  intros Hok. unfold loop_body.
  destruct (routing_pass fuel env st (ordering st)) as [st1| |] eqn:Hpass;
    cbn [bind]; [|intros [H|H]; discriminate..].
  pose proof (save_improvement_counters env _
                (routing_pass_counters fuel env _ _ _ Hok Hpass)) as Hok2.
  destruct (_ =? _)%nat.
  - destruct (_ =? _)%nat.
    + intros [H|H]; [discriminate|]. injection H as <-. assumption.
    + destruct (perturb env _) as [st3| |] eqn:Hp; cbn [bind];
        [|intros [H|H]; discriminate..].
      intros [H|H]; [|discriminate]. injection H as <-.
      apply set_completed_previously_counters. eapply perturb_counters; eauto.
  - intros [H|H]; [|discriminate]. injection H as <-.
    apply set_completed_previously_counters. assumption.
Qed.

Lemma place_gates_frame :
  forall gs self self',
    place_gates self gs = Ret self' ->
    connections self' = connections self /\ dimensions self' = dimensions self.
Proof.
  induction gs as [|[gate loc] gs IH]; intros self self'; simpl.
  - intros [= <-]. auto.
  - intros H. bind_inv_as H self1 Hset. apply IH in H.
    unfold set_node in Hset. bind_inv_as Hset b Hb. injection Hset as <-.
    exact H.
Qed.

Lemma fill_neighbor_of_frame :
  forall gs self self',
    fill_neighbor_of self gs = Ret self' ->
    connections self' = connections self
    /\ needs_connections self' = needs_connections self.
Proof.
  induction gs as [|[gate loc] gs IH]; intros self self'; simpl.
  - intros [= <-]. auto.
  - intros H. bind_inv_as H nbs Hn. apply IH in H. exact H.
Qed.

Lemma fill_free_connectors_frame :
  forall gs self self',
    fill_free_connectors self gs = Ret self' ->
    connections self' = connections self
    /\ needs_connections self' = needs_connections self.
Proof.
  induction gs as [|[gate loc] gs IH]; intros self self'; simpl.
  - intros [= <-]. auto.
  - intros H. bind_inv_as H nbs Hn. apply IH in H. exact H.
Qed.

(** A board as constructed holds the connection list it was given and
    the count of every gate in it. *)
Lemma new_board_counts (gs : dict key node) (conns : list (key * key))
  (dims : Z * Z * Z) (self : circuit_board) :
  new_board gs conns dims = Ret self ->
  connections self = conns /\ needs_connections self = gate_connectors conns.
Proof.
  unfold new_board. intros H.
  bind_inv_as H b Hb. bind_inv_as H self1 Hplace. bind_inv_as H self2 Hfill.
  apply fill_free_connectors_frame in H. cbn in H.
  apply fill_neighbor_of_frame in Hfill. cbn in Hfill.
  apply place_gates_frame in Hplace. cbn in Hplace.
  destruct H as [-> ->], Hfill as [-> ->], Hplace as [-> _]. auto.
Qed.

Lemma routed_ends_nil (conns : list (key * key)) (g : key) :
  forall k, routed_ends k conns [] g = 0.
Proof.
  induction conns as [|c rest IH]; intros k; simpl; [reflexivity|].
  rewrite IH. reflexivity.
Qed.

Lemma initial_state_counters (fuel : nat) (self : circuit_board) (r : list nat)
  (st0 : opt_state) :
  needs_connections self = gate_connectors (connections self) ->
  initial_state fuel self r = Ret st0 ->
  counters_ok self st0.
Proof.
  intros Hneeds. unfold initial_state. intros H.
  bind_inv_as H ds Hds. injection H as <-.
  constructor; cbn [self_needs completed_wires].
  - intros g v. rewrite Hneeds, gate_connectors_degree, routed_ends_nil.
    destruct (Z.eqb_spec (degree (connections self) g) 0); [discriminate|].
    intros [= <-]. lia.
  - intros g Hg. unfold dict_mem. rewrite Hneeds, gate_connectors_degree.
    destruct (Z.eqb_spec (degree (connections self) g) 0); [lia|reflexivity].
  - constructor.
  - intros i [].
Qed.

Lemma pass_head_counters (fuel : nat) (env : circuit_board) (st0 st : opt_state) :
  counters_ok env st0 -> pass_head fuel env st0 st -> counters_ok env st.
Proof.
  intros Hok. induction 1 as [|s s' _ IH _ Hbody]; [assumption|].
  eapply loop_body_counters; eauto.
Qed.

Lemma main_loop_counters (fuel : nat) (env : circuit_board) :
  forall turns st fin,
    counters_ok env st ->
    main_loop turns fuel env st = Ret fin ->
    counters_ok env fin.
Proof.
  induction turns as [|turns IH]; intros st fin Hok; simpl; [discriminate|].
  destruct (pending env st); [|intros [= <-]; assumption].
  intros H. bind_inv_as H r Hbody. destruct r as [st'|st'].
  - eapply IH; [|exact H]. eapply loop_body_counters; eauto.
  - injection H as <-. eapply loop_body_counters; eauto.
Qed.

Lemma facing_first_turn :
  loop_body 20 facing_gates facing_start = Ret (Continue facing_routed).
Proof. vm_compute. reflexivity. Qed.

Lemma facing_complete :
  complete_board 5 20 facing_gates [] = Ret facing_routed.
Proof. vm_compute. reflexivity. Qed.

(** C9.  On a board as constructed, in every state in which a turn of
    the optimizer's loop starts and in the state the optimizer ends in,
    the counter of every gate is its total count in the connection list
    minus the ends of routed connections at it (the number of routed
    connections incident to it, when no connection joins a gate to
    itself), and it is not negative; every decrement of the routing
    pass and every increment of an undo keeps it so. *)
Theorem counters_track_routed_nets (fuel : nat) (gs : dict key node)
  (conns : list (key * key)) (dims : Z * Z * Z) (r : list nat)
  (self : circuit_board) (st0 st : opt_state) :
  new_board gs conns dims = Ret self ->
  initial_state fuel self r = Ret st0 ->
  pass_head fuel self st0 st ->
  (forall g v,
     dict_get (self_needs st) g = Some v ->
     v = degree conns g - routed_ends 0 conns (completed_wires st) g
     /\ 0 <= v
     /\ (Forall (fun c => fst c <> snd c) conns ->
         v = degree conns g
             - Z.of_nat (routed_nets 0 conns (completed_wires st) g)))
  /\ (forall g, 0 < degree conns g -> dict_mem (self_needs st) g = true)
  /\ counters_ok self st
  /\ (forall s i s',
        counters_ok self s -> route_one fuel self s i = Ret s' ->
        counters_ok self s')
  /\ (forall s j s',
        counters_ok self s -> In j (completed_wires s) ->
        undo_one self s j = Ret s' -> counters_ok self s')
  /\ (forall turns fin,
        complete_board turns fuel self r = Ret fin -> counters_ok self fin).
Proof.
  intros Hnew Hinit Hhead.
  destruct (new_board_counts _ _ _ _ Hnew) as [Hconns Hneeds].
  assert (Hok0 : counters_ok self st0).
  { eapply initial_state_counters; [|exact Hinit]. congruence. }
  pose proof (pass_head_counters _ _ _ _ Hok0 Hhead) as Hok.
  rewrite <- Hconns.
  split; [|split; [|split; [|split; [|split]]]].
  - intros g v Hv. pose proof (ok_counts _ _ Hok g v Hv) as Heq.
    pose proof (routed_ends_bounds (connections self) (completed_wires st) g 0).
    split; [assumption|]. split; [lia|].
    intros Hloops. rewrite <- routed_ends_nets; assumption.
  - apply (ok_keys _ _ Hok).
  - assumption.
  - intros s i s' Hs Hroute. eapply route_one_counters; eauto.
  - intros s j s' Hs Hj Hundo. eapply undo_one_counters; eauto.
  - intros turns fin. unfold complete_board. rewrite Hinit. cbn [bind].
    intros H. bind_inv_as H st1 Hloop. injection H as <-.
    apply set_store_counters.
    exact (main_loop_counters fuel self turns st0 st1 Hok0 Hloop).
Qed.

Lemma counters_track_routed_nets_witness :
  (forall g v,
     dict_get (self_needs facing_routed) g = Some v ->
     v = degree [(KInt 1, KInt 2)] g
         - routed_ends 0 [(KInt 1, KInt 2)] (completed_wires facing_routed) g
     /\ 0 <= v
     /\ (Forall (fun c => fst c <> snd c) [(KInt 1, KInt 2)] ->
         v = degree [(KInt 1, KInt 2)] g
             - Z.of_nat (routed_nets 0 [(KInt 1, KInt 2)]
                                     (completed_wires facing_routed) g)))
  /\ (forall g, 0 < degree [(KInt 1, KInt 2)] g ->
                dict_mem (self_needs facing_routed) g = true)
  /\ counters_ok facing_gates facing_routed
  /\ (forall s i s',
        counters_ok facing_gates s -> route_one 20 facing_gates s i = Ret s' ->
        counters_ok facing_gates s')
  /\ (forall s j s',
        counters_ok facing_gates s -> In j (completed_wires s) ->
        undo_one facing_gates s j = Ret s' -> counters_ok facing_gates s')
  /\ (forall turns fin,
        complete_board turns 20 facing_gates [] = Ret fin ->
        counters_ok facing_gates fin).
Proof.
  apply (counters_track_routed_nets 20
           [(KInt 1, (0, 1, 1)); (KInt 2, (0, 1, 3))] [(KInt 1, KInt 2)]
           (1, 3, 5) [] facing_gates facing_start facing_routed).
  - exact facing_gates_built.
  - exact facing_start_initial.
  - apply (head_next _ _ _ facing_start).
    + apply head_first.
    + reflexivity.
    + exact facing_first_turn.
Defined.

(* ================================================================= *)
(** ** The optimizer: what a routing pass leaves alone *)

Lemma same_locals_refl (st : opt_state) : same_locals st st.
Proof. constructor; reflexivity. Qed.

Lemma same_locals_trans (st1 st2 st3 : opt_state) :
  same_locals st1 st2 -> same_locals st2 st3 -> same_locals st1 st3.
Proof.
  intros [] []. constructor; congruence.
Qed.

Lemma route_one_locals (fuel : nat) (env : circuit_board) (st st' : opt_state)
  (i : nat) :
  route_one fuel env st i = Ret st' -> same_locals st st'.
Proof.
  intros H. apply route_one_cases in H.
  destruct H as [->|(c & st1 & h & _ & _ & Hmark & ->)];
    [apply same_locals_refl|].
  unfold mark_routed in Hmark.
  bind_inv_as Hmark needs1 A1. bind_inv_as Hmark needs2 A2.
  injection Hmark as <-. constructor; reflexivity.
Qed.

Lemma routing_pass_locals (fuel : nat) (env : circuit_board) :
  forall order st st',
    routing_pass fuel env st order = Ret st' -> same_locals st st'.
Proof.
  induction order as [|i order IH]; intros st st'; simpl.
  - intros [= <-]. apply same_locals_refl.
  - intros H. bind_inv_as H st1 Hone.
    eapply same_locals_trans; [eapply route_one_locals|eapply IH]; eauto.
Qed.

Lemma route_one_store (fuel : nat) (env : circuit_board) (st st' : opt_state)
  (i a : nat) :
  self_board st = Array a ->
  (a < length (heap st))%nat ->
  route_one fuel env st i = Ret st' ->
  pass_store st st'.
Proof.
  intros Hb Ha. unfold route_one.
  destruct (mem i (completed_wires st)).
  { intros [= <-]. constructor; auto. }
  intros H. bind_inv_as H self Hself. bind_inv_as H c Hc.
  bind_inv_as H path Hpath. unfold lay_path in H.
  destruct path as [|nd path].
  - cbn in H. bind_inv_as H name Hname. injection H as <-. constructor; auto.
  - change (0 <? length (nd :: path))%nat with true in H. cbv iota in H.
    bind_inv_as H st1 Hmark. bind_inv_as H name Hname.
    unfold mark_routed in Hmark.
    bind_inv_as Hmark needs1 A1. bind_inv_as Hmark needs2 A2.
    injection Hmark as <-.
    rewrite (paint_store env name a) in H; [|exact Hb|exact Ha].
    cbn [heap set_store set_completed_wires] in H.
    bind_inv_as H b' Hpaint. injection H as <-.
    constructor; cbn [heap completed_wires set_store set_completed_wires].
    + apply upd_length.
    + intros a' b Hb' Hne. rewrite Hb in Hb'. injection Hb' as <-.
      apply nth_upd_other. congruence.
    + rewrite length_app. lia.
    + rewrite length_app. simpl. lia.
Qed.

Lemma routing_pass_store (fuel : nat) (env : circuit_board) (a : nat) :
  forall order st st',
    self_board st = Array a ->
    (a < length (heap st))%nat ->
    routing_pass fuel env st order = Ret st' ->
    pass_store st st'.
Proof.
  induction order as [|i order IH]; intros st st' Hb Ha; simpl.
  - intros [= <-]. constructor; auto.
  - intros H. bind_inv_as H st1 Hone.
    pose proof (route_one_store _ _ _ _ _ _ Hb Ha Hone) as [L1 O1 G1 I1].
    pose proof (route_one_locals _ _ _ _ _ Hone) as S1.
    assert (Hb1 : self_board st1 = Array a) by (rewrite (sl_board _ _ S1); exact Hb).
    assert (Ha1 : (a < length (heap st1))%nat) by (rewrite L1; exact Ha).
    destruct (IH _ _ Hb1 Ha1 H) as [L2 O2 G2 I2].
    constructor.
    + congruence.
    + intros a' b Hb' Hne. rewrite Hb in Hb'. injection Hb' as <-.
      rewrite (O2 a b Hb1 Hne). apply (O1 a b Hb Hne).
    + lia.
    + intros Hsame. rewrite I2 by lia. apply I1. lia.
Qed.

(* ================================================================= *)
(** ** The optimizer: stagnation with fewer than two routed nets *)

Lemma boxed_gates_built :
  new_board [(KInt 1, (0, 0, 0)); (KInt 2, (0, 0, 1))] [(KInt 1, KInt 2)] (1, 1, 2)
  = Ret boxed_gates.
Proof. vm_compute. reflexivity. Qed.

Lemma boxed_start_initial : initial_state 5 boxed_gates [] = Ret boxed_start.
Proof. vm_compute. reflexivity. Qed.

Lemma main_loop_from_head (fuel : nat) (env : circuit_board) (st0 s : opt_state) :
  pass_head fuel env st0 s ->
  forall turns fin,
    main_loop turns fuel env st0 = Ret fin ->
    exists turns', main_loop turns' fuel env s = Ret fin.
Proof.
  induction 1 as [|s s' _ IH Hpending Hbody]; intros turns fin Hrun; [eauto|].
  destruct (IH _ _ Hrun) as ([|turns'] & Hs); simpl in Hs; [discriminate|].
  rewrite Hpending, Hbody in Hs. cbn [bind] in Hs.
  eauto.
Qed.

(** C10.  When a turn of the loop finds the routed count unchanged
    since the turn before, with fewer than two connections routed and
    the iteration cap not reached, [random.sample(completed_wires, 2)]
    raises [ValueError]: the turn does not perturb anything, and the
    run this turn belongs to does not complete normally. *)
Theorem stagnation_below_two_raises (fuel : nat) (env : circuit_board)
  (st0 st st1 : opt_state) :
  pass_head fuel env st0 st ->
  pending env st = true ->
  routing_pass fuel env st (ordering st) = Ret st1 ->
  length (completed_wires st1) = completed_previously st ->
  iter st <> max_iters ->
  (length (completed_wires st1) < v_opt)%nat ->
  perturb env (save_improvement st1) = Raise ValueError
  /\ loop_body fuel env st = Raise ValueError
  /\ forall turns fin, main_loop turns fuel env st0 <> Ret fin.
Proof.
  intros Hhead Hpending Hpass Hsame Hiter Hfew.
  pose proof (routing_pass_locals _ _ _ _ _ Hpass) as Hloc.
  assert (Hc : completed_wires (save_improvement st1) = completed_wires st1).
  { unfold save_improvement. destruct (_ <? _)%nat; reflexivity. }
  assert (Hp : completed_previously (save_improvement st1) = completed_previously st).
  { unfold save_improvement. destruct (_ <? _)%nat; apply (sl_previously _ _ Hloc). }
  assert (Hi : iter (save_improvement st1) = iter st).
  { unfold save_improvement. destruct (_ <? _)%nat; apply (sl_iter _ _ Hloc). }
  assert (Hperturb : perturb env (save_improvement st1) = Raise ValueError).
  { unfold perturb, random_sample. rewrite Hc.
    destruct (Nat.ltb_spec (length (completed_wires st1)) v_opt); [reflexivity|lia]. }
  assert (Hbody : loop_body fuel env st = Raise ValueError).
  { unfold loop_body. rewrite Hpass. cbn [bind]. rewrite Hc, Hp, Hi, Hsame.
    rewrite Nat.eqb_refl.
    destruct (Nat.eqb_spec (iter st) max_iters); [contradiction|].
    rewrite Hperturb. reflexivity. }
  split; [assumption|]. split; [assumption|].
  intros turns fin Hrun.
  destruct (main_loop_from_head _ _ _ _ Hhead _ _ Hrun) as ([|turns'] & Hs);
    simpl in Hs; [discriminate|].
  rewrite Hpending, Hbody in Hs. discriminate.
Qed.

Lemma stagnation_below_two_raises_witness :
  perturb boxed_gates (save_improvement boxed_start) = Raise ValueError
  /\ loop_body 5 boxed_gates boxed_start = Raise ValueError
  /\ forall turns fin, main_loop turns 5 boxed_gates boxed_start <> Ret fin.
Proof.
  apply (stagnation_below_two_raises 5 boxed_gates boxed_start boxed_start
           boxed_start).
  - apply head_first.
  - reflexivity.
  - vm_compute. reflexivity.
  - reflexivity.
  - discriminate.
  - unfold v_opt. simpl. lia.
Defined.

Example boxed_gates_raise (turns : nat) :
  complete_board (S turns) 5 boxed_gates [] = Raise ValueError.
Proof. reflexivity. Qed.

(* ================================================================= *)
(** ** The optimizer: the best snapshot *)

Lemma save_improvement_store (st st1 : opt_state) :
  store_ok st ->
  same_locals st st1 ->
  pass_store st st1 ->
  store_ok (save_improvement st1).
Proof.
  intros [(a & Hb & Ha) Hscore Hbest] [S1 S2 S3 S4 S5 S6 S7 S8] [L O G I].
  unfold save_improvement.
  destruct (Nat.ltb_spec (best_score st1) (length (completed_wires st1)))
    as [Hlt|Hge].
  - constructor; cbn [self_board heap completed_wires best_score best_solution
                      recorded set_best].
    + exists a. split; [congruence|lia].
    + lia.
    + rewrite S1, Hb. cbn [cells_of option_map].
      split; [lia|]. split; reflexivity.
  - constructor.
    + exists a. split; [congruence|lia].
    + assumption.
    + rewrite S4, S8, S5, S1, L. destruct (best_solution st) as [b|l]; [|assumption].
      destruct Hbest as (Hblt & Hrec & Halias). split; [assumption|].
      destruct (Nat.eq_dec b a) as [->|Hne].
      * specialize (Halias Hb).
        assert (Hsame : length (completed_wires st1) = length (completed_wires st))
          by lia.
        rewrite (I Hsame). split; [assumption|]. intros _. lia.
      * rewrite (O a b Hb Hne). split; [assumption|].
        intros Heq. rewrite Hb in Heq. congruence.
Qed.

Lemma length_list_remove (l : list nat) (j : nat) :
  (length (list_remove j l) <= length l)%nat.
Proof.
  induction l as [|x l IH]; simpl; [lia|].
  destruct (Nat.eqb x j); simpl; lia.
Qed.

Lemma undo_one_store (env : circuit_board) (st st' : opt_state) (j : nat) :
  store_ok st -> undo_one env st j = Ret st' -> store_ok st'.
Proof.
  intros [(a & Hb & Ha) Hscore Hbest] H. apply undo_one_cases in H.
  destruct H as (a' & c & name & needs1 & needs2 & Hb' & _ & _ & _ & _ & ->).
  constructor; cbn [self_board heap completed_wires best_score best_solution
                    recorded set_store set_completed_wires].
  - exists (length (heap st)). split; [reflexivity|]. rewrite length_app. simpl. lia.
  - pose proof (length_list_remove (completed_wires st) j). lia.
  - destruct (best_solution st) as [b|l]; [|assumption].
    destruct Hbest as (Hblt & Hrec & _). rewrite length_app.
    split; [simpl; lia|]. split.
    + rewrite app_nth1 by assumption. assumption.
    + intros [= Heq]. lia.
Qed.

Lemma undo_all_store (env : circuit_board) :
  forall to_delete st st',
    store_ok st -> undo_all env st to_delete = Ret st' -> store_ok st'.
Proof.
  induction to_delete as [|j rest IH]; intros st st' Hok; simpl.
  - intros [= <-]. assumption.
  - intros H. bind_inv_as H st1 Hone. eapply IH; [|exact H].
    eapply undo_one_store; eauto.
Qed.

Lemma perturb_store (env : circuit_board) (st st' : opt_state) :
  store_ok st -> perturb env st = Ret st' -> store_ok st'.
Proof.
  intros Hok. unfold perturb. intros H.
  bind_inv_as H s Hsample. destruct s as [to_delete r1].
  bind_inv_as H st1 Hundo. bind_inv_as H s' Hshuffle. destruct s' as [order r2].
  injection H as <-.
  destruct (undo_all_store env _ _ _ Hok Hundo) as [B S' Best].
  constructor; assumption.
Qed.

Lemma set_completed_previously_store (st : opt_state) (n : nat) :
  store_ok st -> store_ok (set_completed_previously st n).
Proof. intros [B S' Best]. constructor; assumption. Qed.

Lemma loop_body_store (fuel : nat) (env : circuit_board) (st st' : opt_state) :
  store_ok st ->
  (loop_body fuel env st = Ret (Continue st')
   \/ loop_body fuel env st = Ret (Break st')) ->
  store_ok st'.
Proof.
  intros Hok. unfold loop_body.
  destruct (routing_pass fuel env st (ordering st)) as [st1| |] eqn:Hpass;
    cbn [bind]; [|intros [H|H]; discriminate..].
  assert (Hok2 : store_ok (save_improvement st1)).
  { destruct (so_board _ Hok) as (a & Hb & Ha).
    apply (save_improvement_store st); [assumption| |].
    - eapply routing_pass_locals; eauto.
    - eapply routing_pass_store; eauto. }
  destruct (_ =? _)%nat.
  - destruct (_ =? _)%nat.
    + intros [H|H]; [discriminate|]. injection H as <-. assumption.
    + destruct (perturb env _) as [st3| |] eqn:Hp; cbn [bind];
        [|intros [H|H]; discriminate..].
      intros [H|H]; [|discriminate]. injection H as <-.
      apply set_completed_previously_store. eapply perturb_store; eauto.
  - intros [H|H]; [|discriminate]. injection H as <-.
    apply set_completed_previously_store. assumption.
Qed.

Lemma main_loop_store (fuel : nat) (env : circuit_board) :
  forall turns st fin,
    store_ok st -> main_loop turns fuel env st = Ret fin -> store_ok fin.
Proof.
  induction turns as [|turns IH]; intros st fin Hok; simpl; [discriminate|].
  destruct (pending env st); [|intros [= <-]; assumption].
  intros H. bind_inv_as H r Hbody. destruct r as [st'|st'].
  - eapply IH; [|exact H]. eapply loop_body_store; eauto.
  - injection H as <-. eapply loop_body_store; eauto.
Qed.

Lemma initial_state_store (fuel : nat) (self : circuit_board) (r : list nat)
  (st0 : opt_state) :
  initial_state fuel self r = Ret st0 -> store_ok st0.
Proof.
  unfold initial_state. intros H. bind_inv_as H ds Hds. injection H as <-.
  constructor; simpl; eauto.
Qed.

(** The snapshot step records the count and the cells of the grid as
    they are when the count exceeds the best so far, and only then. *)
Lemma save_improvement_records (st : opt_state) (a : nat) :
  self_board st = Array a ->
  ((best_score st < length (completed_wires st))%nat ->
   recorded (save_improvement st)
   = Some (length (completed_wires st), nth a (heap st) [])
   /\ best_score (save_improvement st) = length (completed_wires st)
   /\ best_solution (save_improvement st) = Array a)
  /\ ((length (completed_wires st) <= best_score st)%nat ->
      save_improvement st = st).
Proof.
  intros Hb. unfold save_improvement.
  destruct (Nat.ltb_spec (best_score st) (length (completed_wires st))).
  - split; [|lia]. intros _. simpl. rewrite Hb. auto.
  - split; [lia|]. reflexivity.
Qed.

(** Undoing connections and reshuffling leave what was recorded. *)
Lemma perturb_recorded (env : circuit_board) (st st' : opt_state) :
  perturb env st = Ret st' ->
  recorded st' = recorded st /\ best_score st' = best_score st.
Proof.
  unfold perturb. intros H.
  bind_inv_as H s Hsample. destruct s as [to_delete r1].
  bind_inv_as H st1 Hundo. bind_inv_as H s' Hshuffle. destruct s' as [order r2].
  injection H as <-. cbn [recorded best_score set_attempt].
  clear Hsample Hshuffle. revert st st1 Hundo.
  induction to_delete as [|j rest IH]; intros st st1; simpl.
  - intros [= <-]. auto.
  - intros H. bind_inv_as H st2 Hone. apply IH in H. apply undo_one_cases in Hone.
    destruct Hone as (? & ? & ? & ? & ? & _ & _ & _ & _ & _ & ->). exact H.
Qed.

(** In terms of what was recorded.  When the optimizer ends,
    [self.board] is what [best_solution] refers to, and once a best
    count was recorded the cells of that array are the cells the grid
    had when the count was last recorded (the routed count then
    exceeding the best so far), whatever was undone or routed
    afterwards; when nothing was ever recorded, [self.board] is left
    holding the initial list of indices. *)
Theorem final_grid_is_best_snapshot (turns fuel : nat) (self : circuit_board)
  (r : list nat) (fin : opt_state) :
  complete_board turns fuel self r = Ret fin ->
  self_board fin = best_solution fin
  /\ match recorded fin with
     | Some (count, cells) =>
         best_score fin = count
         /\ cells_of (heap fin) (self_board fin) = Some cells
     | None => exists order, self_board fin = IndexList order
     end.
Proof.
  unfold complete_board. intros H.
  bind_inv_as H st0 Hinit. bind_inv_as H st Hloop. injection H as <-.
  pose proof (main_loop_store _ _ _ _ _ (initial_state_store _ _ _ _ Hinit) Hloop)
    as [_ _ Hbest].
  cbn [self_board best_solution recorded best_score heap set_store].
  split; [reflexivity|].
  destruct (best_solution st) as [b|l].
  - destruct Hbest as (_ & -> & _). split; reflexivity.
  - rewrite Hbest. eauto.
Qed.

Lemma final_grid_is_best_snapshot_witness :
  self_board facing_routed = best_solution facing_routed
  /\ match recorded facing_routed with
     | Some (count, cells) =>
         best_score facing_routed = count
         /\ cells_of (heap facing_routed) (self_board facing_routed) = Some cells
     | None => exists order, self_board facing_routed = IndexList order
     end.
Proof.
  apply (final_grid_is_best_snapshot 5 20 facing_gates [] facing_routed).
  exact facing_complete.
Defined.

(** C2, at an input where the source departs from it.  On a board
    without connections (here a gate in a row of three cells) the loop
    does not run, nothing is recorded, and line 177 assigns to
    [self.board] the value [best_solution] has had since line 133: the
    empty list of indices.  What the optimizer leaves as the output is
    no grid at all; the array with the gate is still in the store, and
    [self.board] no longer refers to it. *)
Theorem final_output_without_connections (turns fuel : nat) (r : list nat) :
  new_board [(KInt 1, (0, 0, 1))] [] (1, 1, 3) = Ret walled_row
  /\ exists fin,
       complete_board (S turns) fuel walled_row r = Ret fin
       /\ self_board fin = IndexList []
       /\ cells_of (heap fin) (self_board fin) = None
       /\ heap fin = [[[[EMPTY; GATE; EMPTY]]]]
       /\ recorded fin = None
       /\ best_score fin = 0%nat
       /\ output_solution (heap fin) (self_board fin) = ([], Ret tt).
Proof.
  split; [exact walled_row_built|].
  eexists. split; [reflexivity|]. repeat split.
Qed.

(* ================================================================= *)
(** ** The pathfinder on a straight line shorter than 1000 steps *)

Lemma manhattan_nonneg (a b : node) : 0 <= manhattan a b.
Proof.
  destruct a as [[az ax] ay], b as [[bz bx] by']. unfold manhattan. lia.
Qed.

Lemma manhattan_triangle (a b c : node) :
  manhattan a c <= manhattan a b + manhattan b c.
Proof.
  destruct a as [[az ax] ay], b as [[bz bx] by'], c as [[cz cx] cy].
  unfold manhattan. lia.
Qed.

Lemma manhattan_unit_step (a b : node) : unit_step a b -> manhattan a b = 1.
Proof.
  destruct a as [[az ax] ay], b as [[bz bx] by']. unfold unit_step, manhattan. lia.
Qed.

Lemma manhattan_same (a : node) : manhattan a a = 0.
Proof. destruct a as [[az ax] ay]. unfold manhattan. lia. Qed.

Lemma point_0 (start dir : node) : point start dir 0 = start.
Proof.
  destruct start as [[sz sx] sy], dir as [[dz dx] dy]. unfold point.
  f_equal; [f_equal|]; lia.
Qed.

(** The six directions, one after the other. *)
Ltac six_directions H :=
  unfold unit_step in H;
  destruct H as [(H & -> & ->)|[(-> & H & ->)|(-> & -> & H)]];
  match type of H with
  | Z.abs (?x - 0) = 1 =>
      let E := fresh "E" in
      assert (E : x = 1 \/ x = -1) by lia; clear H; destruct E as [->| ->]
  end.

Lemma manhattan_points (start dir : node) (j k : Z) :
  unit_step (0, 0, 0) dir ->
  manhattan (point start dir j) (point start dir k) = Z.abs (k - j).
Proof.
  destruct start as [[sz sx] sy], dir as [[dz dx] dy]. intros Hdir.
  six_directions Hdir; unfold manhattan, point; lia.
Qed.

Lemma point_step (start dir : node) (k : Z) :
  unit_step (0, 0, 0) dir ->
  unit_step (point start dir k) (point start dir (k + 1)).
Proof.
  destruct start as [[sz sx] sy], dir as [[dz dx] dy]. intros Hdir.
  six_directions Hdir; unfold unit_step, point; lia.
Qed.

Lemma point_inj (start dir : node) (j k : Z) :
  unit_step (0, 0, 0) dir -> point start dir j = point start dir k -> j = k.
Proof.
  intros Hdir Heq. pose proof (manhattan_points start dir j k Hdir) as H.
  rewrite Heq, manhattan_same in H. lia.
Qed.

Lemma point_in_bounds (dims : Z * Z * Z) (start dir : node) (d k : Z) :
  unit_step (0, 0, 0) dir ->
  in_bounds dims start -> in_bounds dims (point start dir d) ->
  0 <= k <= d -> in_bounds dims (point start dir k).
Proof.
  destruct dims as [[bz bx] by'], start as [[sz sx] sy], dir as [[dz dx] dy].
  intros Hdir. six_directions Hdir; unfold in_bounds, point; lia.
Qed.


Lemma dict_get_In {K V : Type} `{Eqb K} (d : dict K V) (k : K) (v : V) :
  dict_get d k = Some v -> exists k', k' = k /\ In (k', v) d.
Proof.
  induction d as [|[k0 v0] rest IH]; simpl; [discriminate|].
  destruct (eqb k0 k) eqn:E.
  - intros [= <-]. apply eqb_eq in E. eauto.
  - intros G. destruct (IH G) as (k' & -> & Hin). eauto.
Qed.

Lemma In_dict_get {K V : Type} `{Eqb K} (d : dict K V) (k : K) (v : V) :
  NoDup (map fst d) -> In (k, v) d -> dict_get d k = Some v.
Proof.
  induction d as [|[k0 v0] rest IH]; simpl; [tauto|].
  intros Hnd [[= -> ->]|Hin].
  - rewrite eqb_refl. reflexivity.
  - inversion Hnd as [|? ? Hk0 Hrest]; subst.
    destruct (eqb k0 k) eqn:E; [|auto].
    apply eqb_eq in E. subst k0. exfalso. apply Hk0.
    apply (in_map fst) in Hin. exact Hin.
Qed.

Lemma dict_set_keys {K V : Type} `{Eqb K} (d : dict K V) (k : K) (v : V) :
  map fst (dict_set d k v)
  = if dict_mem d k then map fst d else map fst d ++ [k].
Proof.
  unfold dict_mem. induction d as [|[k0 v0] rest IH]; simpl; [reflexivity|].
  destruct (eqb k0 k) eqn:E; simpl; [reflexivity|].
  rewrite IH. destruct (dict_get rest k); reflexivity.
Qed.

Lemma dict_mem_keys {K V : Type} `{Eqb K} (d : dict K V) (k : K) :
  dict_mem d k = true <-> In k (map fst d).
Proof.
  unfold dict_mem. induction d as [|[k0 v0] rest IH]; simpl.
  - split; [discriminate|tauto].
  - destruct (eqb k0 k) eqn:E.
    + apply eqb_eq in E. tauto.
    + apply eqb_neq in E. rewrite IH. tauto.
Qed.

Lemma dict_set_NoDup {K V : Type} `{Eqb K} (d : dict K V) (k : K) (v : V) :
  NoDup (map fst d) -> NoDup (map fst (dict_set d k v)).
Proof.
  intros Hnd. rewrite dict_set_keys. destruct (dict_mem d k) eqn:M; [assumption|].
  apply NoDup_app; [assumption|repeat constructor; simpl; tauto|].
  intros x Hx [<-|[]]. apply dict_mem_keys in Hx. congruence.
Qed.

Lemma dict_set_length {K V : Type} `{Eqb K} (d : dict K V) (k : K) (v : V) :
  length (dict_set d k v)
  = if dict_mem d k then length d else S (length d).
Proof.
  rewrite <- !(length_map fst), dict_set_keys.
  destruct (dict_mem d k); [reflexivity|]. rewrite length_app. simpl. lia.
Qed.

(** [min] returns a key whose value no value of the dictionary
    undercuts. *)
Lemma min_from_least (d : dict node Z) :
  forall best v,
    exists w,
      (min_from best v d = best /\ w = v \/ In (min_from best v d, w) d)
      /\ w <= v
      /\ forall k' v', In (k', v') d -> w <= v'.
Proof.
  induction d as [|[k w0] rest IH]; intros best v; simpl.
  - exists v. split; [auto|]. split; [lia|]. intros k' v' [].
  - destruct (Z.ltb_spec w0 v) as [Hlt|Hge].
    + destruct (IH k w0) as (w & Hw & Hle & Hall). exists w.
      split; [destruct Hw as [[-> ->]|Hin]; auto|]. split; [lia|].
      intros k' v' [[= <- <-]|Hin]; [lia|eauto].
    + destruct (IH best v) as (w & Hw & Hle & Hall). exists w.
      split; [destruct Hw as [[-> ->]|Hin]; auto|]. split; [lia|].
      intros k' v' [[= <- <-]|Hin]; [lia|eauto].
Qed.

Lemma min_key_least (d : dict node Z) (current : node) :
  min_key d = Ret current ->
  exists w, In (current, w) d /\ forall k' v', In (k', v') d -> w <= v'.
Proof.
  destruct d as [|[k v] rest]; simpl; [discriminate|]. intros [= <-].
  destruct (min_from_least rest k v) as (w & Hw & Hle & Hall). exists w. split.
  - destruct Hw as [[-> ->]|Hin]; auto.
  - intros k' v' [[= <- <-]|Hin]; [lia|eauto].
Qed.

Lemma min_key_nonempty (d : dict node Z) (k : node) (v : Z) :
  In (k, v) d -> exists current, min_key d = Ret current.
Proof.
  destruct d as [|[k0 v0] rest]; simpl; [tauto|eauto].
Qed.

Lemma probe_ok (b : grid) (guard : bool) (cell : node) (acc : list node) :
  (guard = true -> exists v, get_node b cell = Ret v) ->
  exists l,
    probe b guard cell acc = Ret l
    /\ incl acc l
    /\ (guard = true -> get_node b cell = Ret EMPTY -> In cell l).
Proof.
  intros Hcell. unfold probe. destruct guard.
  - destruct (Hcell eq_refl) as (v & Hv). rewrite Hv. cbn [bind].
    destruct (label_eqb v EMPTY) eqn:E; eexists; (split; [reflexivity|]).
    + split; [apply incl_appl, incl_refl|].
      intros _ _. apply in_app_iff. right. left. reflexivity.
    + split; [apply incl_refl|]. intros _ [= ->].
      unfold label_eqb in E. rewrite String.eqb_refl in E. discriminate.
  - eexists. split; [reflexivity|]. split; [apply incl_refl|discriminate].
Qed.

(** On a grid that has a cell at every coordinate of its dimensions,
    the six probes around a coordinate succeed and keep every empty
    cell one step away. *)
Lemma vacant_six_complete (c_board : circuit_board) (c : node) :
  (forall n, in_bounds (dimensions c_board) n ->
             exists v, get_node (board c_board) n = Ret v) ->
  in_bounds (dimensions c_board) c ->
  exists l,
    vacant_six c_board c = Ret l
    /\ forall n,
         unit_step c n -> in_bounds (dimensions c_board) n ->
         get_node (board c_board) n = Ret EMPTY -> In n l.
Proof.
  intros Hshape Hc. unfold vacant_six.
  destruct (dimensions c_board) as [[bz bx] by'] eqn:Hdims.
  destruct c as [[cz cx] cy]. unfold in_bounds in Hc.
  destruct (probe_ok (board c_board) (cz <? bz - 1) (cz + 1, cx, cy) [])
    as (l1 & -> & I1 & P1).
  { intros G. apply Z.ltb_lt in G. apply Hshape. unfold in_bounds. lia. }
  cbn [bind].
  destruct (probe_ok (board c_board) ((0 <? cz) && (cz <? bz)) (cz - 1, cx, cy) l1)
    as (l2 & -> & I2 & P2).
  { intros G. apply andb_true_iff in G. destruct G as [G1 G2].
    apply Z.ltb_lt in G1, G2. apply Hshape. unfold in_bounds. lia. }
  cbn [bind].
  destruct (probe_ok (board c_board) (cx <? bx - 1) (cz, cx + 1, cy) l2)
    as (l3 & -> & I3 & P3).
  { intros G. apply Z.ltb_lt in G. apply Hshape. unfold in_bounds. lia. }
  cbn [bind].
  destruct (probe_ok (board c_board) ((0 <? cx) && (cx <? bx)) (cz, cx - 1, cy) l3)
    as (l4 & -> & I4 & P4).
  { intros G. apply andb_true_iff in G. destruct G as [G1 G2].
    apply Z.ltb_lt in G1, G2. apply Hshape. unfold in_bounds. lia. }
  cbn [bind].
  destruct (probe_ok (board c_board) (cy <? by' - 1) (cz, cx, cy + 1) l4)
    as (l5 & -> & I5 & P5).
  { intros G. apply Z.ltb_lt in G. apply Hshape. unfold in_bounds. lia. }
  cbn [bind].
  destruct (probe_ok (board c_board) ((0 <? cy) && (cy <? by')) (cz, cx, cy - 1) l5)
    as (l6 & -> & I6 & P6).
  { intros G. apply andb_true_iff in G. destruct G as [G1 G2].
    apply Z.ltb_lt in G1, G2. apply Hshape. unfold in_bounds. lia. }
  exists l6. split; [reflexivity|].
  intros [[nz nx] ny] Hstep Hn Hempty. unfold unit_step, in_bounds in Hstep, Hn.
  assert (Hcases :
    (nz, nx, ny) = (cz + 1, cx, cy) \/ (nz, nx, ny) = (cz - 1, cx, cy)
    \/ (nz, nx, ny) = (cz, cx + 1, cy) \/ (nz, nx, ny) = (cz, cx - 1, cy)
    \/ (nz, nx, ny) = (cz, cx, cy + 1) \/ (nz, nx, ny) = (cz, cx, cy - 1)).
  { destruct Hstep as [(H & -> & ->)|[(-> & H & ->)|(-> & -> & H)]].
    - assert (nz = cz + 1 \/ nz = cz - 1) as [->| ->] by lia; auto.
    - assert (nx = cx + 1 \/ nx = cx - 1) as [->| ->] by lia; auto 6.
    - assert (ny = cy + 1 \/ ny = cy - 1) as [->| ->] by lia; auto 8. }
  destruct Hcases as [E|[E|[E|[E|[E|E]]]]]; injection E as -> -> ->.
  - apply I6, I5, I4, I3, I2, P1; [apply Z.ltb_lt; lia|assumption].
  - apply I6, I5, I4, I3, P2; [|assumption].
    apply andb_true_iff. split; apply Z.ltb_lt; lia.
  - apply I6, I5, I4, P3; [apply Z.ltb_lt; lia|assumption].
  - apply I6, I5, P4; [|assumption].
    apply andb_true_iff. split; apply Z.ltb_lt; lia.
  - apply I6, P5; [apply Z.ltb_lt; lia|assumption].
  - apply P6; [|assumption].
    apply andb_true_iff. split; apply Z.ltb_lt; lia.
Qed.

Lemma close_bounded (c_board : circuit_board) (start current : node)
  (st : search_state) :
  bounded_inv c_board start st ->
  In current (open_set st) ->
  bounded_inv c_board start
    {| closed_set := set_add current (closed_set st);
       open_set := set_remove current (open_set st);
       came_from := came_from st; g_score := g_score st;
       f_score := f_score st |}
  /\ set_add current (closed_set st) = closed_set st ++ [current].
Proof.
  intros [Hnd Hc Ho Ha Hr] Hin. pose proof (Ha _ Hin) as Hfresh.
  assert (Hadd : set_add current (closed_set st) = closed_set st ++ [current]).
  { unfold set_add. rewrite (proj2 (mem_false _ _) Hfresh). reflexivity. }
  split; [|exact Hadd].
  constructor; cbn [closed_set open_set f_score]; auto.
  - rewrite Hadd. apply NoDup_app; [assumption|repeat constructor; simpl; tauto|].
    intros x Hx [<-|[]]. contradiction.
  - intros n Hn. apply In_set_add in Hn. destruct Hn as [->|Hn]; auto.
  - intros n Hn. apply In_set_remove in Hn. apply Ho. tauto.
  - intros n Hn. apply In_set_remove in Hn. destruct Hn as [Hn Hne].
    rewrite In_set_add. intros [->|Hcl]; [congruence|]. eapply Ha; eauto.
Qed.

Section StraightLine.

Variable c_board : circuit_board.
Variables start dir : node.
Variable d : Z.

Hypothesis Hkeys :
  forall n, dict_get (needs_connections c_board) (KNode n) = None.
Hypothesis Hshape :
  forall n, in_bounds (dimensions c_board) n ->
            exists v, get_node (board c_board) n = Ret v.
Hypothesis Hdir : unit_step (0, 0, 0) dir.
Hypothesis Hd : 0 <= d < 1000.
Hypothesis Hstart : in_bounds (dimensions c_board) start.
Hypothesis Hgoal : in_bounds (dimensions c_board) (point start dir d).
Hypothesis Hline :
  forall k, 0 < k <= d -> get_node (board c_board) (point start dir k) = Ret EMPTY.

(** What the scores and back-pointers of the search satisfy. *)
Record line_inv (st : search_state) : Prop := {
  li_bounded : bounded_inv c_board start st;
  li_keys : NoDup (map fst (f_score st));
  li_f : forall n fv,
    dict_get (f_score st) n = Some fv ->
    exists gv,
      dict_get (g_score st) n = Some gv
      /\ fv = gv + manhattan n (point start dir d);
  li_g : forall n gv,
    dict_get (g_score st) n = Some gv ->
    manhattan start n <= gv
    /\ gv <= Z.of_nat (length (came_from st))
    /\ dict_mem (f_score st) n = true
    /\ (n = start /\ gv = 0 \/ dict_mem (came_from st) n = true);
  li_links : forall n c,
    dict_get (came_from st) n = Some c ->
    In c (closed_set st)
    /\ exists gc,
         dict_get (g_score st) c = Some gc
         /\ dict_get (g_score st) n = Some (gc + 1)
}.

(** The [k]-th cell of the line is in the open set with its true
    distance as g-score, and no cell of the line beyond it is closed. *)
Definition frontier (st : search_state) (k : Z) : Prop :=
  0 <= k <= d
  /\ In (point start dir k) (open_set st)
  /\ dict_get (g_score st) (point start dir k) = Some k
  /\ forall j, k < j <= d -> ~ In (point start dir j) (closed_set st).

Lemma manhattan_to_point (k : Z) :
  0 <= k -> manhattan start (point start dir k) = k.
Proof.
  intros Hk. rewrite <- (point_0 start dir) at 1.
  rewrite manhattan_points by assumption. lia.
Qed.

Lemma manhattan_point_goal (k : Z) :
  k <= d -> manhattan (point start dir k) (point start dir d) = d - k.
Proof.
  intros Hk. rewrite manhattan_points by assumption. lia.
Qed.

(** The back-pointers lead from a node to the start in as many steps
    as its g-score says. *)
Lemma reconstruct_loop_length (st : search_state) :
  line_inv st ->
  forall fuel n gv acc,
    dict_get (g_score st) n = Some gv ->
    gv < Z.of_nat fuel ->
    exists p,
      reconstruct_loop fuel (came_from st) n acc = Ret p
      /\ Z.of_nat (length p) = Z.of_nat (length acc) + gv.
Proof.
  intros Hinv. induction fuel as [|fuel IH]; intros n gv acc Hg Hfuel.
  - destruct (li_g _ Hinv _ _ Hg) as (Hlow & _).
    pose proof (manhattan_nonneg start n). lia.
  - simpl. destruct (dict_get (came_from st) n) as [c|] eqn:Hcf.
    + destruct (li_links _ Hinv _ _ Hcf) as (_ & gc & Hgc & Hgn).
      assert (gv = gc + 1) by congruence. subst gv.
      destruct (IH c gc (acc ++ [c]) Hgc) as (p & Hp & Hlen); [lia|].
      exists p. split; [assumption|]. rewrite Hlen, length_app. simpl. lia.
    + destruct (li_g _ Hinv _ _ Hg) as (_ & _ & _ & [[_ ->]|Hmem]).
      * exists acc. split; [reflexivity|lia].
      * unfold dict_mem in Hmem. rewrite Hcf in Hmem. discriminate.
Qed.

(** The node the loop selects has the distance of the line as
    f-score. *)
Lemma selected_on_optimum (st : search_state) (k : Z) :
  line_inv st -> frontier st k ->
  exists current gc,
    min_key (filter (fun kv => mem (fst kv) (open_set st)) (f_score st))
    = Ret current
    /\ In current (open_set st)
    /\ dict_get (g_score st) current = Some gc
    /\ gc + manhattan current (point start dir d) = d
    /\ manhattan start current <= gc.
Proof.
  intros Hinv (Hk & Hopen & Hgk & _).
  destruct (li_g _ Hinv _ _ Hgk) as (_ & _ & Hfk & _).
  unfold dict_mem in Hfk.
  destruct (dict_get (f_score st) (point start dir k)) as [fk|] eqn:Hfk';
    [|discriminate].
  destruct (li_f _ Hinv _ _ Hfk') as (gk & Hgk' & Hfk_eq).
  assert (gk = k) by congruence. subst gk.
  rewrite manhattan_point_goal in Hfk_eq by lia.
  destruct (dict_get_In _ _ _ Hfk') as (k' & -> & Hin).
  assert (Hin' : In (point start dir k, fk)
                    (filter (fun kv => mem (fst kv) (open_set st)) (f_score st))).
  { apply filter_In. split; [assumption|]. apply mem_In. assumption. }
  destruct (min_key_nonempty _ _ _ Hin') as (current & Hmin).
  destruct (min_key_least _ _ Hmin) as (w & Hw & Hleast).
  specialize (Hleast _ _ Hin').
  apply filter_In in Hw. destruct Hw as [Hw Hwopen]. apply mem_In in Hwopen.
  apply (In_dict_get _ _ _ (li_keys _ Hinv)) in Hw.
  destruct (li_f _ Hinv _ _ Hw) as (gc & Hgc & Hw_eq).
  destruct (li_g _ Hinv _ _ Hgc) as (Hlow & _).
  pose proof (manhattan_triangle start current (point start dir d)) as Htri.
  rewrite (manhattan_to_point d) in Htri by lia.
  exists current, gc. repeat split; try assumption. lia.
Qed.

(** One neighbor visited from a closed node of known g-score. *)
Lemma visit_line (st : search_state) (current neighbor : node) (gc : Z) :
  line_inv st ->
  In current (closed_set st) ->
  dict_get (g_score st) current = Some gc ->
  edge c_board current neighbor ->
  in_bounds (dimensions c_board) current ->
  reaches c_board start current ->
  exists st',
    visit (point start dir d) current st neighbor = Ret st'
    /\ line_inv st'
    /\ closed_set st' = closed_set st
    /\ dict_get (g_score st') current = Some gc
    /\ (forall n, In n (open_set st) -> In n (open_set st'))
    /\ (forall n gv,
          dict_get (g_score st) n = Some gv -> manhattan start n = gv ->
          dict_get (g_score st') n = Some gv)
    /\ (~ In neighbor (closed_set st) -> gc + 1 < 1000 ->
        In neighbor (open_set st')
        /\ exists gv, dict_get (g_score st') neighbor = Some gv /\ gv <= gc + 1).
Proof.
  intros Hinv Hclosed Hgc Hedge Hcur Hreach.
  destruct (visit (point start dir d) current st neighbor) as [st'| |] eqn:Hvisit;
    [| |exfalso; exact (visit_total _ _ _ _ Hvisit)].
  2:{ exfalso. unfold visit in Hvisit.
      destruct (mem neighbor (closed_set st)); [discriminate|].
      cbv zeta in Hvisit. cbn [g_score] in Hvisit.
      unfold dict_getitem in Hvisit. rewrite Hgc in Hvisit. cbn [bind] in Hvisit.
      destruct (_ >=? _); discriminate. }
  exists st'. split; [reflexivity|].
  destruct (visit_bounded _ _ _ _ _ _ _ (li_bounded _ Hinv) Hedge Hcur Hreach Hvisit)
    as [Hbounded Hsame].
  pose proof (edge_unit_step _ _ _ Hedge) as [Hstep _].
  apply manhattan_unit_step in Hstep.
  unfold visit in Hvisit.
  destruct (mem neighbor (closed_set st)) eqn:Hmem.
  { injection Hvisit as <-.
    split; [assumption|]. split; [reflexivity|]. split; [assumption|].
    split; [auto|]. split; [auto|].
    intros Hnot. apply mem_In in Hmem. contradiction. }
  apply mem_false in Hmem.
  cbv zeta in Hvisit. cbn [g_score closed_set open_set came_from f_score] in Hvisit.
  unfold dict_getitem in Hvisit. rewrite Hgc in Hvisit. cbn [bind] in Hvisit.
  rewrite Hstep in Hvisit.
  assert (Hopen : forall n, In n (open_set st) ->
            In n (if mem neighbor (open_set st) then open_set st
                  else set_add neighbor (open_set st))).
  { intros n Hn. destruct (mem neighbor (open_set st)); [assumption|].
    apply In_set_add. auto. }
  assert (Hnb_open : In neighbor (if mem neighbor (open_set st) then open_set st
                                  else set_add neighbor (open_set st))).
  { destruct (mem neighbor (open_set st)) eqn:M; [apply mem_In; assumption|].
    apply In_set_add. auto. }
  assert (Hne : current <> neighbor) by (intros ->; contradiction).
  rewrite Z.geb_leb in Hvisit.
  destruct (Z.leb_spec (dict_get_default (g_score st) neighbor 1000) (gc + 1))
    as [Hskip|Hbetter]; injection Hvisit as <-;
    cbn [closed_set open_set came_from g_score f_score].
  - split; [|split; [reflexivity|split; [assumption|split; [assumption|split]]]].
    + destruct Hinv as [_ K F G L]. constructor; assumption.
    + auto.
    + intros _ Hsmall. split; [assumption|].
      unfold dict_get_default in Hskip.
      destruct (dict_get (g_score st) neighbor) as [old|]; [eauto|lia].
  - destruct Hinv as [_ K F G L].
    destruct (G _ _ Hgc) as (Hlow & Hlen & _ & _).
    split; [|split; [reflexivity|split; [|split; [assumption|split]]]].
    + constructor; cbn [closed_set open_set came_from g_score f_score].
      * assumption.
      * apply dict_set_NoDup. assumption.
      * intros n fv. rewrite !dict_get_set.
        destruct (eqb neighbor n) eqn:E.
        -- apply eqb_eq in E. subst n. intros [= <-]. eauto.
        -- apply F.
      * intros n gv. rewrite dict_get_set, !dict_mem_set, dict_set_length.
        destruct (eqb neighbor n) eqn:E; cbn [orb].
        -- apply eqb_eq in E. subst n. intros [= <-].
           pose proof (manhattan_triangle start current neighbor).
           split; [lia|]. split; [|auto].
           destruct (dict_mem (came_from st) neighbor) eqn:M; [|lia].
           unfold dict_mem in M.
           destruct (dict_get (came_from st) neighbor) as [c|] eqn:Hc;
             [|discriminate].
           destruct (L _ _ Hc) as (_ & gc' & _ & Hold).
           unfold dict_get_default in Hbetter. rewrite Hold in Hbetter.
           destruct (G _ _ Hold) as (_ & Hlen' & _). lia.
        -- intros Hg. destruct (G _ _ Hg) as (H1 & H2 & H3 & H4).
           split; [assumption|]. split; [|auto].
           destruct (dict_mem (came_from st) neighbor); lia.
      * intros n c. rewrite dict_get_set. destruct (eqb neighbor n) eqn:E.
        -- apply eqb_eq in E. subst n. intros [= <-].
           split; [assumption|]. exists gc.
           rewrite dict_get_set_neq by congruence.
           rewrite dict_get_set_eq. auto.
        -- apply eqb_neq in E. intros Hc.
           destruct (L _ _ Hc) as (Hcl & gc' & Hgc' & Hgn).
           split; [assumption|]. exists gc'.
           rewrite !dict_get_set_neq; auto.
           intros ->. contradiction.
    + rewrite dict_get_set_neq; [assumption|congruence].
    + intros n gv Hg Htight. rewrite dict_get_set.
      destruct (eqb neighbor n) eqn:E; [|assumption].
      apply eqb_eq in E. subst n.
      unfold dict_get_default in Hbetter. rewrite Hg in Hbetter.
      pose proof (manhattan_triangle start current neighbor). lia.
    + intros _ _. split; [assumption|]. exists (gc + 1).
      rewrite dict_get_set_eq. split; [reflexivity|lia].
Qed.

Lemma frontier_kept (st st' : search_state) (k : Z) :
  closed_set st' = closed_set st ->
  (forall n, In n (open_set st) -> In n (open_set st')) ->
  (forall n gv,
     dict_get (g_score st) n = Some gv -> manhattan start n = gv ->
     dict_get (g_score st') n = Some gv) ->
  frontier st k -> frontier st' k.
Proof.
  intros Hclosed Hopen Hg (Hk & Hin & Hgk & Hbeyond).
  split; [assumption|]. split; [auto|]. split.
  - apply Hg; [assumption|]. apply manhattan_to_point. lia.
  - rewrite Hclosed. assumption.
Qed.

(** All the neighbors of a node just closed. *)
Lemma visit_all_line (current : node) (gc : Z) :
  in_bounds (dimensions c_board) current ->
  reaches c_board start current ->
  forall nbs st,
    line_inv st ->
    In current (closed_set st) ->
    dict_get (g_score st) current = Some gc ->
    (forall n, In n nbs -> edge c_board current n) ->
    exists st',
      visit_all (point start dir d) current st nbs = Ret st'
      /\ line_inv st'
      /\ closed_set st' = closed_set st
      /\ (forall k, frontier st k -> frontier st' k)
      /\ (forall t,
            In (point start dir t) nbs -> 0 <= t <= d -> gc = t - 1 ->
            (forall j, t <= j <= d -> ~ In (point start dir j) (closed_set st)) ->
            frontier st' t).
Proof.
  intros Hcur Hreach. induction nbs as [|nb rest IH]; intros st Hinv Hcl Hgc Hedges.
  - exists st. simpl. split; [reflexivity|]. split; [assumption|].
    split; [reflexivity|]. split; [auto|]. intros t [].
  - destruct (visit_line st current nb gc Hinv Hcl Hgc
                (Hedges nb (or_introl eq_refl)) Hcur Hreach)
      as (st1 & Hvisit & Hinv1 & Hcl1 & Hgc1 & Hopen1 & Htight1 & Hnew1).
    destruct (IH st1 Hinv1) as (st' & Hall & Hinv' & Hcl' & Hkeep' & Hnew').
    + rewrite Hcl1. assumption.
    + assumption.
    + intros n Hn. apply Hedges. right; assumption.
    + exists st'. simpl. rewrite Hvisit. cbn [bind].
      split; [assumption|]. split; [assumption|]. split; [congruence|]. split.
      * intros k Hk. apply Hkeep'. eapply frontier_kept; eauto.
      * intros t [->|Hin] Ht Hgct Hbeyond.
        -- apply Hkeep'. destruct Hnew1 as (Hin1 & gv & Hgv & Hle).
           ++ apply Hbeyond. lia.
           ++ lia.
           ++ split; [assumption|]. split; [assumption|]. split.
              ** destruct (li_g _ Hinv1 _ _ Hgv) as (Hlow & _).
                 rewrite manhattan_to_point in Hlow by lia.
                 rewrite Hgv. f_equal. lia.
              ** intros j Hj. rewrite Hcl1. apply Hbeyond. lia.
        -- apply Hnew'; try assumption. rewrite Hcl1. assumption.
Qed.

Lemma close_line (st : search_state) (current : node) :
  line_inv st ->
  In current (open_set st) ->
  line_inv {| closed_set := set_add current (closed_set st);
              open_set := set_remove current (open_set st);
              came_from := came_from st; g_score := g_score st;
              f_score := f_score st |}.
Proof.
  intros [B K F G L] Hin.
  constructor; cbn [closed_set open_set came_from g_score f_score]; auto.
  - apply close_bounded; assumption.
  - intros n c Hc. destruct (L _ _ Hc) as (Hcl & Hg). split; [|assumption].
    apply In_set_add. auto.
Qed.

(** From any state of the loop that satisfies the invariant, with a
    cell of the line on the frontier, the loop reaches the goal and
    returns a path of one coordinate per step of the line, and one
    more. *)
Lemma search_loop_line :
  forall fuel st k,
    line_inv st ->
    frontier st k ->
    (length (all_nodes (dimensions c_board)) < fuel + length (closed_set st))%nat ->
    exists p,
      search_loop fuel (point start dir d) c_board st = Ret (Path p)
      /\ Z.of_nat (length p) = d + 1.
Proof.
  induction fuel as [|fuel IH]; intros st k Hinv Hfront Hfuel.
  - exfalso. destruct (li_bounded _ Hinv) as [Hnd Hc _ _ _].
    assert (length (closed_set st) <= length (all_nodes (dimensions c_board)))%nat.
    { apply NoDup_incl_length; [assumption|].
      intros n Hn. apply in_bounds_all_nodes. auto. }
    lia.
  - destruct (selected_on_optimum st k Hinv Hfront)
      as (current & gc & Hmin & Hopen & Hgc & Hsum & Hlow).
    simpl. destruct (open_set st) as [|o os] eqn:Hos; [contradiction|].
    rewrite <- Hos in *. clear o os Hos.
    rewrite Hmin. cbn [bind].
    pose proof (manhattan_nonneg start current) as Hnn.
    pose proof (manhattan_nonneg current (point start dir d)) as Hnn'.
    destruct (node_eqb current (point start dir d)) eqn:Hisgoal.
    + apply node_eqb_eq in Hisgoal. subst current.
      rewrite manhattan_same in Hsum.
      destruct (li_g _ Hinv _ _ Hgc) as (_ & Hlen & _).
      destruct (reconstruct_loop_length st Hinv (S (length (came_from st)))
                  (point start dir d) gc [point start dir d] Hgc)
        as (p & Hp & Hplen); [lia|].
      unfold reconstruct_path. rewrite Hp. cbn [bind].
      exists p. split; [reflexivity|]. rewrite Hplen. cbn [length]. lia.
    + assert (Hne : current <> point start dir d).
      { intros ->. rewrite (proj2 (node_eqb_eq _ _) eq_refl) in Hisgoal. discriminate. }
      pose proof (bi_open _ _ _ (li_bounded _ Hinv) _ Hopen) as Hcur.
      assert (Hreach : reaches c_board start current).
      { apply (bi_reached _ _ _ (li_bounded _ Hinv)).
        destruct (li_g _ Hinv _ _ Hgc) as (_ & _ & Hf & _). exact Hf. }
      rewrite (node_neighbors_inert c_board current Hkeys).
      destruct (vacant_six_complete c_board current Hshape Hcur)
        as (nbs & Hnbs & Hcomplete).
      rewrite Hnbs. cbn [bind].
      pose proof (close_line st current Hinv Hopen) as Hinv1.
      destruct (close_bounded _ _ _ _ (li_bounded _ Hinv) Hopen) as [_ Hadd].
      set (st1 := {| closed_set := set_add current (closed_set st);
                     open_set := set_remove current (open_set st);
                     came_from := came_from st; g_score := g_score st;
                     f_score := f_score st |}) in *.
      assert (Hcl1 : In current (closed_set st1)).
      { unfold st1. cbn [closed_set]. apply In_set_add. auto. }
      destruct (visit_all_line current gc Hcur Hreach nbs st1 Hinv1 Hcl1 Hgc)
        as (st2 & Hvisit & Hinv2 & Hcl2 & Hkeep & Hnew).
      { intros n Hn. exists nbs. split; [|assumption].
        rewrite (node_neighbors_inert c_board current Hkeys). assumption. }
      rewrite Hvisit. cbn [bind].
      destruct Hfront as (Hk & Hkopen & Hgk & Hbeyond).
      assert (Hfront2 : exists t, frontier st2 t).
      { destruct (node_eqb current (point start dir gc) && (k <=? gc)) eqn:Hcase.
        - apply andb_true_iff in Hcase. destruct Hcase as [Hon Hkgc].
          apply node_eqb_eq in Hon. apply Z.leb_le in Hkgc.
          assert (Hgcd : gc < d).
          { destruct (Z.eq_dec gc d) as [->|]; [congruence|lia]. }
          exists (gc + 1). apply Hnew.
          + apply Hcomplete.
            * rewrite Hon at 1. apply point_step. assumption.
            * apply (point_in_bounds _ _ _ d); auto. lia.
            * apply Hline. lia.
          + lia.
          + lia.
          + intros j Hj. unfold st1. cbn [closed_set]. rewrite Hadd.
            intros Hin. apply in_app_iff in Hin. destruct Hin as [Hin|[Heq|[]]].
            * apply (Hbeyond j); [lia|assumption].
            * rewrite Hon in Heq. apply point_inj in Heq; [lia|assumption].
        - exists k. apply Hkeep.
          assert (Hoff : forall j, k <= j <= d -> current <> point start dir j).
          { intros j Hj ->.
            rewrite manhattan_to_point in Hlow by lia.
            rewrite manhattan_point_goal in Hsum by lia.
            assert (gc = j) by lia. subst j.
            rewrite (proj2 (node_eqb_eq _ _) eq_refl) in Hcase.
            cbn [andb] in Hcase. apply Z.leb_gt in Hcase. lia. }
          split; [assumption|]. split; [|split].
          + unfold st1. cbn [open_set]. apply In_set_remove. split; [assumption|].
            intros Heq. apply (Hoff k); [lia|congruence].
          + assumption.
          + intros j Hj. unfold st1. cbn [closed_set]. rewrite Hadd.
            intros Hin. apply in_app_iff in Hin. destruct Hin as [Hin|[Heq|[]]].
            * apply (Hbeyond j); assumption.
            * apply (Hoff j); [lia|congruence]. }
      destruct Hfront2 as (t & Hfront2).
      apply (IH st2 t Hinv2 Hfront2).
      rewrite Hcl2. unfold st1. cbn [closed_set]. rewrite Hadd, length_app.
      simpl. lia.
Qed.

(** The search along the line. *)
Lemma search_line (fuel : nat) :
  (length (all_nodes (dimensions c_board)) < fuel)%nat ->
  exists p,
    search fuel start (point start dir d) c_board = Ret (Path p)
    /\ Z.of_nat (length p) = manhattan start (point start dir d) + 1.
Proof.
  intros Hfuel. rewrite manhattan_to_point by lia. unfold search.
  apply (search_loop_line fuel _ 0).
  - constructor; simpl.
    + constructor; simpl.
      * constructor.
      * intros n [].
      * intros n [<-|[]]. assumption.
      * intros n _ [].
      * intros n. unfold dict_mem. simpl.
        destruct (node_eqb start n) eqn:E; [|discriminate].
        apply node_eqb_eq in E. subst n. intros _. apply reaches_here.
    + repeat constructor. simpl. tauto.
    + intros n fv. destruct (node_eqb start n) eqn:E; [|discriminate].
      apply node_eqb_eq in E. subst n. intros [= <-]. exists 0. split; [reflexivity|lia].
    + intros n gv. destruct (node_eqb start n) eqn:E; [|discriminate].
      apply node_eqb_eq in E. subst n. intros [= <-].
      rewrite manhattan_same. unfold dict_mem. simpl.
      rewrite (proj2 (node_eqb_eq _ _) eq_refl). repeat split; auto; lia.
    + intros n c [=].
  - split; [lia|]. rewrite point_0. simpl. split; [auto|]. split.
    + rewrite (proj2 (node_eqb_eq _ _) eq_refl). reflexivity.
    + intros j _ [].
  - simpl. lia.
Qed.

End StraightLine.

(** X30.  On a board whose gate identifiers are numbers or text and whose
    array has a cell at every coordinate, a search between two
    coordinates joined by a straight line of fewer than 1000 empty
    cells, run with more fuel than the grid has cells, returns a path
    of as many steps as the Manhattan distance between them: one
    coordinate more than the distance. *)
Theorem search_straight_line_under_1000 (fuel : nat) (c_board : circuit_board)
  (start dir : node) (d : Z) :
  (forall n, dict_get (needs_connections c_board) (KNode n) = None) ->
  (forall n, in_bounds (dimensions c_board) n ->
             exists v, get_node (board c_board) n = Ret v) ->
  unit_step (0, 0, 0) dir ->
  0 <= d < 1000 ->
  in_bounds (dimensions c_board) start ->
  in_bounds (dimensions c_board) (point start dir d) ->
  (forall k, 0 < k <= d ->
             get_node (board c_board) (point start dir k) = Ret EMPTY) ->
  (length (all_nodes (dimensions c_board)) < fuel)%nat ->
  exists p,
    search fuel start (point start dir d) c_board = Ret (Path p)
    /\ Z.of_nat (length p) = manhattan start (point start dir d) + 1.
Proof.
  intros. eapply search_line; eauto.
Qed.

Lemma facing_gates_shape (n : node) :
  in_bounds (dimensions facing_gates) n ->
  exists v, get_node (board facing_gates) n = Ret v.
Proof.
  destruct n as [[nz nx] ny]. simpl. intros (Hz & Hx & Hy).
  assert (nz = 0) as -> by lia.
  assert (nx = 0 \/ nx = 1 \/ nx = 2) as [->|[->| ->]] by lia;
    assert (ny = 0 \/ ny = 1 \/ ny = 2 \/ ny = 3 \/ ny = 4)
      as [->|[->|[->|[->| ->]]]] by lia;
    eexists; reflexivity.
Qed.

Example search_along_the_edge :
  exists p,
    search 16 (0, 0, 0) (0, 0, 4) facing_gates = Ret (Path p)
    /\ Z.of_nat (length p) = manhattan (0, 0, 0) (0, 0, 4) + 1.
Proof.
  apply (search_straight_line_under_1000 16 facing_gates (0, 0, 0) (0, 0, 1) 4).
  - intros n. reflexivity.
  - exact facing_gates_shape.
  - simpl. lia.
  - lia.
  - simpl. lia.
  - simpl. lia.
  - intros k Hk.
    assert (k = 1 \/ k = 2 \/ k = 3 \/ k = 4) as [->|[->|[->| ->]]] by lia;
      reflexivity.
  - simpl. lia.
Defined.

(* ================================================================= *)
(** ** The distance of the pathfinder *)

Lemma manhattan_sym (a b : node) : manhattan a b = manhattan b a.
Proof.
  destruct a as [[az ax] ay], b as [[bz bx] by']. unfold manhattan. lia.
Qed.

Lemma manhattan_zero (a b : node) : manhattan a b = 0 <-> a = b.
Proof.
  destruct a as [[az ax] ay], b as [[bz bx] by']. unfold manhattan. split.
  - intros H. f_equal; [f_equal|]; lia.
  - intros [= -> -> ->]. lia.
Qed.

(** X1.  [manhattan] is a metric on coordinates: it is never negative,
    it is zero between a coordinate and itself only, it does not depend
    on the order of its arguments, and it obeys the triangle
    inequality. *)
Theorem manhattan_is_metric (a b c : node) :
  0 <= manhattan a b
  /\ (manhattan a b = 0 <-> a = b)
  /\ manhattan a b = manhattan b a
  /\ manhattan a c <= manhattan a b + manhattan b c.
Proof.
  split; [apply manhattan_nonneg|].
  split; [apply manhattan_zero|].
  split; [apply manhattan_sym | apply manhattan_triangle].
Qed.

(* ================================================================= *)
(** ** More on the paths of the pathfinder *)

(** X2.  A search from a coordinate to itself returns that coordinate
    alone, whatever the board holds there. *)
Theorem search_same_cell (fuel : nat) (c_board : circuit_board) (s : node) :
  search (S fuel) s s c_board = Ret (Path [s]).
Proof.
  unfold search. simpl.
  change (node_eqb s s) with (eqb s s). rewrite eqb_refl. simpl.
  change (node_eqb s s) with (eqb s s). rewrite eqb_refl. reflexivity.
Qed.

Lemma contiguous_tail (a : node) (p : list node) :
  contiguous (a :: p) -> contiguous p.
Proof. intros H i x y Hx Hy. apply (H (S i) x y); assumption. Qed.

Lemma contiguous_manhattan :
  forall p a,
    contiguous (a :: p) ->
    manhattan a (last (a :: p) a) <= Z.of_nat (length p).
Proof.
  induction p as [|b p IH]; intros a Hc.
  - simpl. rewrite manhattan_same. lia.
  - rewrite last_nonempty.
    pose proof (Hc O a b eq_refl eq_refl) as Hab.
    apply manhattan_unit_step in Hab.
    pose proof (IH b (contiguous_tail _ _ Hc)) as Hb.
    pose proof (manhattan_triangle a b (last (b :: p) b)) as Ht.
    cbn [length]. lia.
Qed.

(** X3.  A returned path is never shorter than the distance allows: it
    holds at least one coordinate more than the Manhattan distance
    between start and goal. *)
Theorem search_path_at_least_manhattan (fuel : nat) (start goal : node)
  (c_board : circuit_board) (p : list node) :
  search fuel start goal c_board = Ret (Path p) ->
  manhattan start goal + 1 <= Z.of_nat (length p).
Proof.
  intros H. apply search_path in H.
  destruct H as ((rest & ->) & Hlast & _ & Hc).
  pose proof (contiguous_manhattan rest goal Hc) as Hm.
  rewrite Hlast, manhattan_sym in Hm. cbn [length]. lia.
Qed.

Lemma search_path_at_least_manhattan_witness :
  search 5 (0, 0, 0) (0, 0, 2) facing_gates
  = Ret (Path [(0, 0, 2); (0, 0, 1); (0, 0, 0)])
  /\ manhattan (0, 0, 0) (0, 0, 2) + 1
     <= Z.of_nat (length [(0, 0, 2); (0, 0, 1); (0, 0, 0)]).
Proof.
  split; [vm_compute; reflexivity|].
  apply (search_path_at_least_manhattan 5 (0, 0, 0) (0, 0, 2) facing_gates).
  vm_compute. reflexivity.
Defined.

(** X4.  The pathfinder never walks over an occupied cell: every
    coordinate of a returned path, the start apart, is an empty cell of
    the board it was given. *)
Theorem search_path_over_empty_cells (fuel : nat) (start goal : node)
  (c_board : circuit_board) (p : list node) :
  search fuel start goal c_board = Ret (Path p) ->
  forall n, In n p -> n = start \/ get_node (board c_board) n = Ret EMPTY.
Proof.
  intros H. apply search_cells in H. rewrite Forall_forall in H. exact H.
Qed.

Lemma search_path_over_empty_cells_witness :
  search 5 (0, 0, 0) (0, 0, 2) facing_gates
  = Ret (Path [(0, 0, 2); (0, 0, 1); (0, 0, 0)])
  /\ forall n, In n [(0, 0, 2); (0, 0, 1); (0, 0, 0)] ->
       n = (0, 0, 0) \/ get_node (board facing_gates) n = Ret EMPTY.
Proof.
  split; [vm_compute; reflexivity|].
  apply (search_path_over_empty_cells 5 (0, 0, 0) (0, 0, 2) facing_gates).
  vm_compute. reflexivity.
Defined.

(* ----------------------------------------------------------------- *)
(** *** Costs fall along the back-pointers *)

Lemma visit_scores (c_board : circuit_board) (goal current neighbor : node)
  (st st' : search_state) :
  score_inv st ->
  edge c_board current neighbor ->
  visit goal current st neighbor = Ret st' ->
  score_inv st'.
Proof.
  intros [Hr Hl] Hedge. unfold visit.
  destruct (mem neighbor (closed_set st)).
  { intros [= <-]. constructor; assumption. }
  cbv zeta. cbn [g_score closed_set open_set came_from f_score].
  unfold dict_getitem.
  destruct (dict_get (g_score st) current) as [gc|] eqn:Gc; cbn [bind];
    [|discriminate].
  apply edge_unit_step in Hedge. destruct Hedge as [Hstep _].
  pose proof (manhattan_unit_step _ _ Hstep) as Hm. rewrite Hm.
  assert (Hne : neighbor <> current).
  { intros ->. rewrite manhattan_same in Hm. discriminate. }
  pose proof (Hr _ _ Gc) as Hgc.
  destruct (gc + 1 >=? dict_get_default (g_score st) neighbor 1000) eqn:Hcmp.
  { intros [= <-]. constructor; assumption. }
  rewrite Z.geb_leb in Hcmp. apply Z.leb_gt in Hcmp.
  assert (Hdef : dict_get_default (g_score st) neighbor 1000 <= 1000).
  { unfold dict_get_default.
    destruct (dict_get (g_score st) neighbor) as [v|] eqn:G; [|lia].
    apply Hr in G. lia. }
  intros [= <-]. constructor; cbn [g_score came_from].
  - intros n v. rewrite dict_get_set. destruct (eqb neighbor n).
    + intros [= <-]. lia.
    + apply Hr.
  - intros n c. rewrite dict_get_set. destruct (eqb neighbor n) eqn:E.
    + apply eqb_eq in E. subst n. intros [= <-].
      exists (gc + 1), gc. rewrite dict_get_set_eq.
      rewrite dict_get_set_neq by assumption. repeat split; auto. lia.
    + apply eqb_neq in E. intros G.
      destruct (Hl _ _ G) as (vn & vc & Gn & Gcc & Hlt).
      rewrite (dict_get_set_neq _ _ _ _ E).
      rewrite dict_get_set. destruct (eqb neighbor c) eqn:Ec.
      * apply eqb_eq in Ec. subst c.
        exists vn, (gc + 1). repeat split; auto.
        unfold dict_get_default in Hcmp. rewrite Gcc in Hcmp. lia.
      * exists vn, vc. auto.
Qed.

Lemma visit_all_scores (c_board : circuit_board) (goal current : node) :
  forall nbs st st',
    score_inv st ->
    (forall n, In n nbs -> edge c_board current n) ->
    visit_all goal current st nbs = Ret st' ->
    score_inv st'.
Proof.
  induction nbs as [|nb rest IH]; intros st st' Hinv Hedges; simpl.
  - intros [= <-]. assumption.
  - intros H. bind_inv H.
    eapply IH; [|intros n Hn; apply Hedges; right; exact Hn|exact H].
    eapply visit_scores; eauto. apply Hedges. left. reflexivity.
Qed.

(** Along a chain of back-pointers the costs fall, so no node comes
    twice and the chain is no longer than the cost of its first node
    allows. *)
Lemma chain_descends (st : search_state) :
  score_inv st ->
  forall n p,
    chain (came_from st) n p ->
    NoDup p
    /\ (forall m, In m (tl p) ->
          exists vm vn,
            dict_get (g_score st) m = Some vm
            /\ dict_get (g_score st) n = Some vn /\ vm < vn)
    /\ (p = [n]
        \/ exists vn,
             dict_get (g_score st) n = Some vn
             /\ Z.of_nat (length p) <= vn + 1).
Proof.
  intros [Hr Hl]. induction 1 as [n Hn|n c rest Hn Hch IH].
  - split; [repeat constructor; simpl; tauto|].
    split; [simpl; tauto | auto].
  - destruct IH as (Hnd & Hbelow & Hlen).
    destruct (Hl _ _ Hn) as (vn & vc & Gn & Gc & Hlt).
    assert (Hrest : forall m, In m rest ->
              exists vm, dict_get (g_score st) m = Some vm /\ vm < vn).
    { intros m Hm. inversion Hch as [x Hx|x y r Hx Hr']; subst.
      - destruct Hm as [<-|[]]. exists vc. auto.
      - destruct Hm as [<-|Hm]; [exists vc; auto|].
        destruct (Hbelow m Hm) as (vm & vc' & Gm & Gc' & Hlt').
        exists vm. split; [assumption|]. rewrite Gc in Gc'.
        injection Gc' as <-. lia. }
    split; [|split].
    + constructor; [|assumption]. intros Hin.
      destruct (Hrest _ Hin) as (vm & Gm & Hlt'). rewrite Gn in Gm.
      injection Gm as <-. lia.
    + intros m Hm. simpl in Hm. destruct (Hrest _ Hm) as (vm & Gm & Hlt').
      exists vm, vn. auto.
    + right. exists vn. split; [assumption|].
      destruct Hlen as [->|(vc' & Gc' & Hle)].
      * cbn [length]. apply Hr in Gc. lia.
      * rewrite Gc in Gc'. injection Gc' as <-. cbn [length] in *. lia.
Qed.

Lemma search_loop_scores (c_board : circuit_board) (goal : node) :
  forall fuel st p,
    score_inv st ->
    search_loop fuel goal c_board st = Ret (Path p) ->
    NoDup p /\ (length p <= 1000)%nat.
Proof.
  induction fuel as [|fuel IH]; intros st p Hinv; simpl; [discriminate|].
  destruct (open_set st) eqn:Hopen; [discriminate|]. rewrite <- Hopen.
  intros H. bind_inv H.
  destruct (node_eqb a goal) eqn:Hgoal.
  - bind_inv H. injection H as <-.
    apply reconstruct_path_chain in E0.
    destruct (chain_descends st Hinv _ _ E0) as (Hnd & _ & Hlen).
    split; [assumption|].
    destruct Hlen as [->|(vn & Gn & Hle)]; [simpl; lia|].
    apply (sc_range _ Hinv) in Gn. lia.
  - bind_inv H. bind_inv H.
    eapply IH; [|exact H].
    match type of E1 with
    | visit_all _ _ ?s _ = _ =>
        refine (visit_all_scores c_board goal a a0 s a1 _ _ E1)
    end.
    + destruct Hinv as [Hr Hl]. constructor; assumption.
    + intros m Hm. exists a0. auto.
Qed.

Lemma search_scores (fuel : nat) (start goal : node)
  (c_board : circuit_board) (p : list node) :
  search fuel start goal c_board = Ret (Path p) ->
  NoDup p /\ (length p <= 1000)%nat.
Proof.
  unfold search. apply search_loop_scores.
  constructor; simpl.
  - intros n v. destruct (node_eqb start n); [|discriminate].
    intros [= <-]. lia.
  - discriminate.
Qed.

(** X5.  A returned path passes no coordinate twice, and it holds at
    most 1000 coordinates: the default of line 49 keeps every recorded
    cost below 1000. *)
Theorem search_path_simple_and_capped (fuel : nat) (start goal : node)
  (c_board : circuit_board) (p : list node) :
  search fuel start goal c_board = Ret (Path p) ->
  NoDup p /\ (length p <= 1000)%nat.
Proof. apply search_scores. Qed.

Lemma search_path_simple_and_capped_witness :
  NoDup [(0, 0, 2); (0, 0, 1); (0, 0, 0)]
  /\ (length [(0, 0, 2); (0, 0, 1); (0, 0, 0)] <= 1000)%nat.
Proof.
  apply (search_path_simple_and_capped 5 (0, 0, 0) (0, 0, 2) facing_gates).
  vm_compute. reflexivity.
Defined.

(* ================================================================= *)
(** ** Walking the back-pointers *)

Lemma chain_head (cf : dict node node) (n : node) (p : list node) :
  chain cf n p -> exists rest, p = n :: rest.
Proof. destruct 1; eauto. Qed.

Lemma chain_functional (cf : dict node node) :
  forall n p, chain cf n p -> forall q, chain cf n q -> p = q.
Proof.
  induction 1 as [n Hn|n c rest Hn Hch IH]; intros q Hq.
  - inversion Hq; subst; [reflexivity | congruence].
  - inversion Hq as [x Hx|x y r Hx Hr]; subst; [congruence|].
    rewrite Hn in Hx. injection Hx as <-. f_equal. apply IH. assumption.
Qed.

(** From any node of a chain the back-pointers lead on as the rest of
    the chain does. *)
Lemma chain_suffix (cf : dict node node) :
  forall n p, chain cf n p ->
  forall m, In m p -> exists q, chain cf m q /\ (length q <= length p)%nat.
Proof.
  induction 1 as [n Hn|n c rest Hn Hch IH]; intros m Hm.
  - destruct Hm as [<-|[]]. exists [n]. split; [constructor; assumption|auto].
  - destruct Hm as [<-|Hm].
    + exists (n :: rest). split; [econstructor; eassumption|auto].
    + destruct (IH m Hm) as (q & Hq & Hle). exists q. split; [assumption|].
      simpl. lia.
Qed.

Lemma chain_NoDup (cf : dict node node) :
  forall n p, chain cf n p -> NoDup p.
Proof.
  induction 1 as [n Hn|n c rest Hn Hch IH].
  - repeat constructor. simpl. tauto.
  - constructor; [|assumption]. intros Hin.
    destruct (chain_suffix cf c rest Hch n Hin) as (q & Hq & Hle).
    assert (Hfull : chain cf n (n :: rest)) by (econstructor; eassumption).
    rewrite (chain_functional cf n q Hq _ Hfull) in Hle. simpl in Hle. lia.
Qed.

Lemma chain_keys (cf : dict node node) :
  forall n p, chain cf n p -> incl (removelast p) (map fst cf).
Proof.
  induction 1 as [n Hn|n c rest Hn Hch IH]; [intros x []|].
  destruct (chain_head _ _ _ Hch) as (r & ->).
  change (removelast (n :: c :: r)) with (n :: removelast (c :: r)).
  intros x [<-|Hx]; [|apply IH; assumption].
  apply dict_get_In in Hn. destruct Hn as (k' & -> & Hin).
  apply (in_map fst) in Hin. exact Hin.
Qed.

Lemma NoDup_removelast {A : Type} (l : list A) : NoDup l -> NoDup (removelast l).
Proof.
  induction l as [|a l IH]; intros H; [constructor|].
  destruct l as [|b l]; [constructor|].
  change (removelast (a :: b :: l)) with (a :: removelast (b :: l)).
  inversion H as [|? ? Hnot Hnd]; subst. constructor; [|apply IH; assumption].
  intros Hin. apply Hnot.
  clear - Hin. revert Hin. generalize (b :: l). intros l0.
  induction l0 as [|x l0 IH]; simpl; [tauto|].
  destruct l0 as [|y l0]; [simpl; tauto|].
  intros [->|Hin]; [left; reflexivity | right; apply IH; assumption].
Qed.

Lemma length_removelast {A : Type} (l : list A) :
  length (removelast l) = pred (length l).
Proof.
  induction l as [|a l IH]; [reflexivity|].
  destruct l as [|b l]; [reflexivity|].
  change (removelast (a :: b :: l)) with (a :: removelast (b :: l)).
  cbn [length] in *. rewrite IH. reflexivity.
Qed.

Lemma chain_length (cf : dict node node) (n : node) (p : list node) :
  chain cf n p -> (length p <= S (length cf))%nat.
Proof.
  intros H.
  pose proof (NoDup_incl_length (NoDup_removelast _ (chain_NoDup _ _ _ H))
                (chain_keys _ _ _ H)) as Hle.
  rewrite length_removelast, length_map in Hle. lia.
Qed.

Lemma reconstruct_loop_returns (cf : dict node node) :
  forall n q, chain cf n q ->
  forall fuel pre, (length q <= fuel)%nat ->
    reconstruct_loop fuel cf n (pre ++ [n]) = Ret (pre ++ q).
Proof.
  induction 1 as [n Hn|n c rest Hn Hch IH]; intros fuel pre Hfuel;
    (destruct fuel as [|fuel]; [simpl in Hfuel; lia|]); simpl; rewrite Hn.
  - reflexivity.
  - rewrite (IH fuel (pre ++ [n])) by (simpl in Hfuel; lia).
    rewrite <- app_assoc. reflexivity.
Qed.

Lemma chain_links (cf : dict node node) :
  forall n p, chain cf n p ->
    dict_get cf (last p n) = None
    /\ forall i a b,
         nth_error p i = Some a -> nth_error p (S i) = Some b ->
         dict_get cf a = Some b.
Proof.
  induction 1 as [n Hn|n c rest Hn Hch IH].
  - split; [assumption|]. intros [|i] a b; simpl; [discriminate|].
    destruct i; discriminate.
  - destruct (chain_head _ _ _ Hch) as (r & ->). destruct IH as (Hlast & Hlinks).
    split.
    + rewrite last_nonempty. exact Hlast.
    + intros [|i] a b; simpl.
      * intros [= <-] [= <-]. assumption.
      * apply Hlinks.
Qed.

Lemma reconstruct_path_of_chain (cf : dict node node) (current : node)
  (p : list node) :
  chain cf current p -> reconstruct_path cf current = Ret p.
Proof.
  intros H. unfold reconstruct_path.
  apply (reconstruct_loop_returns cf current p H _ []).
  apply chain_length with (n := current). assumption.
Qed.

(** X6.  [reconstruct_path] returns exactly when the back-pointers
    followed from [current] come to a node that has none, and then it
    returns the nodes passed, [current] first. *)
Theorem reconstruct_path_returns_the_chain (cf : dict node node)
  (current : node) (p : list node) :
  reconstruct_path cf current = Ret p <-> chain cf current p.
Proof.
  split; [apply reconstruct_path_chain | apply reconstruct_path_of_chain].
Qed.

(** X7.  The list [reconstruct_path] returns starts with [current],
    each of its items is followed by the item [came_from] maps it to,
    and its last item is not a key of [came_from]. *)
Theorem reconstruct_path_follows_back_pointers (cf : dict node node)
  (current : node) (p : list node) :
  reconstruct_path cf current = Ret p ->
  (exists rest, p = current :: rest)
  /\ dict_get cf (last p current) = None
  /\ forall i a b,
       nth_error p i = Some a -> nth_error p (S i) = Some b ->
       dict_get cf a = Some b.
Proof.
  intros H. apply reconstruct_path_chain in H.
  split; [eapply chain_head; eassumption|]. apply chain_links. assumption.
Qed.

Lemma reconstruct_path_follows_back_pointers_witness :
  (exists rest, [(0, 0, 2); (0, 0, 1); (0, 0, 0)] = (0, 0, 2) :: rest)
  /\ dict_get [((0, 0, 1), (0, 0, 0)); ((0, 0, 2), (0, 0, 1))]
       (last [(0, 0, 2); (0, 0, 1); (0, 0, 0)] (0, 0, 2)) = None
  /\ forall i a b,
       nth_error [(0, 0, 2); (0, 0, 1); (0, 0, 0)] i = Some a ->
       nth_error [(0, 0, 2); (0, 0, 1); (0, 0, 0)] (S i) = Some b ->
       dict_get [((0, 0, 1), (0, 0, 0)); ((0, 0, 2), (0, 0, 1))] a = Some b.
Proof.
  apply (reconstruct_path_follows_back_pointers
           [((0, 0, 1), (0, 0, 0)); ((0, 0, 2), (0, 0, 1))] (0, 0, 2)).
  vm_compute. reflexivity.
Defined.

(* ================================================================= *)
(** ** The connector test *)

Lemma any_gate_done_spec (needs : dict key Z) :
  forall gs,
    Forall (fun g => dict_mem needs g = true) gs ->
    exists r,
      any_gate_done needs gs = Ret r
      /\ (r = true <-> exists g, In g gs /\ dict_get needs g = Some 0).
Proof.
  induction gs as [|g gs IH]; intros Hall; simpl.
  - exists false. split; [reflexivity|]. split; [discriminate|].
    intros (g & [] & _).
  - inversion Hall as [|? ? Hg Hrest]; subst.
    unfold dict_mem in Hg. unfold dict_getitem.
    destruct (dict_get needs g) as [c|] eqn:G; [|discriminate]. cbn [bind].
    destruct (c =? 0) eqn:Hc.
    + apply Z.eqb_eq in Hc. subst c. exists true. split; [reflexivity|].
      split; [|reflexivity]. intros _. exists g. auto.
    + apply Z.eqb_neq in Hc. destruct (IH Hrest) as (r & -> & Hr).
      exists r. split; [reflexivity|]. rewrite Hr. split.
      * intros (h & Hin & Hh). exists h. auto.
      * intros (h & [<-|Hin] & Hh); [congruence|]. exists h. auto.
Qed.

(** X8.  For a registered connector whose neighbouring gates all have
    a counter, [check_free_connector] returns [True] exactly when one
    of these gates needs no more connections. *)
Theorem check_free_connector_some_gate_done (c_board : circuit_board)
  (n : node) (gs : list key) :
  dict_get (neighbor_of c_board) n = Some gs ->
  Forall (fun g => dict_mem (needs_connections c_board) g = true) gs ->
  exists r,
    check_free_connector c_board n = Ret r
    /\ (r = true <->
        exists g, In g gs /\ dict_get (needs_connections c_board) g = Some 0).
Proof.
  intros Hn Hall. unfold check_free_connector, dict_getitem. rewrite Hn.
  cbn [bind]. apply any_gate_done_spec. assumption.
Qed.

Lemma check_free_connector_some_gate_done_witness :
  exists r,
    check_free_connector facing_gates (0, 1, 2) = Ret r
    /\ (r = true <->
        exists g, In g [KInt 1; KInt 2]
                  /\ dict_get (needs_connections facing_gates) g = Some 0).
Proof.
  apply (check_free_connector_some_gate_done facing_gates (0, 1, 2)
           [KInt 1; KInt 2]).
  - reflexivity.
  - repeat constructor.
Defined.

Lemma any_gate_done_fresh (conns : list (key * key)) :
  forall gl,
    any_gate_done (gate_connectors conns) gl
    = if forallb (fun g => negb (degree conns g =? 0)) gl
      then Ret false else Raise KeyError.
Proof.
  induction gl as [|g gl IH]; simpl; [reflexivity|].
  unfold dict_getitem. rewrite gate_connectors_degree.
  destruct (degree conns g =? 0) eqn:Hd; cbn [bind negb andb]; [reflexivity|].
  rewrite Hd. apply IH.
Qed.

(** X9.  On a board as the constructor leaves it no gate has the
    counter zero, and a gate that no connection names has no counter at
    all.  So [check_free_connector] returns [False] for a connector
    whose gates all appear in the connection list, and raises
    [KeyError] as soon as one of them does not; it returns [True] for
    none. *)
Theorem check_free_connector_on_new_board (gs : dict key node)
  (conns : list (key * key)) (dims : Z * Z * Z) (self : circuit_board)
  (n : node) (gl : list key) :
  new_board gs conns dims = Ret self ->
  dict_get (neighbor_of self) n = Some gl ->
  check_free_connector self n
  = if forallb (fun g => negb (degree conns g =? 0)) gl
    then Ret false else Raise KeyError.
Proof.
  intros Hnew Hn. apply new_board_counts in Hnew. destruct Hnew as [_ Hneeds].
  unfold check_free_connector, dict_getitem. rewrite Hn, Hneeds. cbn [bind].
  apply any_gate_done_fresh.
Qed.

Lemma check_free_connector_on_new_board_witness :
  check_free_connector walled_row (0, 0, 2) = Raise KeyError.
Proof.
  apply (check_free_connector_on_new_board
           [(KInt 1, (0, 0, 1))] [] (1, 1, 3) walled_row (0, 0, 2) [KInt 1]).
  - vm_compute. reflexivity.
  - reflexivity.
Defined.

(* ================================================================= *)
(** ** The neighbors of a cell *)

Lemma probe_within (b : grid) (guard : bool) (cell : node)
  (acc l cands : list node) :
  probe b guard cell acc = Ret l ->
  incl acc cands -> NoDup acc -> ~ In cell cands ->
  incl l (cands ++ [cell]) /\ NoDup l.
Proof.
  unfold probe. intros H Hincl Hnd Hnot.
  assert (Hacc : incl acc (cands ++ [cell])).
  { intros x Hx. apply in_app_iff. left. apply Hincl. assumption. }
  destruct guard; [|injection H as <-; auto].
  destruct (get_node b cell) as [c| |]; cbn [bind] in H; try discriminate.
  destruct (label_eqb c EMPTY); injection H as <-; [|auto].
  split.
  - intros x Hx. apply in_app_iff in Hx. apply in_app_iff.
    destruct Hx as [Hx|Hx]; [left; apply Hincl; assumption | right; assumption].
  - apply NoDup_app; [assumption| repeat constructor; simpl; tauto|].
    intros x Hx [<-|[]]. apply Hnot, Hincl, Hx.
Qed.

Lemma vacant_six_NoDup (c_board : circuit_board) (c : node) (l : list node) :
  vacant_six c_board c = Ret l -> NoDup l.
Proof.
  unfold vacant_six. destruct (dimensions c_board) as [[bz bx] by'].
  destruct c as [[cz cx] cy]. intros H.
  repeat bind_inv H.
  repeat match goal with
  | P : probe _ _ ?cell ?acc = Ret _ |- _ =>
      match goal with
      | I : incl acc ?cands |- _ =>
          let I' := fresh "I" in
          let N := fresh "N" in
          destruct (probe_within _ _ _ _ _ cands P I) as [I' N];
          [assumption
          |simpl; intros D;
           repeat (destruct D as [D|D]; [injection D; lia|]); exact D
          |clear P I]
      | _ =>
          let I' := fresh "I" in
          let N := fresh "N" in
          destruct (probe_within _ _ _ _ _ [] P (incl_refl _) (NoDup_nil _))
            as [I' N]; [simpl; tauto|clear P]
      end
  end.
  assumption.
Qed.

(** X10.  On a grid that holds a cell at every coordinate of its
    dimensions, with gate identifiers that are numbers or text,
    [node_neighbors] of a coordinate of the grid returns each empty
    cell one unit step away, once, and nothing else. *)
Theorem node_neighbors_exact (c_board : circuit_board) (c : node) :
  Forall (fun kv => plain_key (fst kv)) (needs_connections c_board) ->
  (forall n, in_bounds (dimensions c_board) n ->
             exists v, get_node (board c_board) n = Ret v) ->
  in_bounds (dimensions c_board) c ->
  exists l,
    node_neighbors c_board c = Ret l
    /\ NoDup l
    /\ forall n,
         In n l <->
         unit_step c n /\ in_bounds (dimensions c_board) n
         /\ get_node (board c_board) n = Ret EMPTY.
Proof.
  intros Hkeys Hgrid Hc.
  rewrite node_neighbors_inert
    by (intros m; apply dict_get_plain_keys; assumption).
  destruct (vacant_six_complete c_board c Hgrid Hc) as (l & Hl & Hall).
  exists l. split; [assumption|]. split; [eapply vacant_six_NoDup; eassumption|].
  intros n. split.
  - intros Hin. destruct (vacant_six_In _ _ _ _ Hl Hin) as [Hs He].
    repeat split; try assumption. eapply vacant_six_in_bounds; eassumption.
  - intros (Hs & Hb & He). apply Hall; assumption.
Qed.

Lemma node_neighbors_exact_witness :
  exists l,
    node_neighbors facing_gates (0, 1, 1) = Ret l
    /\ NoDup l
    /\ forall n,
         In n l <->
         unit_step (0, 1, 1) n /\ in_bounds (dimensions facing_gates) n
         /\ get_node (board facing_gates) n = Ret EMPTY.
Proof.
  apply (node_neighbors_exact facing_gates (0, 1, 1)).
  - repeat constructor.
  - apply facing_gates_shape.
  - simpl. lia.
Defined.

(* ================================================================= *)
(** ** Reading and writing cells *)

Lemma nth_error_upd {A : Type} (f : A -> A) :
  forall n k (l : list A),
    nth_error (upd n f l) k
    = option_map (fun a => if (k =? n)%nat then f a else a) (nth_error l k).
Proof.
  induction n as [|n IH]; intros [|k] [|a l]; simpl; try reflexivity.
  - destruct (nth_error l k); reflexivity.
  - apply IH.
Qed.

Lemma getitem_upd {A : Type} (f : A -> A) (n : nat) (l : list A) (i : Z) :
  getitem (upd n f l) i
  = (k <- np_index (length l) i ;;
     match nth_error l k with
     | Some a => Ret (if (k =? n)%nat then f a else a)
     | None => Raise IndexError
     end).
Proof.
  unfold getitem. rewrite upd_length.
  destruct (np_index (length l) i) as [k| |]; cbn [bind]; try reflexivity.
  rewrite nth_error_upd. destruct (nth_error l k); reflexivity.
Qed.

Lemma np_index_lt (len : nat) (i : Z) (k : nat) :
  np_index len i = Ret k -> (k < len)%nat.
Proof.
  unfold np_index.
  destruct ((0 <=? i) && (i <? Z.of_nat len)) eqn:E1.
  - intros [= <-]. apply andb_true_iff in E1. lia.
  - destruct ((- Z.of_nat len <=? i) && (i <? 0)) eqn:E2; [|discriminate].
    intros [= <-]. apply andb_true_iff in E2. lia.
Qed.

Lemma np_index_front (len : nat) (i : Z) (k : nat) :
  0 <= i -> np_index len i = Ret k -> i = Z.of_nat k.
Proof.
  unfold np_index. intros Hi.
  destruct ((0 <=? i) && (i <? Z.of_nat len)) eqn:E1.
  - intros [= <-]. lia.
  - destruct ((- Z.of_nat len <=? i) && (i <? 0)) eqn:E2; [|discriminate].
    apply andb_true_iff in E2. lia.
Qed.

Lemma np_index_in (len : nat) (i : Z) :
  0 <= i < Z.of_nat len -> np_index len i = Ret (Z.to_nat i).
Proof.
  intros Hi. unfold np_index.
  replace ((0 <=? i) && (i <? Z.of_nat len)) with true; [reflexivity|].
  symmetry. apply andb_true_iff. lia.
Qed.

Lemma np_index_out (len : nat) (i : Z) :
  ~ (- Z.of_nat len <= i < Z.of_nat len) -> np_index len i = Raise IndexError.
Proof.
  intros Hi. unfold np_index.
  destruct ((0 <=? i) && (i <? Z.of_nat len)) eqn:E1;
    [apply andb_true_iff in E1; lia|].
  destruct ((- Z.of_nat len <=? i) && (i <? 0)) eqn:E2;
    [apply andb_true_iff in E2; lia|reflexivity].
Qed.

Lemma np_index_cases (len : nat) (i : Z) :
  np_index len i = Raise IndexError \/ exists k, np_index len i = Ret k.
Proof.
  unfold np_index. destruct (_ && _); [eauto|]. destruct (_ && _); eauto.
Qed.

Lemma getitem_cases {A : Type} (l : list A) (i : Z) :
  getitem l i = Raise IndexError \/ exists a, getitem l i = Ret a.
Proof.
  unfold getitem. destruct (np_index_cases (length l) i) as [->|(k & ->)];
    cbn [bind]; [auto|].
  destruct (nth_error l k); eauto.
Qed.

(** What [set_cell] returns, with the positions it wrote at. *)
Lemma set_cell_inv (b b' : grid) (z x y : Z) (val : label) :
  set_cell b (z, x, y) val = Ret b' ->
  exists iz plane ix row iy,
    np_index (length b) z = Ret iz /\ nth_error b iz = Some plane
    /\ np_index (length plane) x = Ret ix /\ nth_error plane ix = Some row
    /\ np_index (length row) y = Ret iy
    /\ b' = upd iz (upd ix (upd iy (fun _ => np_trunc val))) b.
Proof.
  unfold set_cell. intros H.
  bind_inv_as H iz Hz. bind_inv_as H plane Hplane.
  bind_inv_as H ix Hx. bind_inv_as H row Hrow. bind_inv_as H iy Hy.
  injection H as <-.
  apply getitem_inv in Hplane. destruct Hplane as (iz' & Hz' & Hplane).
  apply getitem_inv in Hrow. destruct Hrow as (ix' & Hx' & Hrow).
  rewrite Hz in Hz'. injection Hz' as <-.
  rewrite Hx in Hx'. injection Hx' as <-.
  exists iz, plane, ix, row, iy. repeat split; assumption.
Qed.

Lemma set_cell_get_same (b b' : grid) (loc : node) (val : label) :
  set_cell b loc val = Ret b' -> get_node b' loc = Ret (np_trunc val).
Proof.
  destruct loc as [[z x] y]. intros H. apply set_cell_inv in H.
  destruct H as (iz & plane & ix & row & iy & Hz & Hplane & Hx & Hrow & Hy & ->).
  unfold get_node.
  rewrite getitem_upd, Hz. cbn [bind]. rewrite Hplane, Nat.eqb_refl. cbn [bind].
  rewrite getitem_upd, Hx. cbn [bind]. rewrite Hrow, Nat.eqb_refl. cbn [bind].
  rewrite getitem_upd, Hy. cbn [bind].
  apply np_index_lt in Hy. apply nth_error_Some in Hy.
  destruct (nth_error row iy); [|congruence]. rewrite Nat.eqb_refl. reflexivity.
Qed.

Lemma set_cell_get_other (b b' : grid) (loc m : node) (val : label) :
  set_cell b loc val = Ret b' ->
  from_front loc -> from_front m -> m <> loc ->
  get_node b' m = get_node b m.
Proof.
  destruct loc as [[z x] y], m as [[mz mx] my]. intros H (Hz0 & Hx0 & Hy0)
    (Hmz & Hmx & Hmy) Hne.
  apply set_cell_inv in H.
  destruct H as (iz & plane & ix & row & iy & Hz & Hplane & Hx & Hrow & Hy & ->).
  apply (np_index_front _ _ _ Hz0) in Hz.
  apply (np_index_front _ _ _ Hx0) in Hx.
  apply (np_index_front _ _ _ Hy0) in Hy.
  unfold get_node. rewrite getitem_upd. unfold getitem at 3.
  destruct (np_index (length b) mz) as [kz| |] eqn:Ez; cbn [bind];
    try reflexivity.
  destruct (nth_error b kz) as [pl|] eqn:Epl; [|reflexivity]. cbn [bind].
  destruct (kz =? iz)%nat eqn:Ekz; [|reflexivity].
  apply Nat.eqb_eq in Ekz. subst kz. rewrite Hplane in Epl. injection Epl as <-.
  apply (np_index_front _ _ _ Hmz) in Ez.
  rewrite getitem_upd. unfold getitem at 2.
  destruct (np_index (length plane) mx) as [kx| |] eqn:Ex; cbn [bind];
    try reflexivity.
  destruct (nth_error plane kx) as [rw|] eqn:Erw; [|reflexivity]. cbn [bind].
  destruct (kx =? ix)%nat eqn:Ekx; [|reflexivity].
  apply Nat.eqb_eq in Ekx. subst kx. rewrite Hrow in Erw. injection Erw as <-.
  apply (np_index_front _ _ _ Hmx) in Ex.
  rewrite getitem_upd. unfold getitem.
  destruct (np_index (length row) my) as [ky| |] eqn:Ey; cbn [bind];
    try reflexivity.
  destruct (nth_error row ky) as [c|] eqn:Ec; [|reflexivity].
  destruct (ky =? iy)%nat eqn:Eky; [|reflexivity].
  apply Nat.eqb_eq in Eky. subst ky.
  apply (np_index_front _ _ _ Hmy) in Ey.
  exfalso. apply Hne. congruence.
Qed.



(* ================================================================= *)
(** ** The grid the constructor builds *)

Lemma np_full_get (dims : Z * Z * Z) (v : label) (b : grid) (n : node) :
  np_full dims v = Ret b -> in_bounds dims n -> get_node b n = Ret (np_trunc v).
Proof.
  destruct dims as [[bz bx] by'], n as [[nz nx] ny]. unfold np_full.
  destruct (_ || _); [discriminate|]. intros [= <-] (Hz & Hx & Hy).
  unfold get_node, getitem. rewrite !repeat_length.
  rewrite np_index_in by lia. cbn [bind].
  rewrite nth_error_repeat by lia. cbn [bind]. rewrite repeat_length.
  rewrite np_index_in by lia. cbn [bind].
  rewrite nth_error_repeat by lia. cbn [bind]. rewrite repeat_length.
  rewrite np_index_in by lia. cbn [bind].
  rewrite nth_error_repeat by lia. reflexivity.
Qed.

Lemma np_full_shaped (dims : Z * Z * Z) (v : label) (b : grid) :
  np_full dims v = Ret b -> shaped dims b.
Proof.
  destruct dims as [[bz bx] by']. unfold np_full, shaped.
  destruct (_ || _); [discriminate|]. intros [= <-].
  split; [apply repeat_length|].
  apply Forall_forall. intros plane Hp. apply repeat_spec in Hp. subst plane.
  split; [apply repeat_length|].
  apply Forall_forall. intros row Hr. apply repeat_spec in Hr. subst row.
  apply repeat_length.
Qed.

Lemma place_gates_cells :
  forall gs self self',
    place_gates self gs = Ret self' ->
    Forall (fun kv => from_front (snd kv)) gs ->
    forall n, from_front n ->
      get_node (board self') n
      = if gate_at gs n then Ret GATE else get_node (board self) n.
Proof.
  induction gs as [|[gate loc] gs IH]; intros self self'; simpl.
  - intros [= <-]. reflexivity.
  - intros H Hfront n Hn. bind_inv_as H self1 Hset.
    inversion Hfront as [|? ? Hloc Hrest]; subst. cbn [snd] in Hloc.
    rewrite (IH _ _ H Hrest n Hn).
    destruct (gate_at gs n); [rewrite orb_true_r; reflexivity|].
    rewrite orb_false_r.
    unfold set_node in Hset. bind_inv_as Hset b Hb. injection Hset as <-.
    cbn [board with_board].
    destruct (node_eqb loc n) eqn:E.
    + apply node_eqb_eq in E. subst n.
      apply (set_cell_get_same _ _ _ _ Hb).
    + apply (set_cell_get_other _ _ _ _ _ Hb); try assumption.
      intros ->. change (node_eqb loc loc) with (eqb loc loc) in E.
      rewrite eqb_refl in E. discriminate.
Qed.

Lemma place_gates_grid :
  forall gs self self',
    place_gates self gs = Ret self' ->
    self' = with_board self (board self').
Proof.
  induction gs as [|[gate loc] gs IH]; intros self self'; simpl.
  - intros [= <-]. destruct self; reflexivity.
  - intros H. bind_inv_as H self1 Hset. apply IH in H.
    unfold set_node in Hset. bind_inv_as Hset b Hb. injection Hset as <-.
    rewrite H. reflexivity.
Qed.

Lemma fill_neighbor_of_grid :
  forall gs self self',
    fill_neighbor_of self gs = Ret self' ->
    self' = with_neighbor_of self (neighbor_of self').
Proof.
  induction gs as [|[gate loc] gs IH]; intros self self'; simpl.
  - intros [= <-]. destruct self; reflexivity.
  - intros H. bind_inv_as H nbs Hn. apply IH in H. rewrite H. reflexivity.
Qed.

Lemma fill_free_connectors_grid :
  forall gs self self',
    fill_free_connectors self gs = Ret self' ->
    self' = with_free_connectors self (free_connectors self').
Proof.
  induction gs as [|[gate loc] gs IH]; intros self self'; simpl.
  - intros [= <-]. destruct self; reflexivity.
  - intros H. bind_inv_as H nbs Hn. apply IH in H. rewrite H. reflexivity.
Qed.

(** The steps of the constructor, one after the other. *)
Lemma new_board_steps (gs : dict key node) (conns : list (key * key))
  (dims : Z * Z * Z) (self : circuit_board) :
  new_board gs conns dims = Ret self ->
  exists b0 self1 self2,
    np_full dims EMPTY = Ret b0
    /\ place_gates {| dimensions := dims; gates := gs; connections := conns;
                      board := b0; needs_connections := [];
                      neighbor_of := []; free_connectors := [] |} gs
       = Ret self1
    /\ fill_neighbor_of
         {| dimensions := dims; gates := gs; connections := conns;
            board := board self1; needs_connections := gate_connectors conns;
            neighbor_of := []; free_connectors := [] |} gs
       = Ret self2
    /\ fill_free_connectors
         {| dimensions := dims; gates := gs; connections := conns;
            board := board self1; needs_connections := gate_connectors conns;
            neighbor_of := neighbor_of self2; free_connectors := [] |} gs
       = Ret self
    /\ self = {| dimensions := dims; gates := gs; connections := conns;
                 board := board self1;
                 needs_connections := gate_connectors conns;
                 neighbor_of := neighbor_of self2;
                 free_connectors := free_connectors self |}.
Proof.
  unfold new_board. intros H.
  bind_inv_as H b0 Hb. bind_inv_as H self1 Hplace. bind_inv_as H self2 Hfill.
  pose proof (place_gates_grid _ _ _ Hplace) as E1.
  cbn [with_board dimensions gates connections needs_connections neighbor_of
       free_connectors board] in E1.
  rewrite E1 in Hfill.
  cbn [with_needs with_neighbor_of with_free_connectors with_board dimensions
       gates connections needs_connections neighbor_of free_connectors board]
    in Hfill.
  pose proof (fill_neighbor_of_grid _ _ _ Hfill) as E2.
  cbn [with_needs with_neighbor_of with_free_connectors with_board dimensions
       gates connections needs_connections neighbor_of free_connectors board]
    in E2.
  rewrite E2 in H.
  cbn [with_needs with_neighbor_of with_free_connectors with_board dimensions
       gates connections needs_connections neighbor_of free_connectors board]
    in H.
  pose proof (fill_free_connectors_grid _ _ _ H) as E3.
  cbn [with_needs with_neighbor_of with_free_connectors with_board dimensions
       gates connections needs_connections neighbor_of free_connectors board]
    in E3.
  exists b0, self1, self2. repeat split; assumption.
Qed.

(** X12.  The constructor leaves ['GA'] at the coordinate of every gate
    and ['__'] in every other cell of the grid, when no gate coordinate
    counts from the back. *)
Theorem new_board_cells (gs : dict key node) (conns : list (key * key))
  (dims : Z * Z * Z) (self : circuit_board) (n : node) :
  new_board gs conns dims = Ret self ->
  Forall (fun kv => from_front (snd kv)) gs ->
  in_bounds dims n ->
  get_node (board self) n = Ret (if gate_at gs n then GATE else EMPTY).
Proof.
  intros H Hfront Hn. apply new_board_steps in H.
  destruct H as (b0 & self1 & self2 & Hb & Hplace & _ & _ & ->).
  cbn [board].
  rewrite (place_gates_cells _ _ _ Hplace Hfront n).
  - cbn [board]. rewrite (np_full_get _ _ _ _ Hb Hn).
    destruct (gate_at gs n); reflexivity.
  - destruct dims as [[bz bx] by'], n as [[nz nx] ny]. simpl in *. lia.
Qed.

Lemma new_board_cells_witness :
  get_node (board facing_gates) (0, 1, 3)
  = Ret (if gate_at [(KInt 1, (0, 1, 1)); (KInt 2, (0, 1, 3))] (0, 1, 3)
         then GATE else EMPTY).
Proof.
  apply (new_board_cells [(KInt 1, (0, 1, 1)); (KInt 2, (0, 1, 3))]
           [(KInt 1, KInt 2)] (1, 3, 5) facing_gates (0, 1, 3)).
  - vm_compute. reflexivity.
  - repeat constructor; simpl; lia.
  - simpl. lia.
Defined.

(* ----------------------------------------------------------------- *)
(** *** A gate outside the grid *)

Lemma upd_Forall {A : Type} (P : A -> Prop) (f : A -> A) :
  forall n (l : list A),
    (forall a, nth_error l n = Some a -> P a -> P (f a)) ->
    Forall P l -> Forall P (upd n f l).
Proof.
  induction n as [|n IH]; intros [|a l] Hf Hall; simpl; try assumption;
    inversion Hall; subst; constructor; auto.
Qed.

Lemma set_cell_shaped (dims : Z * Z * Z) (b b' : grid) (loc : node)
  (val : label) :
  set_cell b loc val = Ret b' -> shaped dims b -> shaped dims b'.
Proof.
  destruct dims as [[bz bx] by'], loc as [[z x] y]. intros H [Hlen Hall].
  apply set_cell_inv in H.
  destruct H as (iz & plane & ix & row & iy & Hz & Hplane & Hx & Hrow & Hy & ->).
  split; [rewrite upd_length; assumption|].
  apply upd_Forall; [|assumption].
  intros pl _ [Hpl Hrows]. split; [rewrite upd_length; assumption|].
  apply upd_Forall; [|assumption].
  intros rw _ Hrw. rewrite upd_length. assumption.
Qed.

Lemma set_cell_cases (b : grid) (loc : node) (val : label) :
  set_cell b loc val = Raise IndexError \/ exists b', set_cell b loc val = Ret b'.
Proof.
  destruct loc as [[z x] y]. unfold set_cell.
  destruct (np_index_cases (length b) z) as [->|(iz & ->)]; cbn [bind]; [auto|].
  destruct (getitem_cases b z) as [->|(plane & ->)]; cbn [bind]; [auto|].
  destruct (np_index_cases (length plane) x) as [->|(ix & ->)]; cbn [bind];
    [auto|].
  destruct (getitem_cases plane x) as [->|(row & ->)]; cbn [bind]; [auto|].
  destruct (np_index_cases (length row) y) as [->|(iy & ->)]; cbn [bind];
    eauto.
Qed.

Lemma set_cell_off_grid (dims : Z * Z * Z) (b : grid) (loc : node)
  (val : label) :
  shaped dims b -> ~ wraps dims loc -> set_cell b loc val = Raise IndexError.
Proof.
  destruct dims as [[bz bx] by'], loc as [[z x] y]. intros [Hlen Hall] Hout.
  destruct (set_cell_cases b (z, x, y) val) as [H|(b' & H)]; [assumption|].
  exfalso. apply Hout. apply set_cell_inv in H.
  destruct H as (iz & plane & ix & row & iy & Hz & Hplane & Hx & Hrow & Hy & _).
  rewrite Forall_forall in Hall.
  destruct (Hall plane (nth_error_In _ _ Hplane)) as [Hpl Hrows].
  rewrite Forall_forall in Hrows.
  pose proof (Hrows row (nth_error_In _ _ Hrow)) as Hrw.
  unfold wraps.
  assert (Hin : forall len i k,
            np_index len i = Ret k -> - Z.of_nat len <= i < Z.of_nat len).
  { intros len i k Hi.
    destruct (Z_lt_ge_dec i (- Z.of_nat len)) as [Hlo|Hlo];
      [rewrite np_index_out in Hi by lia; discriminate|].
    destruct (Z_lt_ge_dec i (Z.of_nat len)) as [Hhi|Hhi]; [lia|].
    rewrite np_index_out in Hi by lia. discriminate. }
  apply Hin in Hz, Hx, Hy. rewrite Hlen in Hz. rewrite Hpl in Hx.
  rewrite Hrw in Hy. lia.
Qed.

Lemma place_gates_off_grid (dims : Z * Z * Z) :
  forall gs self,
    shaped dims (board self) ->
    Exists (fun kv => ~ wraps dims (snd kv)) gs ->
    place_gates self gs = Raise IndexError.
Proof.
  induction gs as [|[gate loc] gs IH]; intros self Hshape Hex;
    [inversion Hex|].
  simpl. unfold set_node.
  destruct (set_cell_cases (board self) loc GATE) as [->|(b' & Hb)];
    [reflexivity|].
  rewrite Hb. cbn [bind].
  inversion Hex as [? ? Hbad|? ? Hbad]; subst.
  - cbn [snd] in Hbad.
    rewrite (set_cell_off_grid dims _ _ _ Hshape Hbad) in Hb. discriminate.
  - apply IH; [|assumption]. cbn [board with_board].
    eapply set_cell_shaped; eassumption.
Qed.

(** X13.  Once [np.full] has returned the array, the loop of
    [reset_board] that places the gates raises [IndexError] when some
    gate lies outside the array, that is when one of its coordinates
    neither indexes the array from the front nor, as a negative number,
    from the back; the coordinates of the gates being integers of the
    size of an index. *)
Theorem place_gates_raises_off_grid (dims : Z * Z * Z) (self : circuit_board)
  (gs : dict key node) (g : key) (loc : node) :
  from_front dims ->
  shaped dims (board self) ->
  Forall (fun kv => node_index_sized (snd kv)) gs ->
  In (g, loc) gs -> ~ wraps dims loc ->
  place_gates self gs = Raise IndexError.
Proof.
  intros _ Hshape _ Hin Hout. apply (place_gates_off_grid dims); [assumption|].
  apply Exists_exists. exists (g, loc). auto.
Qed.

Lemma place_gates_raises_off_grid_witness :
  place_gates
    {| dimensions := (1, 1, 3);
       gates := [(KInt 1, (0, 0, 1)); (KInt 2, (0, 0, 3))];
       connections := [(KInt 1, KInt 2)];
       board := [[[EMPTY; EMPTY; EMPTY]]];
       needs_connections := []; neighbor_of := []; free_connectors := [] |}
    [(KInt 1, (0, 0, 1)); (KInt 2, (0, 0, 3))]
  = Raise IndexError.
Proof.
  apply (place_gates_raises_off_grid (1, 1, 3) _ _ (KInt 2) (0, 0, 3)).
  - simpl. lia.
  - simpl. repeat constructor.
  - repeat constructor; unfold index_sized; simpl; lia.
  - simpl. auto.
  - simpl. lia.
Defined.

(* ================================================================= *)
(** ** The connectors the constructor registers *)

Lemma degree_plain (conns : list (key * key)) (m : node) :
  Forall (fun c => plain_key (fst c) /\ plain_key (snd c)) conns ->
  degree conns (KNode m) = 0.
Proof.
  induction 1 as [|[a b] conns [Ha Hb] _ IH]; simpl; [reflexivity|].
  rewrite IH. unfold incidence. cbn [fst snd] in *.
  destruct a, b; simpl in *; tauto || reflexivity.
Qed.

Lemma gate_connectors_plain (conns : list (key * key)) (m : node) :
  Forall (fun c => plain_key (fst c) /\ plain_key (snd c)) conns ->
  dict_get (gate_connectors conns) (KNode m) = None.
Proof.
  intros H. rewrite gate_connectors_degree, (degree_plain _ _ H). reflexivity.
Qed.

(** With counters keyed by numbers or text the neighbors depend on the
    grid and its dimensions alone. *)
Lemma node_neighbors_same (s s' : circuit_board) (loc : node) :
  board s = board s' -> dimensions s = dimensions s' ->
  (forall m, dict_get (needs_connections s) (KNode m) = None) ->
  (forall m, dict_get (needs_connections s') (KNode m) = None) ->
  node_neighbors s loc = node_neighbors s' loc.
Proof.
  intros Hb Hd Hs Hs'. rewrite !node_neighbors_inert by assumption.
  unfold vacant_six. rewrite Hb, Hd. reflexivity.
Qed.

Lemma register_neighbor_keys (m : dict node (list key)) (g : key) (nb : node) :
  map fst (register_neighbor m g nb) = set_add nb (map fst m).
Proof.
  unfold register_neighbor, set_add.
  assert (Hmem : mem nb (map fst m) = dict_mem m nb).
  { destruct (dict_mem m nb) eqn:M.
    - apply mem_In, dict_mem_keys. assumption.
    - apply mem_false. intros Hin. apply dict_mem_keys in Hin. congruence. }
  rewrite Hmem. unfold dict_mem.
  destruct (dict_get m nb) as [gs|] eqn:G; rewrite dict_set_keys;
    unfold dict_mem; rewrite G; reflexivity.
Qed.

Lemma register_all_keys (g : key) :
  forall nbs (m : dict node (list key)),
    map fst (fold_left (fun m nb => register_neighbor m g nb) nbs m)
    = fold_left (fun s nb => set_add nb s) nbs (map fst m).
Proof.
  induction nbs as [|nb nbs IH]; intros m; simpl; [reflexivity|].
  rewrite IH, register_neighbor_keys. reflexivity.
Qed.

Lemma fills_in_step :
  forall gs s1 s2 r1 r2,
    board s1 = board s2 -> dimensions s1 = dimensions s2 ->
    (forall m, dict_get (needs_connections s1) (KNode m) = None) ->
    (forall m, dict_get (needs_connections s2) (KNode m) = None) ->
    map fst (neighbor_of s1) = free_connectors s2 ->
    fill_neighbor_of s1 gs = Ret r1 ->
    fill_free_connectors s2 gs = Ret r2 ->
    map fst (neighbor_of r1) = free_connectors r2.
Proof.
  induction gs as [|[gate loc] gs IH]; intros s1 s2 r1 r2 Hb Hd H1 H2 Hk; simpl.
  - intros [= <-] [= <-]. assumption.
  - rewrite (node_neighbors_same s1 s2 loc Hb Hd H1 H2).
    intros F1 F2. bind_inv_as F1 nbs Hn. cbn [bind] in F2.
    refine (IH (with_neighbor_of s1 _) (with_free_connectors s2 _) r1 r2
              Hb Hd H1 H2 _ F1 F2).
    cbn [neighbor_of with_neighbor_of free_connectors with_free_connectors].
    rewrite register_all_keys, Hk. reflexivity.
Qed.

(** The list that stands for [free_connectors] has the keys of
    [neighbor_of], which are filled from the same lists of neighbors. *)
Lemma new_board_connectors_listed (gs : dict key node)
  (conns : list (key * key)) (dims : Z * Z * Z) (self : circuit_board) :
  Forall (fun c => plain_key (fst c) /\ plain_key (snd c)) conns ->
  new_board gs conns dims = Ret self ->
  free_connectors self = map fst (neighbor_of self).
Proof.
  intros Hplain H. apply new_board_steps in H.
  destruct H as (b0 & self1 & self2 & _ & _ & Hfill & Hfree & ->).
  cbn [free_connectors neighbor_of]. symmetry.
  refine (fills_in_step gs _ _ _ _ _ _ _ _ _ Hfill Hfree); try reflexivity;
    cbn [needs_connections]; intros m; apply gate_connectors_plain; assumption.
Qed.

(** X14.  On a board as the constructor leaves it, with gate identifiers
    that are numbers or text, the members of the set [free_connectors]
    are the keys of [neighbor_of]: the two are filled from the same
    neighbor lists and neither is changed afterwards. *)
Theorem new_board_connectors_agree (gs : dict key node)
  (conns : list (key * key)) (dims : Z * Z * Z) (self : circuit_board) :
  Forall (fun c => plain_key (fst c) /\ plain_key (snd c)) conns ->
  new_board gs conns dims = Ret self ->
  forall n, In n (free_connectors self) <-> dict_mem (neighbor_of self) n = true.
Proof.
  intros Hplain H n. rewrite dict_mem_keys.
  rewrite (new_board_connectors_listed _ _ _ _ Hplain H). reflexivity.
Qed.

Lemma new_board_connectors_agree_witness :
  In (0, 1, 2) (free_connectors facing_gates)
  /\ forall n, In n (free_connectors facing_gates)
               <-> dict_mem (neighbor_of facing_gates) n = true.
Proof.
  split; [simpl; tauto|].
  apply (new_board_connectors_agree
           [(KInt 1, (0, 1, 1)); (KInt 2, (0, 1, 3))] [(KInt 1, KInt 2)]
           (1, 3, 5)).
  - repeat constructor.
  - vm_compute. reflexivity.
Defined.

(* ----------------------------------------------------------------- *)
(** *** Which gates a connector is registered for *)

Lemma register_neighbor_get (m : dict node (list key)) (g : key)
  (nb n : node) :
  dict_get (register_neighbor m g nb) n
  = if node_eqb nb n
    then Some (match dict_get m nb with Some gs => gs ++ [g] | None => [g] end)
    else dict_get m n.
Proof.
  unfold register_neighbor.
  destruct (dict_get m nb) as [gs|]; rewrite dict_get_set; reflexivity.
Qed.

Lemma register_all_get (g : key) :
  forall nbs (m : dict node (list key)) n,
    (forall gl h, dict_get
                    (fold_left (fun m nb => register_neighbor m g nb) nbs m) n
                  = Some gl ->
                  In h gl ->
                  (exists gl0, dict_get m n = Some gl0 /\ In h gl0)
                  \/ (h = g /\ In n nbs))
    /\ (forall gl0, dict_get m n = Some gl0 ->
          exists gl, dict_get
                       (fold_left (fun m nb => register_neighbor m g nb) nbs m)
                       n = Some gl
                     /\ incl gl0 gl)
    /\ (In n nbs ->
          exists gl, dict_get
                       (fold_left (fun m nb => register_neighbor m g nb) nbs m)
                       n = Some gl
                     /\ In g gl).
Proof.
  induction nbs as [|nb nbs IH]; intros m n; simpl.
  - split; [eauto|]. split; [|tauto]. intros gl0 H. exists gl0.
    split; [assumption | apply incl_refl].
  - destruct (IH (register_neighbor m g nb) n) as (Hs & Hm & Hc).
    assert (Hstep : forall gl1 h,
              dict_get (register_neighbor m g nb) n = Some gl1 -> In h gl1 ->
              (exists gl0, dict_get m n = Some gl0 /\ In h gl0)
              \/ (h = g /\ nb = n)).
    { intros gl1 h. rewrite register_neighbor_get.
      destruct (node_eqb nb n) eqn:E; [|eauto].
      apply node_eqb_eq in E. subst n. intros [= <-] Hin.
      destruct (dict_get m nb) as [gs|].
      - apply in_app_iff in Hin. destruct Hin as [Hin|[<-|[]]]; eauto.
      - destruct Hin as [<-|[]]. auto. }
    assert (Hkeep : forall gl0, dict_get m n = Some gl0 ->
              exists gl1, dict_get (register_neighbor m g nb) n = Some gl1
                          /\ incl gl0 gl1).
    { intros gl0 G. rewrite register_neighbor_get.
      destruct (node_eqb nb n) eqn:E.
      - apply node_eqb_eq in E. subst n. rewrite G. eexists. split; [reflexivity|].
        apply incl_appl, incl_refl.
      - exists gl0. split; [assumption | apply incl_refl]. }
    split; [|split].
    + intros gl h G Hin. destruct (Hs gl h G Hin) as [(gl1 & G1 & H1)|[-> Hn]].
      * destruct (Hstep gl1 h G1 H1) as [?|[-> ->]]; auto.
      * auto.
    + intros gl0 G. destruct (Hkeep gl0 G) as (gl1 & G1 & I1).
      destruct (Hm gl1 G1) as (gl & G2 & I2). exists gl. split; [assumption|].
      eapply incl_tran; eassumption.
    + intros [->|Hin]; [|auto].
      assert (G1 : exists gl1, dict_get (register_neighbor m g n) n = Some gl1
                               /\ In g gl1).
      { rewrite register_neighbor_get.
        change (node_eqb n n) with (eqb n n). rewrite eqb_refl.
        eexists. split; [reflexivity|].
        destruct (dict_get m n); [apply in_app_iff; right|]; simpl; auto. }
      destruct G1 as (gl1 & G1 & I1). destruct (Hm gl1 G1) as (gl & G2 & I2).
      exists gl. auto.
Qed.

Lemma fill_neighbor_of_registered :
  forall gs s r,
    (forall m, dict_get (needs_connections s) (KNode m) = None) ->
    fill_neighbor_of s gs = Ret r ->
    (forall n gl h, dict_get (neighbor_of r) n = Some gl -> In h gl ->
       (exists gl0, dict_get (neighbor_of s) n = Some gl0 /\ In h gl0)
       \/ (exists loc, In (h, loc) gs /\ edge s loc n))
    /\ (forall n gl0, dict_get (neighbor_of s) n = Some gl0 ->
          exists gl, dict_get (neighbor_of r) n = Some gl /\ incl gl0 gl)
    /\ (forall g loc n, In (g, loc) gs -> edge s loc n ->
          exists gl, dict_get (neighbor_of r) n = Some gl /\ In g gl).
Proof.
  induction gs as [|[gate loc] gs IH]; intros s r Hs; simpl.
  - intros [= <-]. split; [eauto|]. split; [|tauto].
    intros n gl0 G. exists gl0. split; [assumption|apply incl_refl].
  - intros F. bind_inv_as F nbs Hn.
    set (s' := with_neighbor_of s
                 (fold_left (fun m nb => register_neighbor m gate nb) nbs
                            (neighbor_of s))) in *.
    assert (Hs' : forall m, dict_get (needs_connections s') (KNode m) = None)
      by exact Hs.
    assert (Hedge : forall l n, edge s' l n <-> edge s l n).
    { intros l n. unfold edge.
      rewrite (node_neighbors_same s' s l eq_refl eq_refl Hs' Hs). tauto. }
    destruct (IH s' r Hs' F) as (Hsound & Hmono & Hcompl).
    split; [|split].
    + intros n gl h G Hin.
      destruct (Hsound n gl h G Hin) as [(gl1 & G1 & H1)|(l & Hl & He)].
      * destruct (register_all_get gate nbs (neighbor_of s) n) as (Hr & _ & _).
        destruct (Hr gl1 h G1 H1) as [?|[-> Hnb]]; [auto|].
        right. exists loc. split; [left; reflexivity|]. exists nbs. auto.
      * right. exists l. split; [right; assumption|]. apply Hedge. assumption.
    + intros n gl0 G.
      destruct (register_all_get gate nbs (neighbor_of s) n) as (_ & Hk & _).
      destruct (Hk gl0 G) as (gl1 & G1 & I1).
      destruct (Hmono n gl1 G1) as (gl & G2 & I2). exists gl.
      split; [assumption|]. eapply incl_tran; eassumption.
    + intros g l n [[= <- <-]|Hin] He.
      * destruct He as (nbs' & Hn' & Hin'). rewrite Hn in Hn'.
        injection Hn' as <-.
        destruct (register_all_get gate nbs (neighbor_of s) n) as (_ & _ & Hc).
        destruct (Hc Hin') as (gl1 & G1 & I1).
        destruct (Hmono n gl1 G1) as (gl & G2 & I2). exists gl. auto.
      * apply (Hcompl g l n Hin). apply Hedge. assumption.
Qed.

(** X15.  On a board as the constructor leaves it, with gate identifiers
    that are numbers or text, a gate is registered for a connector
    exactly when the connector is among the neighbors of the gate's
    coordinate: an empty cell one unit step from the gate. *)
Theorem new_board_connectors_adjacent (gs : dict key node)
  (conns : list (key * key)) (dims : Z * Z * Z) (self : circuit_board)
  (g : key) (n : node) :
  Forall (fun c => plain_key (fst c) /\ plain_key (snd c)) conns ->
  new_board gs conns dims = Ret self ->
  ((exists gl, dict_get (neighbor_of self) n = Some gl /\ In g gl)
   <-> exists loc, In (g, loc) gs /\ edge self loc n)
  /\ ((exists gl, dict_get (neighbor_of self) n = Some gl /\ In g gl) ->
      exists loc, In (g, loc) gs /\ unit_step loc n
                  /\ get_node (board self) n = Ret EMPTY).
Proof.
  intros Hplain H. apply new_board_steps in H.
  destruct H as (b0 & self1 & self2 & _ & _ & Hfill & _ & Hself).
  set (s := {| dimensions := dims; gates := gs; connections := conns;
               board := board self1;
               needs_connections := gate_connectors conns;
               neighbor_of := []; free_connectors := [] |}) in Hfill.
  assert (Hs : forall m, dict_get (needs_connections s) (KNode m) = None)
    by (intros m; apply gate_connectors_plain; assumption).
  assert (Hs' : forall m, dict_get (needs_connections self) (KNode m) = None)
    by (rewrite Hself; intros m; apply gate_connectors_plain; assumption).
  assert (Hedge : forall l m, edge s l m <-> edge self l m).
  { intros l m. unfold edge.
    rewrite (node_neighbors_same s self l); try assumption; [tauto| |];
      rewrite Hself; reflexivity. }
  destruct (fill_neighbor_of_registered gs s self2 Hs Hfill)
    as (Hsound & _ & Hcompl).
  assert (Hnb : neighbor_of self = neighbor_of self2)
    by (rewrite Hself; reflexivity).
  rewrite Hnb.
  assert (Hiff : (exists gl, dict_get (neighbor_of self2) n = Some gl /\ In g gl)
                 <-> exists loc, In (g, loc) gs /\ edge self loc n).
  { split.
    - intros (gl & G & Hin).
      destruct (Hsound n gl g G Hin) as [(gl0 & G0 & _)|(loc & Hl & He)];
        [discriminate|].
      exists loc. split; [assumption|]. apply Hedge. assumption.
    - intros (loc & Hl & He). apply (Hcompl g loc n Hl). apply Hedge. assumption. }
  split; [exact Hiff|].
  intros Hreg. apply Hiff in Hreg. destruct Hreg as (loc & Hl & He).
  exists loc. split; [assumption|]. apply edge_unit_step in He. exact He.
Qed.

Lemma new_board_connectors_adjacent_witness :
  ((exists gl, dict_get (neighbor_of facing_gates) (0, 1, 2) = Some gl
               /\ In (KInt 2) gl)
   <-> exists loc, In (KInt 2, loc) [(KInt 1, (0, 1, 1)); (KInt 2, (0, 1, 3))]
                   /\ edge facing_gates loc (0, 1, 2))
  /\ ((exists gl, dict_get (neighbor_of facing_gates) (0, 1, 2) = Some gl
                  /\ In (KInt 2) gl) ->
      exists loc, In (KInt 2, loc) [(KInt 1, (0, 1, 1)); (KInt 2, (0, 1, 3))]
                  /\ unit_step loc (0, 1, 2)
                  /\ get_node (board facing_gates) (0, 1, 2) = Ret EMPTY).
Proof.
  apply (new_board_connectors_adjacent
           [(KInt 1, (0, 1, 1)); (KInt 2, (0, 1, 3))] [(KInt 1, KInt 2)]
           (1, 3, 5) facing_gates (KInt 2) (0, 1, 2)).
  - repeat constructor.
  - vm_compute. reflexivity.
Defined.

(* ================================================================= *)
(** ** The optimizer: how the loop goes on and ends *)

Lemma undo_one_plan (env : circuit_board) (st st' : opt_state) (j : nat) :
  undo_one env st j = Ret st' -> plan_kept st st'.
Proof.
  intros H. apply undo_one_cases in H.
  destruct H as (a & c & name & needs1 & needs2 & _ & _ & _ & _ & _ & ->).
  constructor; reflexivity.
Qed.

Lemma undo_all_plan (env : circuit_board) :
  forall to_delete st st',
    undo_all env st to_delete = Ret st' -> plan_kept st st'.
Proof.
  induction to_delete as [|j rest IH]; intros st st'; simpl.
  - intros [= <-]. constructor; reflexivity.
  - intros H. bind_inv_as H st1 Hone.
    destruct (undo_one_plan _ _ _ _ Hone) as [A1 A2 A3 A4 A5].
    destruct (IH _ _ H) as [B1 B2 B3 B4 B5]. constructor; congruence.
Qed.

Lemma remove_nth_length {A : Type} (l : list A) :
  forall j x, nth_error l j = Some x -> S (length (remove_nth j l)) = length l.
Proof.
  induction l as [|a l IH]; intros [|j] x; simpl; try discriminate.
  - reflexivity.
  - intros H. rewrite (IH j x H). reflexivity.
Qed.

Lemma sample_loop_length {A : Type} :
  forall k (pool : list A) (r : list nat) xs r',
    (k <= length pool)%nat ->
    sample_loop k pool r = (xs, r') -> length xs = k.
Proof.
  induction k as [|k IH]; intros pool r xs r' Hk; simpl.
  - intros [= <- <-]. reflexivity.
  - assert (Hj : (hd 0%nat r mod length pool < length pool)%nat)
      by (apply Nat.mod_upper_bound; lia).
    apply nth_error_Some in Hj.
    destruct (nth_error pool (hd 0%nat r mod length pool)) as [x|] eqn:Hx;
      [|congruence].
    destruct (sample_loop k _ (tl r)) as [ys r2] eqn:Hrec.
    intros [= <- <-]. simpl. f_equal.
    pose proof (remove_nth_length _ _ _ Hx) as Hlen.
    eapply IH; [|exact Hrec]. lia.
Qed.

(** Sampling as many items as the population has gives each of them
    once. *)
Lemma sample_all (pool : list nat) (r : list nat) (xs : list nat)
  (r' : list nat) :
  NoDup pool ->
  sample_loop (length pool) pool r = (xs, r') ->
  NoDup xs /\ forall x, In x xs <-> In x pool.
Proof.
  intros Hnd H.
  destruct (sample_loop_distinct _ _ _ _ _ H Hnd) as [Hxs Hincl].
  pose proof (sample_loop_length _ _ _ _ _ (le_n _) H) as Hlen.
  split; [assumption|]. intros x. split; [apply Hincl|].
  apply NoDup_length_incl; [assumption|lia|assumption].
Qed.

Lemma save_improvement_cases (st : opt_state) :
  (save_improvement st = st
   /\ (length (completed_wires st) <= best_score st)%nat)
  \/ (save_improvement st
      = set_best st (length (completed_wires st)) (self_board st)
          (option_map (fun b => (length (completed_wires st), b))
                      (cells_of (heap st) (self_board st)))
      /\ (best_score st < length (completed_wires st))%nat).
Proof.
  unfold save_improvement.
  destruct (Nat.ltb_spec (best_score st) (length (completed_wires st)));
    [right|left]; auto.
Qed.

(** A turn of the loop that returns leaves an array in
    [best_solution]: a turn that routes nothing at the very start
    stagnates with nothing to sample from, and raises. *)
Lemma loop_body_progress (fuel : nat) (env : circuit_board)
  (st st' : opt_state) :
  store_ok st -> progress_ok env st ->
  (loop_body fuel env st = Ret (Continue st')
   \/ (loop_body fuel env st = Ret (Break st')
       /\ iter st' = max_iters
       /\ length (completed_wires st') = completed_previously st')
   -> progress_ok env st' /\ exists a, best_solution st' = Array a)
  /\ (loop_body fuel env st = Ret (Break st') ->
      iter st' = max_iters
      /\ length (completed_wires st') = completed_previously st').
Proof.
  intros Hstore [Hiter Horder Hfresh]. unfold loop_body.
  destruct (routing_pass fuel env st (ordering st)) as [st1| |] eqn:Hpass;
    cbn [bind]; [|split; [intros [H|[H _]]|intros H]; discriminate..].
  destruct (routing_pass_locals _ _ _ _ _ Hpass)
    as [S1 S2 S3 S4 S5 S6 S7 S8].
  destruct Hstore as [(a & Hb & Ha) Hscore Hbest].
  pose proof (ps_grows _ _ (routing_pass_store _ _ _ _ _ _ Hb Ha Hpass)) as Hgrow.
  set (st2 := save_improvement st1).
  assert (F : ordering st2 = ordering st /\ iter st2 = iter st
              /\ completed_previously st2 = completed_previously st
              /\ completed_wires st2 = completed_wires st1
              /\ ((exists b, best_solution st2 = Array b)
                  \/ (exists l, best_solution st = IndexList l)
                     /\ best_solution st2 = best_solution st
                     /\ completed_wires st1 = [])).
  { subst st2. destruct (save_improvement_cases st1) as [[-> Hle]|[-> Hlt]].
    - repeat split; try assumption.
      destruct (best_solution st) as [b|l] eqn:Hsol.
      + left. exists b. congruence.
      + right. split; [eauto|]. split; [congruence|].
        destruct Hfresh as (Hs0 & _ & _).
        destruct (completed_wires st1); [reflexivity|]. simpl in Hle. lia.
    - cbn [set_best ordering iter completed_previously completed_wires
           best_solution]. repeat split; try assumption.
      left. exists a. congruence. }
  destruct F as (F1 & F2 & F3 & F4 & F5). fold st2.
  assert (Hsol : forall s, best_solution s = best_solution st2 ->
                 (exists b, best_solution st2 = Array b) ->
                 match best_solution s with
                 | Array _ => True
                 | IndexList _ =>
                     best_score s = O /\ iter s = O
                     /\ completed_previously s = O
                 end).
  { intros s -> (b & ->). exact I. }
  destruct (Nat.eqb_spec (length (completed_wires st2))
                         (completed_previously st2)) as [Hstag|Hmove].
  - destruct (Nat.eqb_spec (iter st2) max_iters) as [Hcap|Hcap].
    + split; [|intros [= <-]; auto].
      intros [H|[H _]]; [discriminate|]. injection H as <-.
      assert (Harr : exists b, best_solution st2 = Array b).
      { destruct F5 as [?|((l & Hl) & _ & _)]; [assumption|].
        rewrite Hl in Hfresh. destruct Hfresh as (_ & Hi & _).
        rewrite F2, Hi in Hcap. discriminate. }
      split; [|assumption]. constructor.
      * lia.
      * rewrite F1. assumption.
      * apply Hsol; auto.
    + destruct (perturb env st2) as [st3| |] eqn:Hp; cbn [bind];
        [|split; [intros [H|[H _]]|intros H]; discriminate..].
      split; [|discriminate].
      intros [H|[H _]]; [|discriminate]. injection H as <-.
      unfold perturb in Hp.
      bind_inv_as Hp s Hsample. destruct s as [to_delete r1].
      bind_inv_as Hp st_u Hundo. bind_inv_as Hp s' Hshuffle.
      destruct s' as [order r2]. injection Hp as <-.
      destruct (undo_all_plan _ _ _ _ Hundo) as [U1 U2 U3 U4 U5].
      unfold random_sample in Hsample, Hshuffle.
      destruct (Nat.ltb_spec (length (completed_wires st2)) v_opt) as [|Htwo];
        [discriminate|].
      rewrite Nat.ltb_irrefl in Hshuffle.
      assert (Hshuffle' : sample_loop (length (ordering st_u)) (ordering st_u) r1
                          = (order, r2)) by congruence.
      assert (Hord : each_once (length (connections env)) (ordering st_u))
        by (rewrite U1, F1; assumption).
      destruct (sample_all _ _ _ _ (proj1 Hord) Hshuffle') as [Hnd Hsame].
      assert (Harr : exists b, best_solution st2 = Array b).
      { destruct F5 as [?|(_ & _ & Hnil)]; [assumption|].
        rewrite F4, Hnil in Htwo. unfold v_opt in Htwo. simpl in Htwo. lia. }
      split.
      * constructor;
          cbn [set_completed_previously set_attempt iter ordering
               best_solution best_score completed_previously].
        -- rewrite U2. lia.
        -- split; [assumption|]. intros i. rewrite Hsame. apply (proj2 Hord).
        -- rewrite U3. destruct Harr as (b & ->). exact I.
      * cbn [set_completed_previously set_attempt best_solution].
        rewrite U3. assumption.
  - split; [|discriminate].
    intros [H|[H _]]; [|discriminate]. injection H as <-.
    assert (Harr : exists b, best_solution st2 = Array b).
    { destruct F5 as [?|((l & Hl) & _ & Hnil)]; [assumption|].
      rewrite Hl in Hfresh. destruct Hfresh as (_ & _ & Hp0).
      rewrite F4, Hnil, F3, Hp0 in Hmove. simpl in Hmove. congruence. }
    split; [|assumption]. constructor;
      cbn [set_completed_previously iter ordering best_solution best_score
           completed_previously].
    + lia.
    + rewrite F1. assumption.
    + destruct Harr as (b & ->). exact I.
Qed.

Lemma main_loop_progress (fuel : nat) (env : circuit_board) :
  forall turns st fin,
    store_ok st -> progress_ok env st ->
    main_loop turns fuel env st = Ret fin ->
    progress_ok env fin
    /\ ((fin = st /\ pending env st = false)
        \/ exists a, best_solution fin = Array a)
    /\ (pending env fin = false
        \/ (iter fin = max_iters
            /\ length (completed_wires fin) = completed_previously fin)).
Proof.
  induction turns as [|turns IH]; intros st fin Hstore Hprog; simpl;
    [discriminate|].
  destruct (pending env st) eqn:Hpend; [|intros [= <-]; auto].
  intros H. bind_inv_as H r Hbody.
  destruct (loop_body_progress fuel env st
              (match r with Continue s | Break s => s end) Hstore Hprog)
    as [Hnext Hbreak].
  destruct r as [st'|st'].
  - destruct (Hnext (or_introl Hbody)) as [Hprog' Harr].
    assert (Hstore' : store_ok st') by (eapply loop_body_store; eauto).
    destruct (IH _ _ Hstore' Hprog' H) as (Hp & Hhow & Hend).
    split; [assumption|]. split; [|assumption].
    destruct Hhow as [[-> _]|?]; auto.
  - injection H as <-. destruct (Hbreak Hbody) as [Hcap Hstag].
    destruct (Hnext (or_intror (conj Hbody (conj Hcap Hstag)))) as [Hprog' Harr].
    auto.
Qed.

(* ----------------------------------------------------------------- *)
(** *** The ordering the loop starts from *)

Lemma insert_by_distance_In (x : nat * nat) :
  forall l y, In y (insert_by_distance x l) <-> y = x \/ In y l.
Proof.
  induction l as [|z l IH]; intros y; simpl; [intuition congruence|].
  destruct (snd x <? snd z)%nat; simpl; [intuition congruence|].
  rewrite IH. intuition congruence.
Qed.

Lemma insert_by_distance_length (x : nat * nat) :
  forall l, length (insert_by_distance x l) = S (length l).
Proof.
  induction l as [|z l IH]; simpl; [reflexivity|].
  destruct (snd x <? snd z)%nat; simpl; [reflexivity|]. rewrite IH. reflexivity.
Qed.

Lemma sorted_fold_In :
  forall l acc y,
    In y (fold_left (fun acc x => insert_by_distance x acc) l acc)
    <-> In y l \/ In y acc.
Proof.
  induction l as [|x l IH]; intros acc y; simpl; [tauto|].
  rewrite IH, insert_by_distance_In. intuition congruence.
Qed.

Lemma sorted_fold_length :
  forall l acc,
    length (fold_left (fun acc x => insert_by_distance x acc) l acc)
    = (length l + length acc)%nat.
Proof.
  induction l as [|x l IH]; intros acc; simpl; [reflexivity|].
  rewrite IH, insert_by_distance_length. lia.
Qed.

Lemma distances_length (fuel : nat) (self : circuit_board) :
  forall conns ds,
    distances fuel self conns = Ret ds -> length ds = length conns.
Proof.
  induction conns as [|c conns IH]; intros ds; simpl.
  - intros [= <-]. reflexivity.
  - intros H. bind_inv_as H p Hp. bind_inv_as H ds' Hd. injection H as <-.
    simpl. f_equal. apply IH. reflexivity.
Qed.

Lemma map_fst_combine_seq (ds : list nat) :
  forall k, map fst (combine (seq k (length ds)) ds) = seq k (length ds).
Proof.
  induction ds as [|d ds IH]; intros k; simpl; [reflexivity|].
  rewrite IH. reflexivity.
Qed.

Lemma initial_ordering_each_once (ds : list nat) :
  each_once (length ds)
    (map fst (sorted_by_distance (combine (seq 0 (length ds)) ds))).
Proof.
  assert (Hin : forall i,
            In i (map fst (sorted_by_distance (combine (seq 0 (length ds)) ds)))
            <-> In i (seq 0 (length ds))).
  { intros i. rewrite <- (map_fst_combine_seq ds 0) at 2.
    rewrite !in_map_iff. unfold sorted_by_distance.
    split; intros (x & Hx & Hin); exists x; (split; [assumption|]);
      apply sorted_fold_In in Hin || apply sorted_fold_In; simpl in *; tauto. }
  split.
  - apply (NoDup_incl_NoDup (seq_NoDup (length ds) 0)).
    + rewrite length_map. unfold sorted_by_distance.
      rewrite sorted_fold_length, length_combine, !length_seq. simpl. lia.
    + intros i Hi. apply Hin. assumption.
  - intros i. rewrite Hin, in_seq. lia.
Qed.

Lemma initial_state_progress (fuel : nat) (self : circuit_board) (r : list nat)
  (st0 : opt_state) :
  initial_state fuel self r = Ret st0 -> progress_ok self st0.
Proof.
  unfold initial_state. intros H. bind_inv_as H ds Hds. injection H as <-.
  pose proof (distances_length _ _ _ _ Hds) as Hlen.
  constructor; cbn [iter ordering best_solution best_score completed_previously].
  - lia.
  - rewrite <- Hlen. apply initial_ordering_each_once.
  - auto.
Qed.

Lemma pass_head_progress (fuel : nat) (env : circuit_board)
  (st0 st : opt_state) :
  store_ok st0 -> progress_ok env st0 -> pass_head fuel env st0 st ->
  store_ok st /\ progress_ok env st.
Proof.
  intros Hs0 Hp0. induction 1 as [|s s' _ IH _ Hbody]; [auto|].
  destruct IH as [Hs Hp]. split; [eapply loop_body_store; eauto|].
  destruct (loop_body_progress fuel env s s' Hs Hp) as [Hnext _].
  apply Hnext. auto.
Qed.

(** X16.  In every state in which a turn of the optimizer's loop starts
    the ordering lists each connection index once and no other number:
    the initial sort and every reshuffle keep it so.  Hence a routing
    pass tries every connection that is not routed, once. *)
Theorem ordering_lists_each_connection_once (fuel : nat)
  (self : circuit_board) (r : list nat) (st0 st : opt_state) :
  initial_state fuel self r = Ret st0 ->
  pass_head fuel self st0 st ->
  NoDup (ordering st)
  /\ forall i, In i (ordering st) <-> (i < length (connections self))%nat.
Proof.
  intros Hinit Hhead.
  destruct (pass_head_progress fuel self st0 st
              (initial_state_store _ _ _ _ Hinit)
              (initial_state_progress _ _ _ _ Hinit) Hhead) as [_ Hp].
  exact (po_order _ _ Hp).
Qed.

Lemma ordering_lists_each_connection_once_witness :
  NoDup (ordering facing_routed)
  /\ forall i, In i (ordering facing_routed)
               <-> (i < length (connections facing_gates))%nat.
Proof.
  apply (ordering_lists_each_connection_once 20 facing_gates [] facing_start).
  - exact facing_start_initial.
  - apply (head_next _ _ _ facing_start).
    + apply head_first.
    + reflexivity.
    + exact facing_first_turn.
Defined.

Lemma NoDup_below_length (n : nat) (l : list nat) :
  NoDup l -> (forall i, In i l -> (i < n)%nat) -> (length l <= n)%nat.
Proof.
  intros Hnd Hlt. rewrite <- (length_seq n 0).
  apply NoDup_incl_length; [assumption|].
  intros i Hi. apply in_seq. specialize (Hlt i Hi). lia.
Qed.

(** X17.  When [complete_board] returns, the loop has made at most 1000
    perturbations, and it has ended in one of two ways: every
    connection is routed, or the count of routed connections did not
    change in the last turn and the 1000 perturbations are used up. *)
Theorem complete_board_routed_or_capped (turns fuel : nat)
  (self : circuit_board) (r : list nat) (fin : opt_state) :
  needs_connections self = gate_connectors (connections self) ->
  complete_board turns fuel self r = Ret fin ->
  (iter fin <= max_iters)%nat
  /\ (length (completed_wires fin) = length (connections self)
      \/ (iter fin = max_iters
          /\ length (completed_wires fin) = completed_previously fin
          /\ (length (completed_wires fin) < length (connections self))%nat)).
Proof.
  intros Hneeds. unfold complete_board. intros H.
  bind_inv_as H st0 Hinit. bind_inv_as H st Hloop. injection H as <-.
  cbn [set_store iter completed_wires completed_previously].
  destruct (main_loop_progress fuel self turns st0 st
              (initial_state_store _ _ _ _ Hinit)
              (initial_state_progress _ _ _ _ Hinit) Hloop)
    as (Hprog & _ & Hend).
  pose proof (main_loop_counters fuel self turns st0 st
                (initial_state_counters _ _ _ _ Hneeds Hinit) Hloop) as Hok.
  pose proof (NoDup_below_length _ _ (ok_nodup _ _ Hok) (ok_range _ _ Hok))
    as Hle.
  split; [exact (po_iter _ _ Hprog)|].
  destruct (Nat.eq_dec (length (completed_wires st))
                       (length (connections self))) as [Heq|Hne]; [auto|].
  right. destruct Hend as [Hdone|[Hcap Hstag]].
  - unfold pending in Hdone. apply Z.ltb_ge in Hdone. lia.
  - repeat split; try assumption. lia.
Qed.

Lemma complete_board_routed_or_capped_witness :
  (iter facing_routed <= max_iters)%nat
  /\ (length (completed_wires facing_routed) = length (connections facing_gates)
      \/ (iter facing_routed = max_iters
          /\ length (completed_wires facing_routed)
             = completed_previously facing_routed
          /\ (length (completed_wires facing_routed)
              < length (connections facing_gates))%nat)).
Proof.
  apply (complete_board_routed_or_capped 5 20 facing_gates []).
  - reflexivity.
  - exact facing_complete.
Defined.

(* ----------------------------------------------------------------- *)
(** *** The score *)

Lemma loop_body_score (fuel : nat) (env : circuit_board) (st st' : opt_state) :
  counters_ok env st ->
  (best_score st <= length (connections env))%nat ->
  (loop_body fuel env st = Ret (Continue st')
   \/ loop_body fuel env st = Ret (Break st')) ->
  (best_score st' <= length (connections env))%nat.
Proof.
  intros Hok Hle. unfold loop_body.
  destruct (routing_pass fuel env st (ordering st)) as [st1| |] eqn:Hpass;
    cbn [bind]; [|intros [H|H]; discriminate..].
  pose proof (routing_pass_counters fuel env _ _ _ Hok Hpass) as Hok1.
  pose proof (NoDup_below_length _ _ (ok_nodup _ _ Hok1) (ok_range _ _ Hok1))
    as Hlen.
  pose proof (sl_best_score _ _ (routing_pass_locals _ _ _ _ _ Hpass)) as Hsame.
  assert (H2 : (best_score (save_improvement st1)
                <= length (connections env))%nat).
  { destruct (save_improvement_cases st1) as [[-> _]|[-> _]];
      [lia | exact Hlen]. }
  destruct (_ =? _)%nat.
  - destruct (_ =? _)%nat.
    + intros [H|H]; [discriminate|]. injection H as <-. assumption.
    + destruct (perturb env _) as [st3| |] eqn:Hp; cbn [bind];
        [|intros [H|H]; discriminate..].
      intros [H|H]; [|discriminate]. injection H as <-.
      cbn [set_completed_previously best_score].
      unfold perturb in Hp.
      bind_inv_as Hp s Hsample. destruct s as [to_delete r1].
      bind_inv_as Hp st_u Hundo. bind_inv_as Hp s' Hshuffle.
      destruct s' as [order r2]. injection Hp as <-.
      cbn [set_attempt best_score].
      rewrite (pk_best_score _ _ (undo_all_plan _ _ _ _ Hundo)). assumption.
  - intros [H|H]; [|discriminate]. injection H as <-. assumption.
Qed.

Lemma main_loop_score (fuel : nat) (env : circuit_board) :
  forall turns st fin,
    counters_ok env st ->
    (best_score st <= length (connections env))%nat ->
    main_loop turns fuel env st = Ret fin ->
    (best_score fin <= length (connections env))%nat.
Proof.
  induction turns as [|turns IH]; intros st fin Hok Hle; simpl; [discriminate|].
  destruct (pending env st); [|intros [= <-]; assumption].
  intros H. bind_inv_as H r Hbody. destruct r as [st'|st'].
  - eapply IH; [| |exact H].
    + eapply loop_body_counters; eauto.
    + eapply loop_body_score; eauto.
  - injection H as <-. eapply loop_body_score; eauto.
Qed.

(** X18.  The score [complete_board] prints at its end is at least the
    number of connections routed in the state it ends in, and at most
    the number of connections required; so it is that number when
    every connection is routed. *)
Theorem complete_board_score_bounds (turns fuel : nat)
  (self : circuit_board) (r : list nat) (fin : opt_state) :
  needs_connections self = gate_connectors (connections self) ->
  complete_board turns fuel self r = Ret fin ->
  (length (completed_wires fin) <= best_score fin)%nat
  /\ (best_score fin <= length (connections self))%nat.
Proof.
  intros Hneeds. unfold complete_board. intros H.
  bind_inv_as H st0 Hinit. bind_inv_as H st Hloop. injection H as <-.
  cbn [set_store completed_wires best_score]. split.
  - exact (so_score _ (main_loop_store fuel self turns st0 st
                         (initial_state_store _ _ _ _ Hinit) Hloop)).
  - apply (main_loop_score fuel self turns st0 st); try assumption.
    + eapply initial_state_counters; eassumption.
    + unfold initial_state in Hinit. bind_inv_as Hinit ds Hds.
      injection Hinit as <-. simpl. lia.
Qed.

Lemma complete_board_score_bounds_witness :
  (length (completed_wires facing_routed) <= best_score facing_routed)%nat
  /\ (best_score facing_routed <= length (connections facing_gates))%nat.
Proof.
  apply (complete_board_score_bounds 5 20 facing_gates []).
  - reflexivity.
  - exact facing_complete.
Defined.

(* ----------------------------------------------------------------- *)
(** *** What [self.board] is left as *)

Lemma complete_board_board (turns fuel : nat)
  (self : circuit_board) (r : list nat) (fin : opt_state) :
  complete_board turns fuel self r = Ret fin ->
  match connections self with
  | [] => self_board fin = IndexList []
  | _ :: _ =>
      exists a, self_board fin = Array a /\ (a < length (heap fin))%nat
  end.
Proof.
  unfold complete_board. intros H.
  bind_inv_as H st0 Hinit. bind_inv_as H st Hloop. injection H as <-.
  cbn [set_store self_board heap].
  pose proof (initial_state_store _ _ _ _ Hinit) as Hstore0.
  destruct (main_loop_progress fuel self turns st0 st Hstore0
              (initial_state_progress _ _ _ _ Hinit) Hloop)
    as (_ & Hhow & _).
  pose proof (main_loop_store fuel self turns st0 st Hstore0 Hloop) as Hstore.
  unfold initial_state in Hinit. bind_inv_as Hinit ds Hds.
  destruct (connections self) as [|c conns] eqn:Hconns.
  - simpl in Hds. injection Hds as <-. injection Hinit as <-.
    destruct turns as [|turns]; simpl in Hloop; [discriminate|].
    unfold pending in Hloop. rewrite Hconns in Hloop. simpl in Hloop.
    injection Hloop as <-. reflexivity.
  - destruct Hhow as [[-> Hpend]|(a & Ha)].
    + injection Hinit as <-. unfold pending in Hpend. rewrite Hconns in Hpend.
      cbn [completed_wires length] in Hpend. apply Z.ltb_ge in Hpend. lia.
    + exists a. split; [assumption|].
      pose proof (so_best _ Hstore) as Hb. rewrite Ha in Hb. tauto.
Qed.

(** With at least one connection, the grid left when the optimizer
    returns is the one recorded last, with the best count, which is
    not below the count at the end of the loop. *)
Corollary final_grid_with_connections (turns fuel : nat) (self : circuit_board)
  (r : list nat) (fin : opt_state) :
  connections self <> [] ->
  complete_board turns fuel self r = Ret fin ->
  exists cells,
    recorded fin = Some (best_score fin, cells)
    /\ cells_of (heap fin) (self_board fin) = Some cells
    /\ (length (completed_wires fin) <= best_score fin)%nat.
Proof.
  intros Hconns H.
  pose proof (complete_board_board _ _ _ _ _ H) as Hb.
  destruct (connections self) as [|c conns]; [congruence|].
  destruct Hb as (a & Ha & Hlt).
  unfold complete_board in H.
  bind_inv_as H st0 Hinit. bind_inv_as H st Hloop. injection H as <-.
  pose proof (main_loop_store _ _ _ _ _ (initial_state_store _ _ _ _ Hinit) Hloop)
    as [_ Hscore Hbest].
  cbn [self_board best_solution recorded best_score heap set_store
       completed_wires] in *.
  rewrite Ha in Hbest. destruct Hbest as (_ & -> & _).
  exists (nth a (heap st) []). split; [reflexivity|].
  rewrite Ha. split; [reflexivity|assumption].
Qed.

(* ----------------------------------------------------------------- *)
(** *** The initial ordering is sorted *)

Lemma insert_by_distance_sorted (x : nat * nat) :
  forall l,
    ForallOrdPairs pair_before l ->
    (forall y, In y l -> (fst y < fst x)%nat) ->
    ForallOrdPairs pair_before (insert_by_distance x l).
Proof.
  induction 1 as [|y l Hy Hl IH]; intros Hlow; simpl.
  - constructor; [constructor|constructor].
  - destruct (Nat.ltb_spec (snd x) (snd y)) as [Hlt|Hge].
    + constructor; [|constructor; assumption].
      constructor; [left; assumption|].
      rewrite Forall_forall in Hy |- *. intros z Hz. left.
      destruct (Hy z Hz) as [H|[H _]]; lia.
    + constructor.
      * apply Forall_forall. intros z Hz. apply insert_by_distance_In in Hz.
        destruct Hz as [->|Hz].
        -- specialize (Hlow y (or_introl eq_refl)). unfold pair_before. lia.
        -- rewrite Forall_forall in Hy. apply Hy. assumption.
      * apply IH. intros z Hz. apply Hlow. right. assumption.
Qed.

Lemma sorted_fold_sorted :
  forall ds k acc,
    ForallOrdPairs pair_before acc ->
    (forall y, In y acc -> (fst y < k)%nat) ->
    ForallOrdPairs pair_before
      (fold_left (fun acc x => insert_by_distance x acc)
                 (combine (seq k (length ds)) ds) acc).
Proof.
  induction ds as [|d ds IH]; intros k acc Hacc Hlow; simpl; [assumption|].
  apply IH.
  - apply insert_by_distance_sorted; assumption.
  - intros y Hy. apply insert_by_distance_In in Hy.
    destruct Hy as [->|Hy]; [simpl; lia|]. specialize (Hlow y Hy). lia.
Qed.

Lemma ForallOrdPairs_nth {A : Type} (R : A -> A -> Prop) :
  forall l, ForallOrdPairs R l ->
  forall i j x y,
    (i < j)%nat -> nth_error l i = Some x -> nth_error l j = Some y -> R x y.
Proof.
  induction 1 as [|a l Ha Hl IH]; intros i j x y Hij Hi Hj.
  - destruct i; discriminate.
  - destruct j as [|j]; [lia|]. simpl in Hj. destruct i as [|i].
    + injection Hi as <-. rewrite Forall_forall in Ha. apply Ha.
      eapply nth_error_In; eassumption.
    + simpl in Hi. apply (IH i j); [lia|assumption|assumption].
Qed.

Lemma In_combine_seq (ds : list nat) :
  forall k a d,
    In (a, d) (combine (seq k (length ds)) ds) ->
    (k <= a)%nat /\ nth (a - k) ds O = d.
Proof.
  induction ds as [|d0 ds IH]; intros k a d; simpl; [tauto|].
  intros [[= <- <-]|Hin].
  - rewrite Nat.sub_diag. auto.
  - destruct (IH _ _ _ Hin) as [Hle Hnth]. split; [lia|].
    replace (a - k)%nat with (S (a - S k)) by lia. assumption.
Qed.

Lemma distances_nth (fuel : nat) (self : circuit_board) :
  forall conns ds,
    distances fuel self conns = Ret ds ->
    forall k c,
      nth_error conns k = Some c ->
      exists p, connect_gates fuel self c = Ret p /\ nth k ds O = length p.
Proof.
  induction conns as [|c0 conns IH]; intros ds; simpl.
  - intros _ [|k] c; discriminate.
  - intros H. bind_inv_as H p Hp. bind_inv_as H ds' Hd. injection H as <-.
    intros [|k] c; simpl.
    + intros [= <-]. eauto.
    + apply IH. reflexivity.
Qed.

(** X19.  The ordering the loop starts from lists the connections by the
    length of the path the pair router finds for each on the board as
    given (0 when it finds none), shortest first, and connections of
    the same length by their index. *)
Theorem initial_ordering_by_distance (fuel : nat) (self : circuit_board)
  (r : list nat) (st0 : opt_state) :
  initial_state fuel self r = Ret st0 ->
  exists ds,
    distances fuel self (connections self) = Ret ds
    /\ (forall k c,
          nth_error (connections self) k = Some c ->
          exists p, connect_gates fuel self c = Ret p
                    /\ nth k ds O = length p)
    /\ forall i j a b,
         (i < j)%nat ->
         nth_error (ordering st0) i = Some a ->
         nth_error (ordering st0) j = Some b ->
         goes_before ds a b.
Proof.
  unfold initial_state. intros H. bind_inv_as H ds Hds. injection H as <-.
  exists ds. split; [reflexivity|].
  split; [apply (distances_nth _ _ _ _ Hds)|].
  cbn [ordering]. rewrite <- (distances_length _ _ _ _ Hds).
  intros i j a b Hij Hi Hj.
  rewrite nth_error_map in Hi, Hj.
  destruct (nth_error _ i) as [[a' da]|] eqn:Ei; [|discriminate].
  destruct (nth_error _ j) as [[b' db]|] eqn:Ej; [|discriminate].
  injection Hi as ->. injection Hj as ->.
  assert (Hsorted : ForallOrdPairs pair_before
            (sorted_by_distance (combine (seq 0 (length ds)) ds))).
  { apply sorted_fold_sorted; [constructor | intros y []]. }
  pose proof (ForallOrdPairs_nth _ _ Hsorted i j _ _ Hij Ei Ej) as Hb.
  assert (Hmem : forall k x d,
            nth_error (sorted_by_distance (combine (seq 0 (length ds)) ds)) k
            = Some (x, d) -> nth x ds O = d).
  { intros k x d Hk. apply nth_error_In in Hk.
    unfold sorted_by_distance in Hk. apply sorted_fold_In in Hk.
    destruct Hk as [Hk|[]]. apply In_combine_seq in Hk.
    destruct Hk as [_ Hk]. rewrite Nat.sub_0_r in Hk. assumption. }
  unfold goes_before. rewrite (Hmem _ _ _ Ei), (Hmem _ _ _ Ej). assumption.
Qed.

Lemma initial_ordering_by_distance_witness :
  exists ds,
    distances 20 facing_gates (connections facing_gates) = Ret ds
    /\ (forall k c,
          nth_error (connections facing_gates) k = Some c ->
          exists p, connect_gates 20 facing_gates c = Ret p
                    /\ nth k ds O = length p)
    /\ forall i j a b,
         (i < j)%nat ->
         nth_error (ordering facing_start) i = Some a ->
         nth_error (ordering facing_start) j = Some b ->
         goes_before ds a b.
Proof.
  apply (initial_ordering_by_distance 20 facing_gates [] facing_start).
  exact facing_start_initial.
Defined.

(* ================================================================= *)
(** ** The path of a pair of gates *)

Lemma try_combinations_from (fuel : nat) (self : circuit_board) :
  forall combos best best',
    try_combinations fuel self combos best = Ret best' ->
    best' = best
    \/ exists a b,
         In (a, b) combos /\ search fuel a b self = Ret (Path best').
Proof.
  induction combos as [|[a b] combos IH]; intros best best'; simpl.
  - intros [= <-]. auto.
  - intros H. bind_inv_as H path Hs.
    destruct (IH _ _ H) as [->|(a' & b' & Hin & Hs')].
    + unfold keep_shorter. destruct path as [p|]; [|auto].
      destruct best as [|x best].
      * right. exists a, b. auto.
      * destruct (_ <? _)%nat; [right; exists a, b|]; auto.
    + right. exists a', b'. auto.
Qed.

(** X20.  A path [connect_gates] returns for a pair of gates runs from a
    cell next to the second gate to a cell next to the first one; its
    cells are empty, each one unit step from the one before, and none
    comes twice. *)
Theorem connect_gates_joins_the_gates (fuel : nat) (self : circuit_board)
  (pair : key * key) (loc1 loc2 first : node) (rest : list node) :
  dict_get (gates self) (fst pair) = Some loc1 ->
  dict_get (gates self) (snd pair) = Some loc2 ->
  connect_gates fuel self pair = Ret (first :: rest) ->
  unit_step loc2 first
  /\ unit_step loc1 (last (first :: rest) first)
  /\ contiguous (first :: rest)
  /\ NoDup (first :: rest)
  /\ Forall (fun n => get_node (board self) n = Ret EMPTY) (first :: rest).
Proof.
  intros H1 H2 H.
  pose proof (connect_gates_cells _ _ _ _ H) as Hcells.
  unfold connect_gates, dict_getitem in H. rewrite H1, H2 in H.
  cbn [bind] in H. bind_inv_as H n1 Hn1. bind_inv_as H n2 Hn2.
  rewrite try_departures_combinations in H.
  apply try_combinations_from in H.
  destruct H as [H|(a & b & Hin & Hs)]; [discriminate|].
  apply in_prod_iff in Hin. destruct Hin as [Ha Hb].
  destruct (search_path _ _ _ _ _ Hs) as ((rest' & Hhead) & Hlast & _ & Hcont).
  injection Hhead as Hf Hr. subst b rest'.
  destruct (search_scores _ _ _ _ _ Hs) as [Hnd _].
  assert (E1 : edge self loc1 a) by (exists n1; auto).
  assert (E2 : edge self loc2 first) by (exists n2; auto).
  apply edge_unit_step in E1, E2.
  rewrite Hlast. repeat split; tauto.
Qed.

Lemma connect_gates_joins_the_gates_witness :
  unit_step (0, 1, 3) (0, 1, 2)
  /\ unit_step (0, 1, 1) (last [(0, 1, 2)] (0, 1, 2))
  /\ contiguous [(0, 1, 2)]
  /\ NoDup [(0, 1, 2)]
  /\ Forall (fun n => get_node (board facing_gates) n = Ret EMPTY) [(0, 1, 2)].
Proof.
  apply (connect_gates_joins_the_gates 20 facing_gates (KInt 1, KInt 2)
           (0, 1, 1) (0, 1, 3) (0, 1, 2) []).
  - reflexivity.
  - reflexivity.
  - vm_compute. reflexivity.
Defined.

(* ================================================================= *)
(** ** Clearing a connection *)





(* ================================================================= *)
(** ** The labels of the wires *)

Lemma wire_labels_checked :
  forallb (fun i => forallb (wire_labels_apart i) (seq 0 99)) (seq 0 99) = true.
Proof. vm_compute. reflexivity. Qed.

(** X22.  The labels of the first 99 connections are strings of two
    characters, so a cell holds them whole; none of them is ['__'] or
    ['GA'], and no two connections have the same one. *)
Theorem wire_labels_distinct (n i j : nat) (a b : label) :
  (i < 99)%nat -> (j < 99)%nat ->
  wire_name n i = Ret a -> wire_name n j = Ret b ->
  String.length a = 2%nat /\ np_trunc a = a
  /\ a <> EMPTY /\ a <> GATE
  /\ (a = b -> i = j).
Proof.
  intros Hi Hj Ha Hb. unfold wire_name in Ha, Hb.
  destruct (i <? n)%nat; [|discriminate]. injection Ha as <-.
  destruct (j <? n)%nat; [|discriminate]. injection Hb as <-.
  pose proof wire_labels_checked as H. rewrite forallb_forall in H.
  assert (Hi' : In i (seq 0 99)) by (apply in_seq; lia).
  specialize (H i Hi'). rewrite forallb_forall in H.
  assert (Hj' : In j (seq 0 99)) by (apply in_seq; lia).
  specialize (H j Hj'). unfold wire_labels_apart in H.
  rewrite !andb_true_iff in H. destruct H as ((((H1 & H2) & H3) & H4) & H5).
  apply Nat.eqb_eq in H1. apply String.eqb_eq in H4.
  apply negb_true_iff, String.eqb_neq in H2.
  apply negb_true_iff, String.eqb_neq in H3.
  repeat split; try assumption.
  intros Heq. apply orb_true_iff in H5. destruct H5 as [H5|H5].
  - apply negb_true_iff, String.eqb_neq in H5. contradiction.
  - apply Nat.eqb_eq in H5. assumption.
Qed.

Lemma wire_labels_distinct_witness :
  String.length "01"%string = 2%nat /\ np_trunc "01"%string = "01"%string
  /\ "01"%string <> EMPTY /\ "01"%string <> GATE
  /\ ("01"%string = "08"%string -> 0%nat = 7%nat).
Proof.
  apply (wire_labels_distinct 10 0 7 "01"%string "08"%string);
    try lia; reflexivity.
Defined.

Lemma wire_labels_taken_checked :
  forallb wire_label_taken (seq 99 900) = true.
Proof. vm_compute. reflexivity. Qed.

(** X23.  From the hundredth connection to the 999th the label has three
    characters; a cell keeps the first two, and these are the label of
    an earlier connection: the one whose number is the tenth of this
    one's. *)
Theorem wire_label_cut_is_an_earlier_one (n i : nat) (a : label) :
  (99 <= i < 999)%nat ->
  wire_name n i = Ret a ->
  np_trunc a <> a
  /\ (S i / 10 - 1 < 99)%nat
  /\ wire_name n (S i / 10 - 1) = Ret (np_trunc a).
Proof.
  intros Hi Ha. unfold wire_name in *.
  destruct (Nat.ltb_spec i n) as [Hn|]; [|discriminate]. injection Ha as <-.
  pose proof wire_labels_taken_checked as H. rewrite forallb_forall in H.
  assert (Hi' : In i (seq 99 900)) by (apply in_seq; lia).
  specialize (H i Hi'). unfold wire_label_taken in H.
  apply andb_true_iff in H. destruct H as [H1 H2].
  apply String.eqb_eq in H1. apply negb_true_iff, String.eqb_neq in H2.
  assert (Hdiv : (S i / 10 < 100)%nat).
  { apply Nat.Div0.div_lt_upper_bound. lia. }
  split; [assumption|]. split; [lia|].
  destruct (Nat.ltb_spec (S i / 10 - 1) n); [|lia]. rewrite H1. reflexivity.
Qed.

Lemma wire_label_cut_is_an_earlier_one_witness :
  np_trunc "100"%string <> "100"%string
  /\ (S 99 / 10 - 1 < 99)%nat
  /\ wire_name 120 (S 99 / 10 - 1) = Ret (np_trunc "100"%string).
Proof.
  apply (wire_label_cut_is_an_earlier_one 120 99 "100"%string).
  - lia.
  - reflexivity.
Defined.

(* ================================================================= *)
(** ** The file of the solution *)

Lemma split_on_nonempty (sep : ascii) (s : string) : split_on sep s <> [].
Proof.
  destruct s as [|c s]; simpl; [discriminate|].
  destruct (Ascii.eqb c sep); [discriminate|].
  destruct (split_on sep s); discriminate.
Qed.

Lemma split_on_app (sep : ascii) (b : string) :
  forall a,
    lacks sep a = true ->
    split_on sep (a ++ String sep b) = a :: split_on sep b.
Proof.
  induction a as [|c a IH]; simpl.
  - intros _. rewrite Ascii.eqb_refl. reflexivity.
  - intros H. apply andb_true_iff in H. destruct H as [Hc Ha].
    apply negb_true_iff in Hc. rewrite Hc, (IH Ha). reflexivity.
Qed.

Lemma split_on_plain (sep : ascii) :
  forall a, lacks sep a = true -> split_on sep a = [a].
Proof.
  induction a as [|c a IH]; simpl; [reflexivity|].
  intros H. apply andb_true_iff in H. destruct H as [Hc Ha].
  apply negb_true_iff in Hc. rewrite Hc, (IH Ha). reflexivity.
Qed.

Lemma lacks_app (c : ascii) :
  forall a b, lacks c (a ++ b) = lacks c a && lacks c b.
Proof.
  induction a as [|x a IH]; intros b; simpl; [reflexivity|].
  rewrite IH, andb_assoc. reflexivity.
Qed.

Lemma string_app_assoc :
  forall a b c : string, ((a ++ b) ++ c = a ++ (b ++ c))%string.
Proof.
  induction a as [|x a IH]; intros b c; simpl; [reflexivity|].
  rewrite IH. reflexivity.
Qed.

(** A row is read back from its line. *)
Lemma split_row (row : list label) :
  row <> [] -> Forall (fun c => lacks " " c = true) row ->
  split_on " " (String.concat " " row) = row.
Proof.
  induction row as [|x row IH]; intros Hne Hall; [congruence|].
  inversion Hall as [|? ? Hx Hrow]; subst.
  destruct row as [|y row].
  - simpl. apply split_on_plain. assumption.
  - change (String.concat " " (x :: y :: row))
      with (x ++ String " " (String.concat " " (y :: row)))%string.
    rewrite (split_on_app _ _ _ Hx), IH; [reflexivity|discriminate|assumption].
Qed.

Lemma lacks_concat (c : ascii) (sep : string) :
  lacks c sep = true ->
  forall row, Forall (fun x => lacks c x = true) row ->
  lacks c (String.concat sep row) = true.
Proof.
  intros Hsep. induction row as [|x row IH]; intros Hall; [reflexivity|].
  inversion Hall as [|? ? Hx Hrow]; subst.
  destruct row as [|y row]; [assumption|].
  change (String.concat sep (x :: y :: row))
    with (x ++ sep ++ String.concat sep (y :: row))%string.
  rewrite !lacks_app, Hx, Hsep, (IH Hrow). reflexivity.
Qed.

Lemma digit_not_newline (d : nat) :
  (d < 10)%nat -> Ascii.eqb (digit d) (ascii_of_nat 10) = false.
Proof.
  intros Hd. unfold digit.
  do 10 (destruct d as [|d]; [reflexivity|]). lia.
Qed.

Lemma decimal_lacks_newline :
  forall fuel x acc,
    lacks (ascii_of_nat 10) acc = true ->
    lacks (ascii_of_nat 10) (decimal fuel x acc) = true.
Proof.
  induction fuel as [|fuel IH]; intros x acc Hacc; cbn [decimal];
    [assumption|].
  assert (H : lacks (ascii_of_nat 10) (String (digit (x mod 10)) acc) = true).
  { cbn [lacks]. rewrite digit_not_newline, Hacc; [reflexivity|].
    apply Nat.mod_upper_bound. discriminate. }
  destruct (x / 10 =? 0)%nat; [assumption|]. apply IH. assumption.
Qed.

(** The lines of the file are the strings written, each without its
    line break. *)
Lemma split_lines :
  forall bodies,
    Forall (fun b => lacks (ascii_of_nat 10) b = true) bodies ->
    split_on (ascii_of_nat 10)
      (file_text (map (fun b => (b ++ newline)%string) bodies))
    = bodies ++ [EmptyString].
Proof.
  unfold file_text.
  induction bodies as [|b bodies IH]; intros Hall; [reflexivity|].
  inversion Hall as [|? ? Hb Hrest]; subst.
  assert (E : String.concat ""
                (map (fun b => (b ++ newline)%string) (b :: bodies))
              = (b ++ String (ascii_of_nat 10)
                        (String.concat ""
                           (map (fun b => (b ++ newline)%string) bodies)))%string).
  { cbn [map]. destruct bodies as [|b' bodies].
    - reflexivity.
    - change (String.concat "" ((b ++ newline)%string
                                 :: map (fun b => (b ++ newline)%string)
                                        (b' :: bodies)))
        with ((b ++ newline) ++ ""
              ++ String.concat ""
                   (map (fun b => (b ++ newline)%string) (b' :: bodies)))%string.
      rewrite string_app_assoc. reflexivity. }
  rewrite E, (split_on_app _ _ _ Hb), (IH Hrest). reflexivity.
Qed.

Lemma layer_writes_bodies :
  forall layers z,
    layer_writes z layers
    = map (fun b => (b ++ newline)%string) (layer_bodies z layers).
Proof.
  induction layers as [|layer layers IH]; intros z; [reflexivity|].
  cbn [layer_writes layer_bodies]. rewrite map_app, IH. cbn [map].
  rewrite map_map. f_equal. unfold layer_line, layer_body.
  rewrite !string_app_assoc. reflexivity.
Qed.

Lemma row_not_heading (row : list label) :
  Forall cell_text row ->
  String.prefix "### Layer " (String.concat " " row) = false.
Proof.
  intros Hall. destruct row as [|x row]; [reflexivity|].
  inversion Hall as [|? ? (Hlen & _ & _) _]; subst.
  assert (E : exists t, String.concat " " (x :: row) = (x ++ t)%string
                        /\ (t = EmptyString \/ exists t', t = String " " t')).
  { destruct row as [|y row].
    - exists EmptyString. split; [|auto]. simpl.
      clear. induction x as [|c x IH]; simpl; [reflexivity|]. rewrite <- IH.
      reflexivity.
    - exists (String " " (String.concat " " (y :: row))). split; [reflexivity|].
      eauto. }
  destruct E as (t & -> & Ht).
  destruct x as [|c1 [|c2 [|c3 x]]]; simpl in Hlen; try lia;
    destruct Ht as [->|(t' & ->)]; cbn [String.prefix String.append];
    repeat match goal with
    | |- context [Ascii.ascii_dec ?a ?b] => destruct (Ascii.ascii_dec a b)
    end; try reflexivity; congruence.
Qed.

Lemma prefix_app (a b : string) : String.prefix a (a ++ b) = true.
Proof.
  induction a as [|c a IH]; [destruct b; reflexivity|].
  cbn [String.prefix String.append].
  destruct (Ascii.ascii_dec c c); [assumption|congruence].
Qed.

Lemma layer_body_heading (z : nat) :
  String.prefix "### Layer " (layer_body z) = true.
Proof. apply prefix_app. Qed.

Lemma read_layers_bodies :
  forall layers z,
    Forall (Forall (fun row => row <> [] /\ Forall cell_text row)) layers ->
    read_layers (layer_bodies z layers) = ([], layers).
Proof.
  induction layers as [|layer layers IH]; intros z Hall; [reflexivity|].
  inversion Hall as [|? ? Hlayer Hrest]; subst.
  cbn [layer_bodies]. rewrite <- app_comm_cons. cbn [read_layers].
  assert (Hrows : read_layers (map (String.concat " ") layer
                               ++ layer_bodies (S z) layers)
                  = (layer, layers)).
  { clear Hall. induction layer as [|row layer IHl].
    - simpl. apply IH. assumption.
    - inversion Hlayer as [|? ? [Hne Hcells] Hlayer']; subst.
      cbn [map app read_layers]. rewrite (IHl Hlayer').
      rewrite (row_not_heading _ Hcells), split_row; [reflexivity|assumption|].
      eapply Forall_impl; [|exact Hcells]. intros c (_ & Hc & _). exact Hc. }
  rewrite Hrows, layer_body_heading. reflexivity.
Qed.

Lemma layer_bodies_lack_newline :
  forall layers z,
    Forall (Forall (fun row => row <> [] /\ Forall cell_text row)) layers ->
    Forall (fun b => lacks (ascii_of_nat 10) b = true) (layer_bodies z layers).
Proof.
  induction layers as [|layer layers IH]; intros z Hall; [constructor|].
  inversion Hall as [|? ? Hlayer Hrest]; subst.
  cbn [layer_bodies]. apply Forall_app. split; [|apply IH; assumption].
  constructor.
  - unfold layer_body. rewrite !lacks_app.
    rewrite decimal_lacks_newline by reflexivity. reflexivity.
  - apply Forall_map. eapply Forall_impl; [|exact Hlayer].
    intros row [_ Hcells]. apply lacks_concat; [reflexivity|].
    eapply Forall_impl; [|exact Hcells]. intros c (_ & _ & Hc). exact Hc.
Qed.

(** X24.  The file [output_solution] writes for an array can be read
    back: cut into lines, with every heading ['### Layer n ###']
    opening a layer and every other line split at its spaces into the
    cells of a row, it gives the array again -- provided a row is not
    empty and no cell holds a space or a line break. *)
Theorem output_solution_reads_back (h : list grid) (a : nat) :
  Forall (Forall (fun row => row <> [] /\ Forall cell_text row)) (nth a h []) ->
  snd (output_solution h (Array a)) = Ret tt
  /\ read_back (file_text (fst (output_solution h (Array a)))) = nth a h [].
Proof.
  intros Hall. split; [reflexivity|].
  cbn [output_solution fst]. unfold read_back.
  rewrite layer_writes_bodies, split_lines
    by (apply layer_bodies_lack_newline; assumption).
  rewrite removelast_last, read_layers_bodies by assumption. reflexivity.
Qed.

Lemma output_solution_reads_back_witness :
  snd (output_solution (heap facing_routed) (Array 0)) = Ret tt
  /\ read_back (file_text (fst (output_solution (heap facing_routed) (Array 0))))
     = nth 0 (heap facing_routed) [].
Proof.
  apply (output_solution_reads_back (heap facing_routed) 0).
  repeat constructor; discriminate.
Defined.

(** X25.  When [complete_board] returns on a board with at least one
    connection, [self.board] refers to an array, and [output_solution]
    writes its layers; on a board without connections [self.board] is
    left as the empty list [best_solution] was initialised with, and
    [output_solution] writes nothing, whatever gates the board holds.
    In both cases [output_solution] ends without an exception. *)
Theorem output_after_complete_board (turns fuel : nat)
  (self : circuit_board) (r : list nat) (fin : opt_state) :
  complete_board turns fuel self r = Ret fin ->
  snd (output_solution (heap fin) (self_board fin)) = Ret tt
  /\ match connections self with
     | [] =>
         self_board fin = IndexList []
         /\ fst (output_solution (heap fin) (self_board fin)) = []
     | _ :: _ =>
         exists a,
           self_board fin = Array a /\ (a < length (heap fin))%nat
           /\ fst (output_solution (heap fin) (self_board fin))
              = layer_writes 1 (nth a (heap fin) [])
     end.
Proof.
  intros H. apply complete_board_board in H.
  destruct (connections self) as [|c conns].
  - rewrite H. repeat split.
  - destruct H as (a & -> & Ha). split; [reflexivity|].
    exists a. repeat split. assumption.
Qed.

Lemma output_after_complete_board_witness :
  snd (output_solution (heap facing_routed) (self_board facing_routed)) = Ret tt
  /\ match connections facing_gates with
     | [] =>
         self_board facing_routed = IndexList []
         /\ fst (output_solution (heap facing_routed)
                                 (self_board facing_routed)) = []
     | _ :: _ =>
         exists a,
           self_board facing_routed = Array a
           /\ (a < length (heap facing_routed))%nat
           /\ fst (output_solution (heap facing_routed)
                                   (self_board facing_routed))
              = layer_writes 1 (nth a (heap facing_routed) [])
     end.
Proof.
  apply (output_after_complete_board 5 20 facing_gates []).
  exact facing_complete.
Defined.

(* ================================================================= *)
(** ** The loop of the search ends, whatever the goal *)

Lemma chain_exists (st : search_state) :
  score_inv st -> forall n, exists p, chain (came_from st) n p.
Proof.
  intros [Hr Hl].
  assert (Hk : forall (k : nat) n v,
            dict_get (g_score st) n = Some v -> (Z.to_nat v < k)%nat ->
            exists p, chain (came_from st) n p).
  { induction k as [|k IH]; intros n v Gn Hv; [lia|].
    destruct (dict_get (came_from st) n) as [c|] eqn:Cn.
    - destruct (Hl _ _ Cn) as (vn & vc & Gn' & Gc & Hlt).
      rewrite Gn in Gn'. injection Gn' as <-.
      pose proof (Hr _ _ Gc) as Hc. pose proof (Hr _ _ Gn) as Hn.
      destruct (IH c vc Gc) as (p & Hp); [lia|].
      exists (n :: p). econstructor; eassumption.
    - exists [n]. constructor. assumption. }
  intros n. destruct (dict_get (came_from st) n) as [c|] eqn:Cn.
  - destruct (Hl _ _ Cn) as (vn & vc & Gn & _ & _).
    apply (Hk (S (Z.to_nat vn)) n vn Gn). lia.
  - exists [n]. constructor. assumption.
Qed.

Lemma search_loop_ends (c_board : circuit_board) (start goal : node) :
  forall fuel st,
    bounded_inv c_board start st ->
    score_inv st ->
    (length (all_nodes (dimensions c_board)) < fuel + length (closed_set st))%nat ->
    (exists r, search_loop fuel goal c_board st = Ret r)
    \/ exists e, search_loop fuel goal c_board st = Raise e.
Proof.
  induction fuel as [|fuel IH]; intros st Hinv Hsc Hfuel.
  - exfalso. destruct Hinv as [Hnd Hc _ _ _].
    assert (length (closed_set st) <= length (all_nodes (dimensions c_board)))%nat.
    { apply NoDup_incl_length; [assumption|].
      intros n Hn. apply in_bounds_all_nodes. auto. }
    lia.
  - simpl. destruct (open_set st) as [|o os] eqn:Hopen; [eauto|].
    rewrite <- Hopen. clear o os Hopen.
    destruct (min_key _) as [current| |] eqn:Hmin; cbn [bind]; eauto.
    + destruct (selected_open _ _ Hmin) as [Hin Hscored].
      pose proof (bi_reached _ _ _ Hinv _ Hscored) as Hreach.
      destruct (node_eqb current goal) eqn:Hgoal.
      { destruct (chain_exists st Hsc current) as (p & Hp).
        rewrite (reconstruct_path_of_chain _ _ _ Hp). cbn [bind]. eauto. }
      destruct (node_neighbors c_board current) as [nbs| |] eqn:Hnbs; cbn [bind];
        eauto.
      * match goal with
        | |- context [visit_all goal current ?s nbs] =>
            destruct (visit_all goal current s nbs) as [st2| |] eqn:Hvisit;
            cbn [bind]; eauto;
            [assert (Hinv1 : bounded_inv c_board start s);
             [|assert (Hsc1 : score_inv s)
                 by (destruct Hsc as [Hr Hl]; constructor; assumption)]|]
        end.
        -- destruct Hinv as [Hnd Hc Ho Ha Hr].
           pose proof (Ha _ Hin) as Hfresh.
           constructor; cbn [closed_set open_set f_score]; auto.
           ++ unfold set_add. rewrite (proj2 (mem_false _ _) Hfresh).
              apply NoDup_app; [assumption|repeat constructor; simpl; tauto|].
              intros x Hx [<-|[]]. contradiction.
           ++ intros n Hn. apply In_set_add in Hn. destruct Hn as [->|Hn]; auto.
           ++ intros n Hn. apply In_set_remove in Hn. apply Ho. tauto.
           ++ intros n Hn. apply In_set_remove in Hn. destruct Hn as [Hn Hne].
              rewrite In_set_add. intros [->|Hcl]; [congruence|]. eapply Ha; eauto.
        -- destruct (visit_all_bounded _ _ _ _ _ _ _ Hinv1
                       (fun n Hn => ex_intro _ nbs (conj Hnbs Hn))
                       (bi_open _ _ _ Hinv _ Hin) Hreach Hvisit)
             as [Hinv2 Hclosed2].
           pose proof (visit_all_scores c_board goal current nbs _ _ Hsc1
                         (fun n Hn => ex_intro _ nbs (conj Hnbs Hn)) Hvisit)
             as Hsc2.
           apply IH; [assumption|assumption|]. rewrite Hclosed2.
           cbn [closed_set]. unfold set_add.
           rewrite (proj2 (mem_false _ _) (bi_apart _ _ _ Hinv _ Hin)).
           rewrite length_app. simpl. lia.
        -- exfalso. exact (visit_all_total _ _ _ _ Hvisit).
      * exfalso. exact (node_neighbors_total _ _ Hnbs).
    + exfalso. exact (min_key_total _ Hmin).
Qed.

(** X26.  A search started at a coordinate of the grid ends: its loop
    makes at most as many turns as the grid has cells, each turn
    closing a coordinate not closed before, and then it has returned
    or raised an exception. *)
Theorem search_ends (fuel : nat) (start goal : node)
  (c_board : circuit_board) :
  in_bounds (dimensions c_board) start ->
  (length (all_nodes (dimensions c_board)) < fuel)%nat ->
  (exists r, search fuel start goal c_board = Ret r)
  \/ exists e, search fuel start goal c_board = Raise e.
Proof.
  intros Hstart Hfuel. unfold search.
  apply (search_loop_ends c_board start); [| |simpl; lia].
  - constructor; simpl.
    + constructor.
    + intros n [].
    + intros n [<-|[]]. assumption.
    + intros n _ [].
    + intros n. unfold dict_mem. simpl.
      destruct (node_eqb start n) eqn:E; [|discriminate].
      apply node_eqb_eq in E. subst n. intros _. apply reaches_here.
  - constructor; simpl.
    + intros n v. destruct (node_eqb start n); [|discriminate].
      intros [= <-]. lia.
    + discriminate.
Qed.

Lemma search_ends_witness :
  (exists r, search 16 (0, 0, 0) (0, 1, 1) facing_gates = Ret r)
  \/ exists e, search 16 (0, 0, 0) (0, 1, 1) facing_gates = Raise e.
Proof.
  apply (search_ends 16 (0, 0, 0) (0, 1, 1) facing_gates).
  - simpl. lia.
  - simpl. lia.
Defined.

(* ================================================================= *)
(** ** A routing pass writes on empty cells only *)

Lemma set_cell_get_cases (b b' : grid) (loc m : node) (val : label) :
  set_cell b loc val = Ret b' ->
  get_node b' m = get_node b m
  \/ (get_node b' m = Ret (np_trunc val) /\ get_node b m = get_node b loc).
Proof.
  destruct loc as [[z x] y], m as [[mz mx] my]. intros H.
  apply set_cell_inv in H.
  destruct H as (iz & plane & ix & row & iy & Hz & Hplane & Hx & Hrow & Hy & ->).
  assert (Hloc : get_node b (z, x, y)
                 = match nth_error row iy with
                   | Some c => Ret c
                   | None => Raise IndexError
                   end).
  { unfold get_node. rewrite (getitem_intro _ _ _ _ Hz Hplane). cbn [bind].
    rewrite (getitem_intro _ _ _ _ Hx Hrow). cbn [bind].
    unfold getitem. rewrite Hy. reflexivity. }
  rewrite Hloc. clear Hloc. unfold get_node, getitem. rewrite upd_length.
  destruct (np_index (length b) mz) as [kz| |] eqn:Ez; cbn [bind]; auto.
  rewrite nth_error_upd.
  destruct (nth_error b kz) as [pl|] eqn:Epl; cbn [option_map bind]; [|auto].
  destruct (kz =? iz)%nat eqn:Ekz; [|auto].
  apply Nat.eqb_eq in Ekz. subst kz. rewrite Hplane in Epl. injection Epl as <-.
  rewrite upd_length.
  destruct (np_index (length plane) mx) as [kx| |] eqn:Ex; cbn [bind]; auto.
  rewrite nth_error_upd.
  destruct (nth_error plane kx) as [rw|] eqn:Erw; cbn [option_map bind];
    [|auto].
  destruct (kx =? ix)%nat eqn:Ekx; [|auto].
  apply Nat.eqb_eq in Ekx. subst kx. rewrite Hrow in Erw. injection Erw as <-.
  rewrite upd_length.
  destruct (np_index (length row) my) as [ky| |] eqn:Ey; cbn [bind]; auto.
  rewrite nth_error_upd.
  destruct (nth_error row ky) as [c|] eqn:Ec; cbn [option_map]; [|auto].
  destruct (ky =? iy)%nat eqn:Eky; [|auto].
  apply Nat.eqb_eq in Eky. subst ky. right. rewrite Ec. auto.
Qed.

Lemma paint_cells_keeps (name : label) (m : node) (v : label) :
  v <> EMPTY ->
  forall path b b',
    Forall (fun n => get_node b n = Ret EMPTY
                     \/ get_node b n = Ret (np_trunc name)) path ->
    get_node b m = Ret v ->
    paint_cells b path name = Ret b' ->
    get_node b' m = Ret v.
Proof.
  intros Hv. induction path as [|n path IH]; intros b b' Hpath Hm; simpl.
  - intros [= <-]. assumption.
  - intros H. bind_inv_as H b1 Hset.
    inversion Hpath as [|? ? Hn Hrest]; subst.
    apply (IH b1 b'); [| |exact H].
    + eapply Forall_impl; [|exact Hrest]. intros n' Hn'. cbv beta in *.
      destruct (set_cell_get_cases _ _ _ n' _ Hset) as [->|[-> _]]; auto.
    + destruct (set_cell_get_cases _ _ _ m _ Hset) as [->|[-> Hsame]];
        [assumption|].
      rewrite Hm in Hsame. destruct Hn as [Hn|Hn]; rewrite Hn in Hsame.
      * injection Hsame as ->. contradiction.
      * injection Hsame as ->. reflexivity.
Qed.

Lemma route_one_keeps (fuel : nat) (env : circuit_board) (st st' : opt_state)
  (i a : nat) (m : node) (v : label) :
  self_board st = Array a ->
  (a < length (heap st))%nat ->
  route_one fuel env st i = Ret st' ->
  get_node (nth a (heap st) []) m = Ret v -> v <> EMPTY ->
  get_node (nth a (heap st') []) m = Ret v.
Proof.
  intros Hb Ha. unfold route_one.
  destruct (mem i (completed_wires st)).
  { intros [= <-]. auto. }
  intros H Hm Hv. bind_inv_as H self Hself. bind_inv_as H c Hc.
  bind_inv_as H path Hpath. unfold lay_path in H.
  apply connect_gates_cells in Hpath.
  unfold self_object, deref in Hself. rewrite Hb in Hself. cbn [bind] in Hself.
  injection Hself as <-. cbn [board with_board] in Hpath.
  destruct path as [|nd path].
  - cbn in H. bind_inv_as H name Hname. injection H as <-. assumption.
  - change (0 <? length (nd :: path))%nat with true in H. cbv iota in H.
    bind_inv_as H st1 Hmark. bind_inv_as H name Hname.
    unfold mark_routed in Hmark.
    bind_inv_as Hmark needs1 A1. bind_inv_as Hmark needs2 A2.
    injection Hmark as <-.
    rewrite (paint_store env name a) in H; [|exact Hb|exact Ha].
    cbn [heap set_store set_completed_wires] in H.
    bind_inv_as H b' Hpaint. injection H as <-.
    cbn [heap set_store]. rewrite nth_upd_same by assumption.
    apply (paint_cells_keeps name m v Hv _ _ _ (Forall_impl _
             (fun n Hn => or_introl Hn) Hpath) Hm Hpaint).
Qed.

(** X27.  A routing pass writes on empty cells only: a cell of the array
    [self.board] refers to that holds a gate or a wire before the pass
    holds the same after it. *)
Theorem routing_pass_keeps_occupied_cells (fuel : nat) (env : circuit_board)
  (a : nat) (m : node) (v : label) :
  forall order st st',
    self_board st = Array a ->
    (a < length (heap st))%nat ->
    routing_pass fuel env st order = Ret st' ->
    get_node (nth a (heap st) []) m = Ret v -> v <> EMPTY ->
    self_board st' = Array a
    /\ get_node (nth a (heap st') []) m = Ret v.
Proof.
  induction order as [|i order IH]; intros st st' Hb Ha; simpl.
  - intros [= <-]. auto.
  - intros H Hm Hv. bind_inv_as H st1 Hone.
    pose proof (route_one_keeps _ _ _ _ _ _ _ _ Hb Ha Hone Hm Hv) as Hm1.
    pose proof (route_one_locals _ _ _ _ _ Hone) as S1.
    pose proof (ps_length _ _ (route_one_store _ _ _ _ _ _ Hb Ha Hone)) as L1.
    apply (IH st1 st'); try assumption.
    + rewrite (sl_board _ _ S1). assumption.
    + rewrite L1. assumption.
Qed.

Lemma routing_pass_keeps_occupied_cells_witness :
  self_board
    (set_completed_wires
       (set_store facing_start (heap facing_routed) (Array 0)
                  [(KInt 1, 0); (KInt 2, 0)]) [0%nat]) = Array 0
  /\ get_node
       (nth 0 (heap (set_completed_wires
                       (set_store facing_start (heap facing_routed) (Array 0)
                                  [(KInt 1, 0); (KInt 2, 0)]) [0%nat])) [])
       (0, 1, 3) = Ret GATE.
Proof.
  apply (routing_pass_keeps_occupied_cells 20 facing_gates 0 (0, 1, 3) GATE
           [0%nat] facing_start).
  - reflexivity.
  - simpl. lia.
  - vm_compute. reflexivity.
  - reflexivity.
  - discriminate.
Defined.

(* ================================================================= *)
(** ** Reading the worksheet *)

Lemma read_rows_inner :
  forall rows st rest,
    rest <> [] ->
    read_board.read_rows st (rows ++ rest)
    = (st' <- read_inner st rows ;; read_board.read_rows st' rest).
Proof.
  induction rows as [|r rows IH]; intros st rest Hrest; [reflexivity|].
  cbn [app read_board.read_rows read_inner].
  destruct (rows ++ rest) eqn:E.
  { apply app_eq_nil in E. tauto. }
  rewrite <- E.
  destruct (read_board.read_row st r false); cbn [bind]; auto.
Qed.

Lemma read_inner_app :
  forall rows st rest,
    read_inner st (rows ++ rest)
    = (st' <- read_inner st rows ;; read_inner st' rest).
Proof.
  induction rows as [|r rows IH]; intros st rest; [reflexivity|].
  cbn [app read_inner].
  destruct (read_board.read_row st r false); cbn [bind]; auto.
Qed.

Lemma data_eqb (c : read_board.cell_value) :
  data c ->
  eqb c read_board.Blank = false
  /\ eqb c (read_board.Text "Gate number") = false
  /\ eqb c (read_board.Text "First gate number") = false.
Proof.
  intros [Hb Hh]. unfold is_heading in Hh. apply orb_false_iff in Hh.
  split; [apply eqb_neq; assumption | assumption].
Qed.

(** Rows before the heading of the gates are passed over. *)
Lemma read_title :
  forall title gd nl cs,
    Forall (fun r => exists c rest, r = c :: rest /\ is_heading c = false)
           title ->
    read_inner {| read_board.read_gate := false;
                  read_board.read_netlist := false;
                  read_board.gate_dict := gd; read_board.netlists := nl;
                  read_board.connections := cs |} title
    = Ret {| read_board.read_gate := false;
             read_board.read_netlist := false;
             read_board.gate_dict := gd; read_board.netlists := nl;
             read_board.connections := cs |}.
Proof.
  induction title as [|r title IH]; intros gd nl cs Hall; [reflexivity|].
  inversion Hall as [|? ? (c & rest & -> & Hc) Hrest]; subst.
  unfold is_heading in Hc. apply orb_false_iff in Hc. destruct Hc as [H1 H2].
  cbn [read_inner]. unfold read_board.read_row, read_board.gate_part,
    read_board.netlist_part, read_board.heading_part.
  cbn [read_board.read_gate read_board.read_netlist bind].
  change (getitem (c :: rest) 0) with (Ret (A := read_board.cell_value) c).
  cbn [bind]. rewrite H1, H2. apply IH. assumption.
Qed.

(** The rows of the gates fill the dictionary. *)
Lemma read_gates :
  forall gs gd nl cs,
    Forall (fun g => data (fst g)) gs ->
    read_inner {| read_board.read_gate := true;
                  read_board.read_netlist := false;
                  read_board.gate_dict := gd; read_board.netlists := nl;
                  read_board.connections := cs |} (map gate_row gs)
    = Ret {| read_board.read_gate := true;
             read_board.read_netlist := false;
             read_board.gate_dict :=
               fold_left (fun d g => dict_set d (fst g)
                                       (0, fst (snd g), snd (snd g))) gs gd;
             read_board.netlists := nl;
             read_board.connections := cs |}.
Proof.
  induction gs as [|[g [x y]] gs IH]; intros gd nl cs Hall; [reflexivity|].
  inversion Hall as [|? ? Hg Hrest]; subst. cbn [fst] in Hg.
  destruct (data_eqb _ Hg) as (H0 & H1 & H2).
  cbn [map read_inner]. unfold read_board.read_row, read_board.gate_part,
    read_board.netlist_part, read_board.heading_part, gate_row.
  cbn [read_board.read_gate read_board.read_netlist bind fst snd].
  change (getitem [g; x; y] 0) with (Ret (A := read_board.cell_value) g).
  change (getitem [g; x; y] 1) with (Ret (A := read_board.cell_value) x).
  change (getitem [g; x; y] 2) with (Ret (A := read_board.cell_value) y).
  cbn [bind]. rewrite H0. cbn [bind read_board.read_netlist].
  change (getitem [g; x; y] 0) with (Ret (A := read_board.cell_value) g).
  cbn [bind]. rewrite H1, H2.
  cbn [read_board.read_gate read_board.read_netlist read_board.gate_dict
       read_board.netlists read_board.connections].
  apply (IH _ nl cs Hrest).
Qed.

(** The rows of a net list are gathered in [connections]. *)
Lemma read_connections :
  forall cs gd nl acc,
    Forall (fun c => data (fst c)) cs ->
    read_inner {| read_board.read_gate := false;
                  read_board.read_netlist := true;
                  read_board.gate_dict := gd; read_board.netlists := nl;
                  read_board.connections := acc |} (map connection_row cs)
    = Ret {| read_board.read_gate := false;
             read_board.read_netlist := true;
             read_board.gate_dict := gd; read_board.netlists := nl;
             read_board.connections := acc ++ cs |}.
Proof.
  induction cs as [|[a b] cs IH]; intros gd nl acc Hall.
  - rewrite app_nil_r. reflexivity.
  - inversion Hall as [|? ? Ha Hrest]; subst. cbn [fst] in Ha.
    destruct (data_eqb _ Ha) as (H0 & H1 & H2).
    cbn [map read_inner]. unfold read_board.read_row, read_board.gate_part,
      read_board.netlist_part, read_board.heading_part, connection_row.
    cbn [read_board.read_gate read_board.read_netlist bind fst snd].
    change (getitem [a; b; read_board.Blank] 0)
      with (Ret (A := read_board.cell_value) a).
    change (getitem [a; b; read_board.Blank] 1)
      with (Ret (A := read_board.cell_value) b).
    cbn [bind]. rewrite H0. cbn [orb bind]. rewrite H1, H2.
    cbn [read_board.read_gate read_board.read_netlist read_board.gate_dict
         read_board.netlists read_board.connections].
    replace (acc ++ (a, b) :: cs) with ((acc ++ [(a, b)]) ++ cs)
      by (rewrite <- app_assoc; reflexivity).
    apply (IH gd nl (acc ++ [(a, b)]) Hrest).
Qed.

(** A net list closed by an empty row is added to [netlists]. *)
Lemma read_block (gd : dict read_board.cell_value
                         (Z * read_board.cell_value * read_board.cell_value))
  (cs : list (read_board.cell_value * read_board.cell_value)) :
  forall nl old,
    Forall (fun c => data (fst c)) cs ->
    read_inner {| read_board.read_gate := false;
                  read_board.read_netlist := false;
                  read_board.gate_dict := gd; read_board.netlists := nl;
                  read_board.connections := old |} (netlist_block cs)
    = Ret {| read_board.read_gate := false;
             read_board.read_netlist := false;
             read_board.gate_dict := gd; read_board.netlists := nl ++ [cs];
             read_board.connections := cs |}.
Proof.
  intros nl old Hall. unfold netlist_block. cbn [read_inner].
  replace (read_board.read_row _ netlist_heading false)
    with (Ret {| read_board.read_gate := false;
                 read_board.read_netlist := true;
                 read_board.gate_dict := gd; read_board.netlists := nl;
                 read_board.connections := [] |}) by reflexivity.
  cbn [bind]. rewrite read_inner_app, (read_connections cs gd nl [] Hall).
  reflexivity.
Qed.

Lemma read_blocks (gd : dict read_board.cell_value
                          (Z * read_board.cell_value * read_board.cell_value)) :
  forall nets nl old,
    Forall (Forall (fun c => data (fst c))) nets ->
    exists old',
      read_inner {| read_board.read_gate := false;
                    read_board.read_netlist := false;
                    read_board.gate_dict := gd; read_board.netlists := nl;
                    read_board.connections := old |}
                 (flat_map netlist_block nets)
      = Ret {| read_board.read_gate := false;
               read_board.read_netlist := false;
               read_board.gate_dict := gd; read_board.netlists := nl ++ nets;
               read_board.connections := old' |}.
Proof.
  induction nets as [|cs nets IH]; intros nl old Hall.
  - exists old. rewrite app_nil_r. reflexivity.
  - inversion Hall as [|? ? Hcs Hrest]; subst.
    cbn [flat_map]. rewrite read_inner_app, (read_block gd cs nl old Hcs).
    cbn [bind]. destruct (IH (nl ++ [cs]) cs Hrest) as (old' & ->).
    exists old'. rewrite <- app_assoc. reflexivity.
Qed.

(** X28.  From a worksheet laid out as expected [process_file] returns
    the gates, each with its two coordinates on layer 0, and the net
    lists in their order, each with its connections in their order.
    The last row of the sheet closes the last net list whatever it
    holds: a connection written there is not read. *)
Theorem process_file_reads_the_layout (title : list read_board.row)
  (gs : list (read_board.cell_value
              * (read_board.cell_value * read_board.cell_value)))
  (nets : list (list (read_board.cell_value * read_board.cell_value)))
  (last_net : list (read_board.cell_value * read_board.cell_value))
  (c : read_board.cell_value) (rest : read_board.row) :
  Forall (fun r => exists c rest, r = c :: rest /\ is_heading c = false)
         title ->
  Forall (fun g => data (fst g)) gs ->
  Forall (Forall (fun c => data (fst c))) nets ->
  Forall (fun c => data (fst c)) last_net ->
  read_board.process_file (worksheet title gs nets last_net (c :: rest))
  = Ret (gates_read gs, nets ++ [last_net]).
Proof.
  intros Htitle Hgs Hnets Hlast. unfold read_board.process_file, worksheet.
  rewrite read_rows_inner by discriminate.
  rewrite (read_title title [] [] [] Htitle). cbn [bind].
  change (gates_heading :: map gate_row gs ++ empty_row
          :: flat_map netlist_block nets
          ++ netlist_heading :: map connection_row last_net ++ [c :: rest])
    with ([gates_heading]
          ++ map gate_row gs ++ [empty_row]
          ++ flat_map netlist_block nets
          ++ [netlist_heading] ++ map connection_row last_net ++ [c :: rest]).
  rewrite read_rows_inner by (destruct gs; discriminate).
  replace (read_inner _ [gates_heading])
    with (Ret {| read_board.read_gate := true;
                 read_board.read_netlist := false;
                 read_board.gate_dict := []; read_board.netlists := [];
                 read_board.connections := [] |}) by reflexivity.
  cbn [bind]. rewrite read_rows_inner by discriminate.
  rewrite (read_gates gs [] [] [] Hgs). cbn [bind].
  rewrite read_rows_inner by (destruct nets; discriminate).
  replace (read_inner _ [empty_row])
    with (Ret {| read_board.read_gate := false;
                 read_board.read_netlist := false;
                 read_board.gate_dict := gates_read gs;
                 read_board.netlists := [];
                 read_board.connections := [] |}) by reflexivity.
  cbn [bind]. rewrite read_rows_inner by discriminate.
  destruct (read_blocks (gates_read gs) nets [] [] Hnets) as (old & ->).
  cbn [bind]. rewrite read_rows_inner by (destruct last_net; discriminate).
  replace (read_inner _ [netlist_heading])
    with (Ret {| read_board.read_gate := false;
                 read_board.read_netlist := true;
                 read_board.gate_dict := gates_read gs;
                 read_board.netlists := nets;
                 read_board.connections := [] |}) by reflexivity.
  cbn [bind]. rewrite read_rows_inner by discriminate.
  rewrite (read_connections last_net _ nets [] Hlast). cbn [bind app].
  cbn [read_board.read_rows]. unfold read_board.read_row, read_board.gate_part,
    read_board.netlist_part.
  cbn [read_board.read_gate read_board.read_netlist bind].
  change (getitem (c :: rest) 0) with (Ret (A := read_board.cell_value) c).
  cbn [bind]. rewrite orb_true_r. reflexivity.
Qed.

Lemma process_file_reads_the_layout_witness :
  read_board.process_file
    (worksheet
       [[read_board.Text "Board"; read_board.Number 1; read_board.Blank]]
       [(read_board.Number 1, (read_board.Number 1, read_board.Number 1));
        (read_board.Number 2, (read_board.Number 6, read_board.Number 1))]
       [[(read_board.Number 1, read_board.Number 2)]]
       [(read_board.Number 2, read_board.Number 1)]
       [read_board.Number 1; read_board.Number 2; read_board.Blank])
  = Ret (gates_read
           [(read_board.Number 1, (read_board.Number 1, read_board.Number 1));
            (read_board.Number 2, (read_board.Number 6, read_board.Number 1))],
         [[(read_board.Number 1, read_board.Number 2)]]
         ++ [[(read_board.Number 2, read_board.Number 1)]]).
Proof.
  apply (process_file_reads_the_layout
           [[read_board.Text "Board"; read_board.Number 1; read_board.Blank]]
           [(read_board.Number 1, (read_board.Number 1, read_board.Number 1));
            (read_board.Number 2, (read_board.Number 6, read_board.Number 1))]
           [[(read_board.Number 1, read_board.Number 2)]]
           [(read_board.Number 2, read_board.Number 1)]
           (read_board.Number 1) [read_board.Number 2; read_board.Blank]).
  - repeat constructor. eexists. eexists. split; reflexivity.
  - repeat constructor; discriminate.
  - repeat constructor; discriminate.
  - repeat constructor; discriminate.
Defined.

(* ================================================================= *)
(** ** Counting the connections of the gates *)

Lemma total_dict_set (d : dict key Z) (k : key) (v : Z) :
  total (dict_set d k v)
  = total d + v - match dict_get d k with Some c => c | None => 0 end.
Proof.
  unfold total. induction d as [|[k' c] d IH]; simpl; [lia|].
  change (key_eqb k' k) with (eqb k' k).
  destruct (eqb k' k); simpl; [lia|]. rewrite IH. lia.
Qed.

Lemma total_count_gate (d : dict key Z) (n : key) :
  total (count_gate d n) = total d + 1.
Proof.
  unfold count_gate. destruct (dict_get d n) as [c|] eqn:G;
    rewrite total_dict_set, G; lia.
Qed.

Lemma count_gate_NoDup (d : dict key Z) (n : key) :
  NoDup (map fst d) -> NoDup (map fst (count_gate d n)).
Proof.
  unfold count_gate. destruct (dict_get d n); apply dict_set_NoDup.
Qed.

Lemma gate_connectors_total :
  forall conns acc,
    total (fold_left (fun counts c => count_gate (count_gate counts (fst c))
                                                 (snd c)) conns acc)
    = total acc + 2 * Z.of_nat (length conns)
    /\ (NoDup (map fst acc) ->
        NoDup (map fst
                 (fold_left (fun counts c =>
                               count_gate (count_gate counts (fst c)) (snd c))
                            conns acc))).
Proof.
  induction conns as [|c conns IH]; intros acc; [simpl; split; [lia|auto]|].
  cbn [fold_left length]. destruct (IH (count_gate (count_gate acc (fst c))
                                                   (snd c))) as [Ht Hnd].
  split.
  - rewrite Ht, !total_count_gate. lia.
  - intros Hacc. apply Hnd. apply count_gate_NoDup, count_gate_NoDup, Hacc.
Qed.

(** X29.  [gate_connectors] gives every gate that a connection names the
    number of connection ends at it, and no entry to any other gate;
    no gate has two entries, and the counts add up to twice the number
    of connections. *)
Theorem gate_connectors_counts_ends (conns : list (key * key)) :
  (forall g, dict_get (gate_connectors conns) g
             = if degree conns g =? 0 then None else Some (degree conns g))
  /\ NoDup (map fst (gate_connectors conns))
  /\ total (gate_connectors conns) = 2 * Z.of_nat (length conns).
Proof.
  split; [intros g; apply gate_connectors_degree|].
  unfold gate_connectors. destruct (gate_connectors_total conns []) as [Ht Hnd].
  split; [apply Hnd; constructor | rewrite Ht; reflexivity].
Qed.
